(** * epub2tts: progress tracker, degrading Kokoro backend, batch runners
      and orchestrator, embedded in Rocq.

    Sources embedded:
    - src/src/ui/progress_tracker.py      (ProgressTracker, PipelineStats)
    - src/src/pipelines/tts_pipeline.py   (MLXKokoroModel.synthesize,
                                           KokoroTTSPipeline.batch_process)
    - src/src/pipelines/image_pipeline.py (batch_process_images)
    - src/src/pipelines/orchestrator.py   (process_epub_complete) *)

From stdpp Require Import base gmap strings list pretty.
From Stdlib Require Import ZArith QArith Qminmax Lia.
From Stdlib Require Import Sorting.Permutation Sorting.Sorted Ascii.
Local Close Scope Q_scope.
Local Open Scope Z_scope.

(* ================================================================== *)
(** ** Python exceptions                                               *)
(* ================================================================== *)

(** An exception object of a class derived from [Exception]: its class name
    and its [str()]. *)
Record PyExc := mkExc { exc_type : string; exc_msg : string }.

(** A computation that returns a value or raises. *)
Inductive Exc (A : Type) : Type :=
| Ok (a : A)
| Raise (e : PyExc).
Arguments Ok {A} a.
Arguments Raise {A} e.

Definition exc_bind {A B} (m : Exc A) (f : A -> Exc B) : Exc B :=
  match m with Ok a => f a | Raise e => Raise e end.

#[global] Instance Exc_ret : MRet Exc := fun A a => Ok a.
#[global] Instance Exc_bind : MBind Exc := fun A B f m => exc_bind m f.

(** [try: m  except Exception as e: handler(e)] *)
Definition try_except {A} (m : Exc A) (handler : PyExc -> A) : A :=
  match m with Ok a => a | Raise e => handler e end.

(* ================================================================== *)
(** ** progress_tracker.py                                             *)
(* ================================================================== *)
Module Tracker.

Inductive EventType := START | PROGRESS | COMPLETE | ERROR | INFO | WARNING.
Inductive PipelineType := TTS | IMAGE | EPUB | OVERALL.

#[global] Instance PipelineType_eq_dec : EqDecision PipelineType.
Proof. solve_decision. Defined.
#[global] Instance EventType_eq_dec : EqDecision EventType.
Proof. solve_decision. Defined.

(** The event payload [data: Dict[str, Any]], reduced to the keys the
    tracker reads; [None] means the key is absent. *)
Record EventData := mkData {
  d_total_items : option Z;
  d_current_item : option string;
  d_completed_items : option Z;
  d_custom_stats : option (gmap string Z);
  d_action : option string
}.

Definition no_data : EventData := mkData None None None None None.

Record ProgressEvent := mkEvent {
  pipeline : PipelineType;
  event_type : EventType;
  data : EventData;
  timestamp : Z
}.

(** Python object identities of the [custom_stats] dicts: the dicts live in
    a heap shared by the tracker and its callers. *)
Abbreviation loc := nat.

(** [PipelineStats]; [custom_stats] is a reference to a dict object. *)
Record PipelineStats := mkStats {
  total_items : Z;
  completed_items : Z;
  current_item : string;
  start_time : Z;
  last_update : Z;
  errors : Z;
  warnings : Z;
  custom_stats : loc
}.

(** [PipelineStats.progress_percentage]; float division taken as exact
    rational division. *)
Definition progress_percentage (s : PipelineStats) : Q :=
  if Z.eqb (total_items s) 0 then 0%Q
  else Qmin 100%Q (inject_Z (completed_items s) / inject_Z (total_items s) * 100)%Q.

Definition set_total (s : PipelineStats) (v : Z) : PipelineStats :=
  mkStats v (completed_items s) (current_item s) (start_time s) (last_update s)
    (errors s) (warnings s) (custom_stats s).
Definition set_completed (s : PipelineStats) (v : Z) : PipelineStats :=
  mkStats (total_items s) v (current_item s) (start_time s) (last_update s)
    (errors s) (warnings s) (custom_stats s).
Definition set_current (s : PipelineStats) (v : string) : PipelineStats :=
  mkStats (total_items s) (completed_items s) v (start_time s) (last_update s)
    (errors s) (warnings s) (custom_stats s).
Definition set_start (s : PipelineStats) (v : Z) : PipelineStats :=
  mkStats (total_items s) (completed_items s) (current_item s) v (last_update s)
    (errors s) (warnings s) (custom_stats s).
Definition set_last_update (s : PipelineStats) (v : Z) : PipelineStats :=
  mkStats (total_items s) (completed_items s) (current_item s) (start_time s) v
    (errors s) (warnings s) (custom_stats s).
Definition set_errors (s : PipelineStats) (v : Z) : PipelineStats :=
  mkStats (total_items s) (completed_items s) (current_item s) (start_time s)
    (last_update s) v (warnings s) (custom_stats s).
Definition set_warnings (s : PipelineStats) (v : Z) : PipelineStats :=
  mkStats (total_items s) (completed_items s) (current_item s) (start_time s)
    (last_update s) (errors s) v (custom_stats s).
Definition set_custom (s : PipelineStats) (v : loc) : PipelineStats :=
  mkStats (total_items s) (completed_items s) (current_item s) (start_time s)
    (last_update s) (errors s) (warnings s) v.

Definition if_key {A} (o : option A) (f : A -> PipelineStats -> PipelineStats)
    (s : PipelineStats) : PipelineStats :=
  match o with Some a => f a s | None => s end.

(** The scalar part of [_update_stats] (everything but the custom dict). *)
Definition update_fields (s0 : PipelineStats) (ev : ProgressEvent) : PipelineStats :=
  let d := data ev in
  let s := set_last_update s0 (timestamp ev) in
  match event_type ev with
  | START =>
      let s := if_key (d_total_items d) (fun v s => set_total s v) s in
      if_key (d_current_item d) (fun v s => set_current s v) s
  | PROGRESS =>
      let s := if_key (d_completed_items d) (fun v s => set_completed s v) s in
      let s := if_key (d_current_item d) (fun v s => set_current s v) s in
      if_key (d_total_items d) (fun v s => set_total s v) s
  | COMPLETE =>
      let s := if_key (d_current_item d) (fun _ s => set_current s "") s in
      set_completed s (completed_items s + 1)
  | ERROR => set_errors s (errors s + 1)
  | WARNING => set_warnings s (warnings s + 1)
  | INFO => s
  end.

(** The tracker's state together with the heap of dict objects. *)
Record Tracker := mkTracker {
  stats : PipelineType -> PipelineStats;
  recent_events : PipelineType -> list ProgressEvent;
  subscribers : list nat;
  invocations : list (nat * ProgressEvent);
  printed : list string;
  heap : gmap loc (gmap string Z)
}.

Definition fn_update {B} (f : PipelineType -> B) (p : PipelineType) (b : B)
    : PipelineType -> B :=
  fun q => if decide (p = q) then b else f q.

Definition with_stats (t : Tracker) (p : PipelineType) (s : PipelineStats) : Tracker :=
  mkTracker (fn_update (stats t) p s) (recent_events t) (subscribers t)
    (invocations t) (printed t) (heap t).
Definition with_heap (t : Tracker) (h : gmap loc (gmap string Z)) : Tracker :=
  mkTracker (stats t) (recent_events t) (subscribers t) (invocations t) (printed t) h.
Definition with_recent (t : Tracker) (p : PipelineType) (l : list ProgressEvent) : Tracker :=
  mkTracker (stats t) (fn_update (recent_events t) p l) (subscribers t)
    (invocations t) (printed t) (heap t).
Definition with_invocations (t : Tracker) (l : list (nat * ProgressEvent)) : Tracker :=
  mkTracker (stats t) (recent_events t) (subscribers t) l (printed t) (heap t).
Definition print (t : Tracker) (msg : string) : Tracker :=
  mkTracker (stats t) (recent_events t) (subscribers t) (invocations t)
    (printed t ++ [msg]) (heap t).

(** [ProgressTracker.__init__]: one fresh [PipelineStats()] per pipeline
    type, each with its own empty dict (objects 0..3), created at [now]. *)
Definition pipeline_index (p : PipelineType) : loc :=
  match p with TTS => 0%nat | IMAGE => 1%nat | EPUB => 2%nat | OVERALL => 3%nat end.

Definition fresh_stats (now : Z) (l : loc) : PipelineStats :=
  mkStats 0 0 "" now now 0 0 l.

Definition init_tracker (now : Z) : Tracker :=
  mkTracker (fun p => fresh_stats now (pipeline_index p)) (fun _ => [])
    [] [] []
    (<[0%nat:=∅]> (<[1%nat:=∅]> (<[2%nat:=∅]> (<[3%nat:=∅]> ∅)))).

(** [_update_stats]: scalar fields, then
    [stats.custom_stats.update(event.data['custom_stats'])] in place. *)
Definition update_stats (t : Tracker) (ev : ProgressEvent) : Tracker :=
  let s := stats t (pipeline ev) in
  let t1 := with_stats t (pipeline ev) (update_fields s ev) in
  match d_custom_stats (data ev) with
  | Some d => with_heap t1 (alter (fun m => d ∪ m) (custom_stats s) (heap t1))
  | None => t1
  end.

Definition max_recent_events : nat := 10%nat.

(** [_store_recent_event] *)
Definition store_recent_event (t : Tracker) (ev : ProgressEvent) : Tracker :=
  let recent := recent_events t (pipeline ev) ++ [ev] in
  let recent := if Nat.ltb max_recent_events (length recent) then tail recent else recent in
  with_recent t (pipeline ev) recent.

(** [subscribe]: appended unless already present. *)
Definition subscribe (t : Tracker) (cb : nat) : Tracker :=
  if decide (cb ∈ subscribers t) then t
  else mkTracker (stats t) (recent_events t) (subscribers t ++ [cb])
         (invocations t) (printed t) (heap t).

(** [get_stats]: a new [PipelineStats] whose dict is
    [stats.custom_stats.copy()], a new object in the heap. *)
Definition get_stats (t : Tracker) (p : PipelineType) : PipelineStats * Tracker :=
  let s := stats t p in
  let l := fresh (dom (heap t)) in
  let m := default ∅ (heap t !! custom_stats s) in
  (set_custom s l, with_heap t (<[l := m]> (heap t))).

(** The sentinel of [stop()]. *)
Definition is_shutdown (ev : ProgressEvent) : bool :=
  bool_decide (pipeline ev = OVERALL) && bool_decide (event_type ev = INFO) &&
  bool_decide (d_action (data ev) = Some "shutdown").

(** The events of a queue that the consumer handles: those before the
    first shutdown sentinel. *)
Fixpoint delivered (q : list ProgressEvent) : list ProgressEvent :=
  match q with
  | [] => []
  | ev :: q' => if is_shutdown ev then [] else ev :: delivered q'
  end.

Section EventLoop.

(** What subscriber [cb] does when called with an event, given all the
    calls made so far: it returns, or raises an [Exception]. *)
Variable callback : nat -> list (nat * ProgressEvent) -> ProgressEvent -> Exc unit.

(** The loop of [_notify_subscribers] over its copy of the subscriber list:
    [try: callback(event) except Exception as e: print(...)]. *)
Fixpoint notify_each (subs : list nat) (t : Tracker) (ev : ProgressEvent) : Exc Tracker :=
  match subs with
  | [] => Ok t
  | cb :: rest =>
      let t1 := with_invocations t (invocations t ++ [(cb, ev)]) in
      let t2 := try_except (_ ← callback cb (invocations t) ev; mret t1)
                  (fun e => print t1 (String.append "Error in progress event subscriber: " (exc_msg e))) in
      notify_each rest t2 ev
  end.

Definition notify_subscribers (t : Tracker) (ev : ProgressEvent) : Exc Tracker :=
  notify_each (subscribers t) t ev.

(** The body of the [while] loop of [_process_events] for a dequeued event
    that is not the sentinel.  [update_stats] and [store_recent_event]
    cannot raise on the modelled payload. *)
Definition handle_event (t : Tracker) (ev : ProgressEvent) : Exc Tracker :=
  let t1 := update_stats t ev in
  let t2 := store_recent_event t1 ev in
  notify_subscribers t2 ev.

(** [_process_events] draining the queue [q] (FIFO) until it is empty or
    the shutdown sentinel is dequeued. *)
Fixpoint process_events (t : Tracker) (q : list ProgressEvent) : Tracker :=
  match q with
  | [] => t
  | ev :: q' =>
      if is_shutdown ev then t
      else process_events
             (try_except (handle_event t ev)
                (fun e => print t (String.append "Error processing progress event: " (exc_msg e))))
             q'
  end.

End EventLoop.

(** Convenience constructors ([create_start_event], [create_complete_event]). *)
Definition start_event (p : PipelineType) (total : Z) (cur : string) (ts : Z) : ProgressEvent :=
  mkEvent p START (mkData (Some total) (Some cur) None None None) ts.
Definition complete_event (p : PipelineType) (cur : string) (ts : Z) : ProgressEvent :=
  mkEvent p COMPLETE (mkData None (Some cur) None None None) ts.

(** [True] for the [Complete] events of pipeline [p]. *)
Definition complete_for (p : PipelineType) (ev : ProgressEvent) : bool :=
  bool_decide (pipeline ev = p) && bool_decide (event_type ev = COMPLETE).

(** Events that leave [total_items] and the base of [completed_items] of
    pipeline [p] alone: no [Progress] and no [Start] carrying a total. *)
Definition keeps_counts (p : PipelineType) (ev : ProgressEvent) : Prop :=
  pipeline ev = p ->
  event_type ev <> PROGRESS /\ (event_type ev = START -> d_total_items (data ev) = None).

Definition keeps_countsb (p : PipelineType) (ev : ProgressEvent) : bool :=
  negb (bool_decide (pipeline ev = p)) ||
  (negb (bool_decide (event_type ev = PROGRESS)) &&
   (negb (bool_decide (event_type ev = START)) || bool_decide (d_total_items (data ev) = None))).

(** What a caller of [get_stats] can do to the object it got back:
    assign one of its attributes, or mutate its [custom_stats] dict in
    place ([d[k] = v], [del d[k]], [d.clear()], [d.update(u)]). *)
Inductive Mutation :=
| MSetTotal (v : Z)
| MSetCompleted (v : Z)
| MSetCurrent (v : string)
| MSetStart (v : Z)
| MSetLastUpdate (v : Z)
| MSetErrors (v : Z)
| MSetWarnings (v : Z)
| MSetCustom (d : gmap string Z)   (* obj.custom_stats = {...}: a new dict *)
| MDictSet (k : string) (v : Z)
| MDictDel (k : string)            (* on a missing key Python raises; nothing changes *)
| MDictClear
| MDictUpdate (u : gmap string Z).

(** The caller's object and the shared heap after one mutation. *)
Definition mutate (ot : PipelineStats * Tracker) (m : Mutation) : PipelineStats * Tracker :=
  let (o, t) := ot in
  let in_dict f := (o, with_heap t (alter f (custom_stats o) (heap t))) in
  match m with
  | MSetTotal v => (set_total o v, t)
  | MSetCompleted v => (set_completed o v, t)
  | MSetCurrent v => (set_current o v, t)
  | MSetStart v => (set_start o v, t)
  | MSetLastUpdate v => (set_last_update o v, t)
  | MSetErrors v => (set_errors o v, t)
  | MSetWarnings v => (set_warnings o v, t)
  | MSetCustom d =>
      let l := fresh (dom (heap t)) in (set_custom o l, with_heap t (<[l := d]> (heap t)))
  | MDictSet k v => in_dict (insert k v)
  | MDictDel k => in_dict (delete k)
  | MDictClear => in_dict (fun _ => ∅)
  | MDictUpdate u => in_dict (fun d => u ∪ d)
  end.

Definition mutate_all (ot : PipelineStats * Tracker) (ms : list Mutation) : PipelineStats * Tracker :=
  fold_left mutate ms ot.

(** What the tracker holds for pipeline [q]: its scalar fields and the
    contents of its dict (object identity left out). *)
Definition observe (t : Tracker) (q : PipelineType) : PipelineStats * option (gmap string Z) :=
  (set_custom (stats t q) 0%nat, heap t !! custom_stats (stats t q)).

(** Every pipeline's dict is allocated in the heap. *)
Definition tracker_wf (t : Tracker) : Prop :=
  forall q, custom_stats (stats t q) ∈ dom (heap t).

(** A subscriber that never raises. *)
Definition quiet_callback : nat -> list (nat * ProgressEvent) -> ProgressEvent -> Exc unit :=
  fun _ _ _ => Ok tt.

End Tracker.

(* ================================================================== *)
(** ** tts_pipeline.py: MLXKokoroModel                                 *)
(* ================================================================== *)
Module Kokoro.
Local Open Scope nat_scope.

(** Python's [needle in hay] on strings. *)
Fixpoint contains (needle hay : string) : bool :=
  String.prefix needle hay ||
  match hay with
  | EmptyString => false
  | String _ rest => contains needle rest
  end.

Definition metal_keywords : list string :=
  ["MTLCommandBuffer"; "Metal"; "failed assertion"; "Completed handler"; "commit call"].

(** [any(keyword in str(error) for keyword in metal_keywords)] *)
Definition is_metal_error (e : PyExc) : bool :=
  existsb (fun kw => contains kw (exc_msg e)) metal_keywords.

(** The synthesis state of an [MLXKokoroModel] instance (set at the end of
    [__init__]: [max_retries = 3], [degradation_level = 0],
    [metal_error_count = 0]). *)
Record Model := mkModel {
  use_mlx_audio : bool;
  max_retries : nat;
  degradation_level : nat;   (* 0=MLX, 1=Direct, 2=Mock *)
  metal_error_count : nat
}.

Definition fresh_model (use_mlx : bool) : Model := mkModel use_mlx 3 0 0.

(** The two synthesis paths: [_try_direct_kokoro] and [_try_mlx_audio]. *)
Inductive Backend := DirectKokoro | MlxAudio.

(** What the backend does on one call: audio samples, or it raises. *)
Inductive Response := Audio (samples : list Z) | Failure (e : PyExc).

(** Observable effects: [_cleanup_metal_resources()], a backend call,
    [time.sleep(secs)] of the retry backoff. *)
Inductive Action := Cleanup | Call (b : Backend) | Sleep (secs : nat).

Definition runtime_error (msg : string) : PyExc := mkExc "RuntimeError" msg.

(** The backend's responses, in call order; once the list is exhausted the
    backend returns (empty) audio. *)
Definition call_backend (b : Backend) (outs : list Response) (tr : list Action)
    : Exc (list Z) * list Response * list Action :=
  match outs with
  | [] => (Ok [], [], tr ++ [Call b])
  | Audio a :: rest => (Ok a, rest, tr ++ [Call b])
  | Failure e :: rest => (Raise e, rest, tr ++ [Call b])
  end.

(** [_handle_metal_error]: the counter is incremented before the check, so
    it stays incremented when the [RuntimeError] is raised. *)
Definition handle_metal_error (m : Model) (e : PyExc) (tr : list Action)
    : Exc bool * Model * list Action :=
  if is_metal_error e then
    let cnt := S (metal_error_count m) in
    let tr := tr ++ [Cleanup] in
    if Nat.leb 3 cnt then
      (Raise (runtime_error "Too many Metal framework errors, TTS unavailable"),
       mkModel (use_mlx_audio m) (max_retries m) (degradation_level m) cnt, tr)
    else
      (Ok true, mkModel false (max_retries m) 1 cnt, tr)
  else (Ok false, m, tr).

(** The [try] body of one iteration of the [for attempt in ...] loop. *)
Definition attempt_once (attempt : nat) (m : Model) (outs : list Response) (tr : list Action)
    : Exc (list Z) * list Response * list Action :=
  let tr := tr ++ [Cleanup] in
  if Nat.eqb (degradation_level m) 0 && negb (use_mlx_audio m) then
    call_backend DirectKokoro outs tr
  else if Nat.eqb attempt 0 && Nat.eqb (degradation_level m) 0 && use_mlx_audio m then
    call_backend MlxAudio outs tr
  else if Nat.leb (degradation_level m) 1 then
    call_backend DirectKokoro outs tr
  else (Raise (runtime_error "All TTS methods failed"), outs, tr).

(** [for attempt in range(self.max_retries + 1)], [fuel] iterations left;
    [continue] after a handled Metal error, [time.sleep(2 ** attempt)]
    after another failure that was not the last attempt. *)
Fixpoint synth_loop (fuel attempt : nat) (m : Model) (outs : list Response) (tr : list Action)
    : Exc (list Z) * Model * list Response * list Action :=
  match fuel with
  | O => (Raise (runtime_error "TTS synthesis failed unexpectedly"), m, outs, tr)
  | S fuel' =>
      match attempt_once attempt m outs tr with
      | (Ok audio, outs1, tr1) => (Ok audio, m, outs1, tr1)
      | (Raise e, outs1, tr1) =>
          match handle_metal_error m e tr1 with
          | (Raise e', m2, tr2) => (Raise e', m2, outs1, tr2)
          | (Ok true, m2, tr2) => synth_loop fuel' (S attempt) m2 outs1 tr2
          | (Ok false, m2, tr2) =>
              if Nat.eqb attempt (max_retries m2) then
                (Raise (runtime_error ("TTS synthesis failed after " +:+ pretty (S (max_retries m2)) +:+
                                      " attempts: " +:+ exc_msg e)),
                 m2, outs1, tr2)
              else synth_loop fuel' (S attempt) m2 outs1 (tr2 ++ [Sleep (2 ^ attempt)])
          end
      end
  end.

(** [MLXKokoroModel.synthesize] *)
Definition synthesize (m : Model) (outs : list Response)
    : Exc (list Z) * Model * list Response * list Action :=
  synth_loop (S (max_retries m)) 0 m outs [].

Definition is_call (a : Action) : bool := match a with Call _ => true | _ => false end.
Definition calls (tr : list Action) : nat := length (List.filter is_call tr).
Definition sleeps (tr : list Action) : list nat :=
  flat_map (fun a => match a with Sleep k => [k] | _ => [] end) tr.

(** [n] successive [synthesize] calls on one instance, sharing the
    backend's response stream; the levels observed before the first call
    and after each call. *)
Fixpoint levels_over (n : nat) (m : Model) (outs : list Response) : list nat :=
  match n with
  | O => [degradation_level m]
  | S n' =>
      let '(_, m', outs', _) := synthesize m outs in
      degradation_level m :: levels_over n' m' outs'
  end.

End Kokoro.

(* ================================================================== *)
(** ** Batch runners: KokoroTTSPipeline.batch_process and
       ImageDescriptionPipeline.batch_process_images                   *)
(* ================================================================== *)
Module Batch.

(** Python's [enumerate]. *)
Definition enumerate {A} (l : list A) : list (nat * A) := zip (seq 0 (length l)) l.

(** A text chunk [{'text': ..., 'id': ...}]. *)
Record Chunk := mkChunk { chunk_text : string; chunk_id : option string }.

Record TTSResult := mkTTSResult {
  success : bool;
  audio_path : option string;
  error_message : option string
}.

(** An image entry [{'file_path': ..., 'context': ...}]. *)
Record ImageInfo := mkImageInfo { file_path : string; context : option string }.

Record ImageDescription := mkDescription {
  image_path : string;
  description : string;
  confidence : Q;
  cache_hit : bool
}.

Record ImageProcessingResult := mkImageResult {
  ip_success : bool;
  descriptions : list ImageDescription;
  total_images : nat;
  processed_images : nat;
  cache_hits : nat
}.

Section Runners.

(** [process_chunk] on the [i]-th chunk: it catches every [Exception] of
    its body and always returns a [TTSResult]. *)
Variable process_chunk : nat -> Chunk -> TTSResult.

(** [process_image] on the [i]-th image: its cache lookup runs outside its
    [try], so it may raise. *)
Variable process_image : nat -> ImageInfo -> Exc ImageDescription.

(** [batch_process].  [order] is the order in which [as_completed] yields
    the futures of the parallel branch (each submitted item once). *)
Definition batch_process (is_initialized parallel force_sequential : bool)
    (text_chunks : list Chunk) (order : list (nat * Chunk)) : list TTSResult :=
  if negb is_initialized then []
  else if parallel && Nat.ltb 1 (length text_chunks) && negb force_sequential then
    map (fun ic => process_chunk (fst ic) (snd ic)) order
  else
    map (fun ic => process_chunk (fst ic) (snd ic)) (enumerate text_chunks).

(** Parallel branch of [batch_process_images]: an exception from
    [future.result()] is logged and the image is skipped. *)
Definition collect_parallel (order : list (nat * ImageInfo)) : list ImageDescription :=
  flat_map (fun ii => match process_image (fst ii) (snd ii) with
                      | Ok d => [d]
                      | Raise _ => []
                      end) order.

(** Sequential branch: an exception propagates out of the batch. *)
Fixpoint collect_sequential (items : list (nat * ImageInfo)) : Exc (list ImageDescription) :=
  match items with
  | [] => Ok []
  | (i, img) :: rest =>
      d ← process_image i img;
      ds ← collect_sequential rest;
      mret (d :: ds)
  end.

Definition image_summary (n : nat) (ds : list ImageDescription) : ImageProcessingResult :=
  mkImageResult true ds n
    (length (List.filter (fun d => negb (Qle_bool (confidence d) 0)) ds))
    (length (List.filter cache_hit ds)).

(** [batch_process_images] *)
Definition batch_process_images (enabled parallel : bool) (image_list : list ImageInfo)
    (order : list (nat * ImageInfo)) : Exc ImageProcessingResult :=
  if negb enabled then Ok (mkImageResult true [] (length image_list) 0 0)
  else if parallel && Nat.ltb 1 (length image_list) then
    Ok (image_summary (length image_list) (collect_parallel order))
  else
    ds ← collect_sequential (enumerate image_list);
    mret (image_summary (length image_list) ds).

End Runners.

End Batch.

(* ================================================================== *)
(** ** PipelineOrchestrator.process_epub_complete                       *)
(* ================================================================== *)
Module Orchestrator.
Import Batch.

(** [ProcessingResult] of the EPUB processor (chapters, image entries and
    metadata reduced to what the orchestrator inspects). *)
Record ProcessingResult := mkProcessingResult {
  pr_success : bool;
  text_content : string;
  chapters : list string;
  image_info : list ImageInfo;
  error_message : option string;
  processing_time : Z
}.

(** [PipelineResult]; a field left at its default [None] is [None]. *)
Record PipelineResult := mkPipelineResult {
  epub_processing : ProcessingResult;
  tts_results : option (list TTSResult);
  image_descriptions : option (list ImageDescription);
  total_processing_time : Z;
  pipeline_stages : option (list (string * Z))
}.

(** Work started by the orchestrator after extraction. *)
Inductive Action :=
| SubmitImages                 (** [executor.submit(self._process_images_parallel, ...)] *)
| SubmitTTS                    (** [executor.submit(self._generate_tts_audio_parallel, ...)] *)
| Integrate                    (** [self._integrate_image_descriptions(...)] *)
| FinalOutputs.                (** [self._generate_final_outputs(...)] *)

(** The dict returned by a stage future: [success], payload, [processing_time]. *)
Record StageOutcome (A : Type) := mkStageOutcome {
  so_success : bool;
  so_payload : A;
  so_time : Z
}.
Arguments mkStageOutcome {A}.
Arguments so_success {A}.
Arguments so_payload {A}.
Arguments so_time {A}.

Definition pipeline_failure (msg : string) : ProcessingResult :=
  mkProcessingResult false "" [] [] (Some ("Pipeline processing failed: " +:+ msg)) 0.

(** The result of the [except Exception] branch. *)
Definition except_result (e : PyExc) (total : Z) (stage_times : list (string * Z))
  : PipelineResult :=
  mkPipelineResult (pipeline_failure (exc_msg e)) None None total (Some stage_times).

(** [process_epub_complete].  [clock k] is the [k]-th reading of
    [time.time()]; [extract] is the outcome of
    [self.epub_processor.process_epub]; [has_tts]/[has_images] say whether
    [self.tts_pipeline]/[self.image_pipeline] are set; [images_out] and
    [tts_out] are the outcomes of [future.result()]; [integrate] is
    [_integrate_image_descriptions]; [final_out] the outcome of
    [_generate_final_outputs].  Returns the result and the work started. *)
Definition process_epub_complete (clock : nat -> Z) (extract : Exc ProcessingResult)
    (enable_tts enable_images has_tts has_images : bool)
    (images_out : Exc (StageOutcome (list ImageDescription)))
    (tts_out : Exc (StageOutcome (list TTSResult)))
    (integrate : ProcessingResult -> list ImageDescription -> ProcessingResult)
    (final_out : Exc unit) : PipelineResult * list Action :=
  let start_time := clock 0%nat in
  let stage_start := clock 1%nat in
  match extract with
  | Raise e => (except_result e (clock 2%nat - start_time) [], [])
  | Ok epub_result =>
    if negb (pr_success epub_result) then
      (mkPipelineResult epub_result None None (clock 2%nat - start_time)
         (Some [("epub_processing", clock 3%nat - stage_start)]), [])
    else
      let stage_times := [("epub_processing", clock 2%nat - stage_start)] in
      let submit_images :=
        enable_images && has_images && negb (bool_decide (image_info epub_result = [])) in
      let submit_tts := enable_tts && has_tts in
      let started := (if submit_images then [SubmitImages] else [])
                     ++ (if submit_tts then [SubmitTTS] else []) in
      let '(image_descriptions, stage_times) :=
        if submit_images then
          match images_out with
          | Ok o => (if so_success o then so_payload o else [],
                     stage_times ++ [("image_processing", so_time o)])
          | Raise _ => ([], stage_times ++ [("image_processing", 0)])
          end
        else ([], stage_times) in
      let '(tts_results, stage_times) :=
        if submit_tts then
          match tts_out with
          | Ok o => (if so_success o then Some (so_payload o) else None,
                     stage_times ++ [("tts_generation", so_time o)])
          | Raise _ => (None, stage_times ++ [("tts_generation", 0)])
          end
        else (None, stage_times) in
      let '(epub_result, started) :=
        match image_descriptions with
        | [] => (epub_result, started)
        | _ => (integrate epub_result image_descriptions, started ++ [Integrate])
        end in
      let started := started ++ [FinalOutputs] in
      match final_out with
      | Raise e => (except_result e (clock 5%nat - start_time) stage_times, started)
      | Ok _ =>
          let stage_times := stage_times ++ [("final_output", clock 4%nat - clock 3%nat)] in
          (mkPipelineResult epub_result tts_results (Some image_descriptions)
             (clock 5%nat - start_time) (Some stage_times), started)
      end
  end.


End Orchestrator.

(* ================================================================== *)
(** ** progress_tracker.py: queries and subscriber management           *)
(* ================================================================== *)
Module TrackerQueries.
Import Tracker.

(** [list.remove(x)]: drops the first occurrence. *)
Fixpoint remove_first (x : nat) (l : list nat) : list nat :=
  match l with
  | [] => []
  | y :: l' => if decide (x = y) then l' else y :: remove_first x l'
  end.

(** [unsubscribe]: removed if present. *)
Definition unsubscribe (t : Tracker) (cb : nat) : Tracker :=
  if decide (cb ∈ subscribers t) then
    mkTracker (stats t) (recent_events t) (remove_first cb (subscribers t))
      (invocations t) (printed t) (heap t)
  else t.

(** Python's [l[start:]] with negative indices counted from the end. *)
Definition py_slice_from {A} (l : list A) (start : Z) : list A :=
  let n := Z.of_nat (length l) in
  let s := if Z.ltb start 0 then Z.max 0 (start + n) else Z.min start n in
  drop (Z.to_nat s) l.

(** [get_recent_events]: [list(reversed(events[-limit:]))]. *)
Definition get_recent_events (t : Tracker) (p : PipelineType) (limit : Z) : list ProgressEvent :=
  rev (py_slice_from (recent_events t p) (- limit)).

(** The last [n] elements of a list. *)
Definition lastn {A} (n : nat) (l : list A) : list A := drop (length l - n) l.

(** [elapsed_time], [items_per_second] and [eta_seconds] of a
    [PipelineStats], for the reading [now] of [time.time()] (taken once,
    in [elapsed_time]). *)
Definition elapsed_time (s : PipelineStats) (now : Z) : Q := inject_Z (now - start_time s).

Definition items_per_second (s : PipelineStats) (now : Z) : Q :=
  let elapsed := elapsed_time s now in
  if Qeq_bool elapsed 0 || Z.eqb (completed_items s) 0 then 0%Q
  else (inject_Z (completed_items s) / elapsed)%Q.

Definition eta_seconds (s : PipelineStats) (now : Z) : option Q :=
  if Z.eqb (total_items s) 0 || Z.eqb (completed_items s) 0 then None
  else
    let remaining_items := total_items s - completed_items s in
    if Z.leb remaining_items 0 then Some 0%Q
    else
      let rate := items_per_second s now in
      if Qle_bool rate 0 then None
      else Some (inject_Z remaining_items / rate)%Q.

(** The time-independent entries of [get_overall_stats] ([total_items],
    [completed_items], [progress_percentage], [errors], [warnings],
    [active_pipelines]); [elapsed_time] and [eta_seconds] read the clock
    and are left out. *)
Record OverallStats := mkOverall {
  o_total_items : Z;
  o_completed_items : Z;
  o_progress_percentage : Q;
  o_errors : Z;
  o_warnings : Z;
  o_active_pipelines : list string
}.

Definition counted_pipelines : list PipelineType := [TTS; IMAGE; EPUB].

Definition pipeline_value (p : PipelineType) : string :=
  match p with TTS => "tts" | IMAGE => "image" | EPUB => "epub" | OVERALL => "overall" end.

Definition sum_over (t : Tracker) (f : PipelineStats -> Z) : Z :=
  fold_left (fun acc p => acc + f (stats t p)) counted_pipelines 0.

(** [_get_active_pipelines] *)
Definition get_active_pipelines (t : Tracker) : list string :=
  map pipeline_value
    (List.filter (fun p => let s := stats t p in
                   Z.ltb 0 (total_items s) && Z.ltb (completed_items s) (total_items s) &&
                   negb (String.eqb (current_item s) ""))
       counted_pipelines).

Definition get_overall_stats (t : Tracker) : OverallStats :=
  let total := sum_over t total_items in
  let completed := sum_over t completed_items in
  mkOverall total completed
    (if Z.ltb 0 total then (inject_Z completed / inject_Z total * 100)%Q else 0%Q)
    (sum_over t errors) (sum_over t warnings) (get_active_pipelines t).

(** [True] for the [Error] (resp. [Warning]) events of the three counted
    pipelines. *)
Definition counted_error (ev : ProgressEvent) : bool :=
  bool_decide (pipeline ev <> OVERALL) && bool_decide (event_type ev = ERROR).
Definition counted_warning (ev : ProgressEvent) : bool :=
  bool_decide (pipeline ev <> OVERALL) && bool_decide (event_type ev = WARNING).

End TrackerQueries.

(* ================================================================== *)
(** ** tts_pipeline.py: text chunking of the direct Kokoro path          *)
(* ================================================================== *)
Module TTSText.
Local Open Scope nat_scope.

(** Text is taken over ASCII: a Python [str] as [list ascii]. *)

(** [str.isspace()] on one ASCII character; it is also what the regex
    class [\s] matches. *)
Definition is_space (c : ascii) : bool :=
  match nat_of_ascii c with
  | 9 | 10 | 11 | 12 | 13 | 28 | 29 | 30 | 31 | 32 => true
  | _ => false
  end.

(** [[.!?]] *)
Definition is_sentence_end (c : ascii) : bool :=
  Ascii.eqb c "."%char || Ascii.eqb c "!"%char || Ascii.eqb c "?"%char.

Definition space : ascii := " "%char.

Definition nonempty {A} (l : list A) : bool := match l with [] => false | _ => true end.

Definition cons_head (c : ascii) (l : list (list ascii)) : list (list ascii) :=
  match l with [] => [[c]] | w :: r => (c :: w) :: r end.

(** The pieces between single whitespace characters (empty pieces
    included). *)
Fixpoint segments (s : list ascii) : list (list ascii) :=
  match s with
  | [] => [[]]
  | c :: s' => if is_space c then [] :: segments s' else cons_head c (segments s')
  end.

(** [str.split()] with no argument: the runs of non-whitespace. *)
Definition py_split (s : list ascii) : list (list ascii) :=
  List.filter nonempty (segments s).

Fixpoint lstrip (s : list ascii) : list ascii :=
  match s with
  | c :: s' => if is_space c then lstrip s' else s
  | [] => []
  end.

Definition rstrip (s : list ascii) : list ascii := rev (lstrip (rev s)).

(** [str.strip()] *)
Definition py_strip (s : list ascii) : list ascii := rstrip (lstrip s).

(** [re.split(r'(?<=[.!?])\s+', text)]: split at every maximal run of
    whitespace that follows one of [.!?].  [after_end]: the previous
    character was one of [.!?]; [in_sep]: inside a separating run. *)
Fixpoint split_sentences_from (after_end in_sep : bool) (s : list ascii) : list (list ascii) :=
  match s with
  | [] => [[]]
  | c :: s' =>
      if in_sep && is_space c then split_sentences_from false true s'
      else if after_end && is_space c then [] :: split_sentences_from false true s'
      else cons_head c (split_sentences_from (is_sentence_end c) false s')
  end.

Definition split_sentences (text : list ascii) : list (list ascii) :=
  split_sentences_from false false text.

(** The inner [for word in words] loop: returns [chunks] and [temp_chunk]. *)
Fixpoint word_loop (max_length : nat) (words : list (list ascii)) (temp_chunk : list ascii)
    (chunks : list (list ascii)) : list (list ascii) * list ascii :=
  match words with
  | [] => (chunks, temp_chunk)
  | word :: words' =>
      if Nat.ltb max_length (length temp_chunk + length word + 1) then
        if nonempty temp_chunk then
          word_loop max_length words' word (chunks ++ [py_strip temp_chunk])
        else
          word_loop max_length words' temp_chunk (chunks ++ [take max_length word])
      else
        word_loop max_length words'
          (if nonempty temp_chunk then temp_chunk ++ space :: word else word) chunks
  end.

(** The outer [for sentence in sentences] loop: returns [chunks] and
    [current_chunk]. *)
Fixpoint sentence_loop (max_length : nat) (sentences : list (list ascii))
    (current_chunk : list ascii) (chunks : list (list ascii))
    : list (list ascii) * list ascii :=
  match sentences with
  | [] => (chunks, current_chunk)
  | sentence :: sentences' =>
      if Nat.ltb max_length (length current_chunk + length sentence + 1) then
        if nonempty current_chunk then
          sentence_loop max_length sentences' sentence (chunks ++ [py_strip current_chunk])
        else
          let '(chunks', temp_chunk) := word_loop max_length (py_split sentence) [] chunks in
          sentence_loop max_length sentences'
            (if nonempty temp_chunk then temp_chunk else current_chunk) chunks'
      else
        sentence_loop max_length sentences'
          (if nonempty current_chunk then current_chunk ++ space :: sentence else sentence)
          chunks
  end.

(** [MLXKokoroModel._split_text_for_synthesis] *)
Definition split_text_for_synthesis (text : list ascii) (max_length : nat) : list (list ascii) :=
  let '(chunks, current_chunk) := sentence_loop max_length (split_sentences text) [] [] in
  let chunks := if nonempty current_chunk then chunks ++ [py_strip current_chunk] else chunks in
  List.filter (fun chunk => nonempty (py_strip chunk)) chunks.

End TTSText.

(* ================================================================== *)
(** ** tts_pipeline.py: the direct Kokoro fallback                     *)
(* ================================================================== *)
Module DirectKokoro.
Import TTSText.
Local Open Scope nat_scope.

(** [[A-Z]] *)
Definition is_upper (c : ascii) : bool :=
  let n := nat_of_ascii c in (65 <=? n) && (n <=? 90).

(** [\w] on an ASCII character: [[0-9A-Za-z_]]. *)
Definition is_word_char (c : ascii) : bool :=
  let n := nat_of_ascii c in
  ((48 <=? n) && (n <=? 57)) || is_upper c || ((97 <=? n) && (n <=? 122)) || (n =? 95).

(** The punctuation kept by the character class of the second
    substitution: [. , ! ? ; : - '] and the double quote. *)
Definition kept_punct (c : ascii) : bool :=
  existsb (Ascii.eqb c) [ "."; ","; "!"; "?"; ";"; ":"; "-"; "'"; "034" ]%char.

(** [re.sub(r'\s+', ' ', s)]; [in_ws]: the previous character was
    whitespace. *)
Fixpoint collapse_ws (in_ws : bool) (s : list ascii) : list ascii :=
  match s with
  | [] => []
  | c :: s' =>
      if is_space c then (if in_ws then collapse_ws true s' else space :: collapse_ws true s')
      else c :: collapse_ws false s'
  end.

(** One character of the second substitution: anything that is not a
    word character, whitespace or kept punctuation becomes a space. *)
Definition replace_bad (c : ascii) : ascii :=
  if is_word_char c || is_space c || kept_punct c then c else space.

(** [re.sub(ch + '{k,}', repl, s)]: every maximal run of at least [k]
    copies of [ch] becomes [repl]; [n] copies of [ch] are pending. *)
Definition flush_run (ch : ascii) (k : nat) (repl : list ascii) (n : nat) : list ascii :=
  if k <=? n then repl else repeat ch n.

Fixpoint squeeze (ch : ascii) (k : nat) (repl : list ascii) (n : nat) (s : list ascii)
    : list ascii :=
  match s with
  | [] => flush_run ch k repl n
  | c :: s' =>
      if Ascii.eqb c ch then squeeze ch k repl (S n) s'
      else flush_run ch k repl n ++ c :: squeeze ch k repl 0 s'
  end.

(** [re.sub(r'([\.!?])\s*([A-Z])', r'\1 \2', s)]: [pend] is a sentence
    end not yet matched, with the whitespace read after it. *)
Fixpoint space_caps (pend : option (ascii * list ascii)) (s : list ascii) : list ascii :=
  match s with
  | [] => match pend with None => [] | Some (p, ws) => p :: ws end
  | c :: s' =>
      match pend with
      | None => if is_sentence_end c then space_caps (Some (c, [])) s' else c :: space_caps None s'
      | Some (p, ws) =>
          if is_space c then space_caps (Some (p, ws ++ [c])) s'
          else if is_upper c then p :: space :: c :: space_caps None s'
          else if is_sentence_end c then (p :: ws) ++ space_caps (Some (c, [])) s'
          else (p :: ws) ++ c :: space_caps None s'
      end
  end.

(** [MLXKokoroModel._clean_text_for_tts] *)
Definition clean_text_for_tts (text : list ascii) : list ascii :=
  let cleaned := collapse_ws false text in
  let cleaned := map replace_bad cleaned in
  let cleaned := squeeze "."%char 3 ["."; "."; "."]%char 0 cleaned in
  let cleaned := squeeze "!"%char 2 ["!"%char] 0 cleaned in
  let cleaned := squeeze "?"%char 2 ["?"%char] 0 cleaned in
  let cleaned := space_caps None cleaned in
  py_strip cleaned.

Definition max_chunk_length : nat := 500.
Definition max_tokens : nat := 2000.

Section Direct.

(** The Kokoro pipeline, called on the [i]-th chunk (the unchunked path
    is call 0): [load_voice(voice)], the token count of [g2p(text)], and
    the audio of [infer(model, ps, voice_pack)]; each may raise. *)
Variable load_voice : nat -> Exc unit.
Variable g2p : nat -> list ascii -> Exc nat.
Variable infer : nat -> list ascii -> Exc (list Z).
(** [signal.resample(audio, int(len(audio) / speed))] *)
Variable resample : list Z -> Q -> Exc (list Z).

(** The [try] body for one chunk; [None] when a handler counts it as
    failed ([IndexError] and [Exception] are handled alike). *)
Definition chunk_audio (idx : nat) (chunk : list ascii) : option (list Z) :=
  try_except
    (_ ← load_voice idx;
     n ← g2p idx chunk;
     if max_tokens <? n then mret None
     else a ← infer idx chunk; mret (Some a))
    (fun _ => None).

(** One iteration of [for chunk_idx, chunk in enumerate(chunks)]: the
    state is [(audio_segments, failed_chunks)]. *)
Definition chunk_step (st : list (list Z) * nat) (ic : nat * list ascii)
    : list (list Z) * nat :=
  let '(segs, failed) := st in
  let '(idx, chunk) := ic in
  if nonempty (py_strip chunk) then
    match chunk_audio idx (py_strip chunk) with
    | Some a => (segs ++ [a], failed)
    | None => (segs, S failed)
    end
  else (segs, failed).

Definition chunk_loop (chunks : list (list ascii)) : list (list Z) * nat :=
  fold_left chunk_step (Batch.enumerate chunks) ([], 0).

Definition no_segments_msg (total : nat) : string :=
  "No audio segments generated successfully (0/" +:+ pretty total +:+ " chunks)".

Definition adjust_speed (speed : Q) (a : list Z) : Exc (list Z) :=
  if Qeq_bool speed 1 then mret a else resample a speed.

(** [MLXKokoroModel._try_direct_kokoro], once [self.pipeline] exists. *)
Definition try_direct_kokoro (text : list ascii) (speed : Q) : Exc (list Z) :=
  let cleaned_text := clean_text_for_tts text in
  if max_chunk_length <? length cleaned_text then
    let chunks := split_text_for_synthesis cleaned_text max_chunk_length in
    let '(audio_segments, failed_chunks) := chunk_loop chunks in
    match audio_segments with
    | [] => Raise (Kokoro.runtime_error (no_segments_msg (length chunks)))
    | _ => adjust_speed speed (concat audio_segments)
    end
  else
    _ ← load_voice 0;
    n ← g2p 0 cleaned_text;
    if max_tokens <? n then
      Raise (Kokoro.runtime_error ("Text tokens too long (" +:+ pretty n +:+ ") for synthesis"))
    else
      a ← infer 0 cleaned_text;
      adjust_speed speed a.

End Direct.

End DirectKokoro.

(* ================================================================== *)
(** ** tts_pipeline.py: chapters to audio                              *)
(* ================================================================== *)
Module Chapters.
Import Batch TTSText.
Local Open Scope nat_scope.

(** [str.isalnum()] on an ASCII character. *)
Definition is_alnum (c : ascii) : bool :=
  DirectKokoro.is_word_char c && negb (Ascii.eqb c "_"%char).

(** [c.isalnum() or c in ' -_'] *)
Definition title_char_kept (c : ascii) : bool :=
  is_alnum c || existsb (Ascii.eqb c) [" "; "-"; "_"]%char.

(** [clean_title.replace(' ', '_')[:20]] after the filter. *)
Definition clean_title (chapter_title : list ascii) : list ascii :=
  take 20 (map (fun c => if Ascii.eqb c " "%char then "_"%char else c)
                (List.filter title_char_kept chapter_title)).

Definition digit (k : nat) : ascii := ascii_of_nat (48 + k).

(** The decimal digits of [n] ([str(n)] for [n : int], [n >= 0]). *)
Fixpoint dec_go (fuel n : nat) : list ascii :=
  match fuel with
  | 0 => []
  | S f => (if n <? 10 then [] else dec_go f (n / 10)) ++ [digit (n mod 10)]
  end.

Definition dec (n : nat) : list ascii := dec_go (S n) n.

(** [f"{n:03d}"] *)
Definition pad3 (n : nat) : list ascii :=
  if n <? 10 then ["0"; "0"]%char ++ dec n
  else if n <? 100 then "0"%char :: dec n
  else dec n.

(** [f"chapter_{chapter_num:03d}_{clean_title}"] *)
Definition chapter_chunk_id (chapter_num : nat) (chapter_title : list ascii) : list ascii :=
  String.list_ascii_of_string "chapter_" ++ pad3 chapter_num ++
  "_"%char :: clean_title chapter_title.

(** A chapter dictionary: its optional ['title'], its ['content'] and
    its optional ['chapter_num'] (an [int]). *)
Record Chapter := mkChapter {
  ch_title : option (list ascii);
  ch_content : string;
  ch_num : option nat
}.

(** [chapter.get('chapter_num', i + 1)] *)
Definition chapter_number (i : nat) (ch : Chapter) : nat :=
  default (S i) (ch_num ch).

(** [chapter.get('title', f'Chapter {chapter_num}')] *)
Definition chapter_title (i : nat) (ch : Chapter) : list ascii :=
  default (String.list_ascii_of_string "Chapter " ++ dec (chapter_number i ch)) (ch_title ch).

(** The chunk built for the [i]-th chapter (its ['title'] and
    ['chapter_num'] entries are not read by [batch_process]). *)
Definition chapter_chunk (i : nat) (ch : Chapter) : Chunk :=
  mkChunk (ch_content ch)
    (Some (String.string_of_list_ascii (chapter_chunk_id (chapter_number i ch) (chapter_title i ch)))).

Definition prepare_chunks (chapters : list Chapter) : list Chunk :=
  map (fun ic => chapter_chunk ic.1 ic.2) (enumerate chapters).

(** [processing_summary]; its ['total_audio_duration'] is left out. *)
Record ChapterSummary := mkChapterSummary {
  total_chapters : nat;
  successful_chapters : nat;
  failed_chapters : nat;
  chapter_files : list (option string);
  merged_file : option string
}.

Section Run.

Variable process_chunk : nat -> Chunk -> TTSResult.
(** [merge_audio_files] past its empty-list check: loading, crossfading
    and exporting, every [Exception] turned into [False]. *)
Variable merge_io : list (option string) -> string -> bool.
Variable output_format : string.

(** [merge_audio_files] *)
Definition merge_audio_files (audio_files : list (option string)) (output_path : string) : bool :=
  match audio_files with
  | [] => false
  | _ => merge_io audio_files output_path
  end.

(** [KokoroTTSPipeline.process_chapters]; [order] is the completion
    order of the parallel branch of [batch_process]. *)
Definition process_chapters (is_initialized force_sequential : bool) (chapters : list Chapter)
    (order : list (nat * Chunk)) (output_dir : string) (merge_final : bool) : ChapterSummary :=
  let text_chunks := prepare_chunks chapters in
  let results := batch_process process_chunk is_initialized true force_sequential text_chunks order in
  let successful_results := List.filter success results in
  let audio_files := map audio_path successful_results in
  let summary := mkChapterSummary (length chapters) (length successful_results)
                   (length results - length successful_results) audio_files None in
  if merge_final && nonempty audio_files then
    let merged := output_dir +:+ "/audiobook." +:+ output_format in
    if merge_audio_files audio_files merged then
      mkChapterSummary (length chapters) (length successful_results)
        (length results - length successful_results) audio_files (Some merged)
    else summary
  else summary.

End Run.

End Chapters.

(* ================================================================== *)
(** ** image_pipeline.py: mock model, text post-processing and cache    *)
(* ================================================================== *)
Module Images.
Import Batch TTSText.

Definition lit (s : string) : list ascii := String.list_ascii_of_string s.

Definition to_lower (c : ascii) : ascii :=
  let n := nat_of_ascii c in
  if (65 <=? n)%nat && (n <=? 90)%nat then ascii_of_nat (n + 32) else c.

Definition to_upper (c : ascii) : ascii :=
  let n := nat_of_ascii c in
  if (97 <=? n)%nat && (n <=? 122)%nat then ascii_of_nat (n - 32) else c.

Fixpoint is_prefix (p l : list ascii) : bool :=
  match p, l with
  | [], _ => true
  | a :: p', b :: l' => Ascii.eqb a b && is_prefix p' l'
  | _ :: _, [] => false
  end.

(** [p in l] *)
Fixpoint is_infix (p l : list ascii) : bool :=
  is_prefix p l || match l with [] => false | _ :: l' => is_infix p l' end.

(** [l[:i]] *)
Definition py_slice_to {A} (l : list A) (i : Z) : list A :=
  if 0 <=? i then take (Z.to_nat i) l
  else take (Z.to_nat (Z.of_nat (length l) + i)) l.

(** *** [MockVLMModel.generate_description] *)

Definition orientation (width height : Z) : list ascii :=
  if height <? width then lit "landscape"
  else if width <? height then lit "portrait"
  else lit "square".

(** [max(colors, key=lambda x: x[0])]: the first entry of largest count. *)
Definition dominant (c : Z * (Z * Z * Z)) (cs : list (Z * (Z * Z * Z))) : Z * (Z * Z * Z) :=
  fold_left (fun best x => if best.1 <? x.1 then x else best) cs c.

(** [colors]: the outcome of [image.convert('RGB')] (when needed) and
    [image.getcolors(...)]. *)
Definition color_desc (colors : Exc (option (list (Z * (Z * Z * Z))))) : list ascii :=
  match colors with
  | Raise _ => lit "toned"
  | Ok (Some (c :: cs)) =>
      let '(_, (r, g, b)) := dominant c cs in
      if (g <? r) && (b <? r) then lit "reddish"
      else if (r <? g) && (b <? g) then lit "greenish"
      else if (r <? b) && (g <? b) then lit "bluish"
      else lit "neutral-toned"
  | Ok _ => lit "colored"
  end.

Definition mentions_any (words : list string) (context_lower : list ascii) : bool :=
  existsb (fun w => is_infix (lit w) context_lower) words.

Definition context_hint (context : list ascii) : list ascii :=
  if nonempty context then
    let context_lower := map to_lower context in
    if mentions_any ["person"; "people"; "man"; "woman"] context_lower then lit " showing people"
    else if mentions_any ["building"; "house"; "city"] context_lower then
      lit " of a building or structure"
    else if mentions_any ["nature"; "tree"; "forest"; "mountain"] context_lower then
      lit " of a natural scene"
    else if mentions_any ["chart"; "graph"; "diagram"] context_lower then
      lit " containing a chart or diagram"
    else []
  else [].

(** [size_hash] is [hash(str(image.size))]; the confidence is computed
    exactly. *)
Definition mock_generate_description (width height : Z)
    (colors : Exc (option (list (Z * (Z * Z * Z))))) (context : list ascii)
    (max_length size_hash : Z) : list ascii * Q :=
  let base_description :=
    lit "A " ++ orientation width height ++ lit " " ++ color_desc colors ++ lit " image"
    ++ context_hint context in
  let base_description :=
    if max_length <? Z.of_nat (length base_description) then
      py_slice_to base_description (max_length - 3) ++ lit "..."
    else base_description in
  (base_description, ((75 + size_hash mod 25) # 100)%Q).

(** *** Description clean-up *)

Definition is_quote (c : ascii) : bool := Ascii.eqb c "034"%char || Ascii.eqb c "'"%char.

Fixpoint lstrip_by (p : ascii -> bool) (l : list ascii) : list ascii :=
  match l with
  | c :: l' => if p c then lstrip_by p l' else l
  | [] => []
  end.

(** [s.strip(chars)] *)
Definition strip_by (p : ascii -> bool) (l : list ascii) : list ascii :=
  rev (lstrip_by p (rev (lstrip_by p l))).

(** [s.endswith(('.', '!', '?'))] *)
Definition ends_with_punct (l : list ascii) : bool :=
  match last l with Some c => is_sentence_end c | None => false end.

(** [s[0].upper() + s[1:]] *)
Definition capitalize_first (l : list ascii) : list ascii :=
  match l with c :: r => to_upper c :: r | [] => [] end.

(** [s.replace(q, '')] *)
Definition remove_char (q : ascii) (l : list ascii) : list ascii :=
  List.filter (fun c => negb (Ascii.eqb c q)) l.

(** [s.split(sep)] *)
Fixpoint split_on (sep : ascii) (l : list ascii) : list (list ascii) :=
  match l with
  | [] => [[]]
  | c :: l' => if Ascii.eqb c sep then [] :: split_on sep l' else cons_head c (split_on sep l')
  end.

(** The loop [for sentence in sentences: if len(result + sentence + '.')
    <= max_length: result += sentence + '.' else: break]. *)
Fixpoint sentence_fill (max_length : Z) (sentences : list (list ascii)) (result : list ascii)
    : list ascii :=
  match sentences with
  | [] => result
  | sentence :: rest =>
      if Z.of_nat (length (result ++ sentence ++ ["."%char])) <=? max_length
      then sentence_fill max_length rest (result ++ sentence ++ ["."%char])
      else result
  end.

(** [s.rstrip('.')] *)
Definition rstrip_dots (l : list ascii) : list ascii :=
  rev (lstrip_by (fun c => Ascii.eqb c "."%char) (rev l)).

Definition add_final_period (l : list ascii) : list ascii :=
  if nonempty l && negb (ends_with_punct l) then l ++ ["."%char] else l.

(** [ImageDescriptionPipeline._post_process_description] *)
Definition post_process_description (max_description_length : Z) (description : list ascii)
    : list ascii :=
  let processed := py_strip description in
  let processed := add_final_period processed in
  let processed := capitalize_first processed in
  let processed := remove_char "034"%char processed in
  let processed := remove_char "'"%char processed in
  if max_description_length <? Z.of_nat (length processed) then
    rstrip_dots (sentence_fill max_description_length (split_on "."%char processed) [])
  else processed.

(** [GemmaVLMModel._clean_description] *)
Definition clean_description (description : list ascii) (max_length : Z) : list ascii :=
  let description := strip_by is_quote description in
  let description := add_final_period description in
  let description := capitalize_first description in
  let description := remove_char "034"%char description in
  let description := remove_char "'"%char description in
  if max_length <? Z.of_nat (length description) then
    add_final_period (rstrip_dots (sentence_fill max_length (split_on "."%char description) []))
  else description.

(** [GemmaVLMModel._calculate_confidence]; [truncated]: the response's
    [finish_reason] is ['length']. *)
Definition calculate_confidence (description : list ascii) (truncated : bool) : Q :=
  let base := (8 # 10)%Q in
  let base := if (length description <? 20)%nat then (base - (2 # 10))%Q else base in
  let lower := map to_lower description in
  let base := if is_infix (lit "error") lower || is_infix (lit "unavailable") lower
              then (1 # 10)%Q else base in
  let base := if truncated then (base - (1 # 10))%Q else base in
  Qmax 0 (Qmin 1 base).

(** *** [ImageCache] *)

(** A [cache_index] entry: [Path(image_path).name], [timestamp] (absent
    when the JSON entry has none) and [description_length]. *)
Record CacheEntry := mkCacheEntry {
  ce_image_path : string;
  ce_timestamp : option Z;
  ce_description_length : nat
}.

(** The content of [{cache_key}.pkl]: a pickled description, or a file
    on which [pickle.load] raises. *)
Inductive CacheFile := Pickled (d : ImageDescription) | Unreadable.

Record ImageCache := mkImageCache {
  cache_index : gmap string CacheEntry;
  cache_files : gmap string CacheFile
}.

Definition with_cache_hit (d : ImageDescription) : ImageDescription :=
  mkDescription (image_path d) (description d) (confidence d) true.

Section Cache.

(** [hashlib.md5(data).hexdigest()] and [Path(image_path).name]. *)
Variable md5_hexdigest : list Byte.byte -> string.
Variable file_name : string -> string.

(** The files as the code reads them: the bytes returned by
    [open(path, 'rb').read()], or [None] where reading raises. *)
Definition FileSystem := string -> option (list Byte.byte).

(** [_generate_cache_key(image_path, context)]: the md5 of the image
    file's current bytes (of the path's encoding when the file cannot be
    read), cut to 16 hex digits, then [_] and the md5 of the context, cut
    to 8. *)
Definition generate_cache_key (fs : FileSystem) (image_path context : string) : string :=
  let image_hash :=
    match fs image_path with
    | Some image_data => String.substring 0 16 (md5_hexdigest image_data)
    | None => String.substring 0 16 (md5_hexdigest (String.list_byte_of_string image_path))
    end in
  let context_hash := String.substring 0 8 (md5_hexdigest (String.list_byte_of_string context)) in
  image_hash +:+ "_" +:+ context_hash.

(** [ImageCache.get] *)
Definition cache_get (fs : FileSystem) (c : ImageCache) (image_path context : string)
    : option ImageDescription * ImageCache :=
  let cache_key := generate_cache_key fs image_path context in
  match cache_index c !! cache_key with
  | Some _ =>
      match cache_files c !! cache_key with
      | Some (Pickled d) => (Some (with_cache_hit d), c)
      | Some Unreadable =>
          (None, mkImageCache (delete cache_key (cache_index c)) (delete cache_key (cache_files c)))
      | None => (None, c)
      end
  | None => (None, c)
  end.

(** [ImageCache.set], with the pickle written ([_save_cache_index]
    handles its own errors and does not change the in-memory index). *)
Definition cache_set (fs : FileSystem) (c : ImageCache) (image_path context : string)
    (d : ImageDescription) (now : Z) : ImageCache :=
  let cache_key := generate_cache_key fs image_path context in
  mkImageCache
    (<[cache_key := mkCacheEntry (file_name image_path) (Some now)
                      (String.length (description d))]> (cache_index c))
    (<[cache_key := Pickled d]> (cache_files c)).

Definition is_old (now max_age_days : Z) (e : CacheEntry) : bool :=
  max_age_days * 24 * 3600 <? now - default 0 (ce_timestamp e).

(** [ImageCache.clear_old_entries] *)
Definition clear_old_entries (c : ImageCache) (now max_age_days : Z) : ImageCache :=
  let old_keys := map fst (List.filter (fun ke => is_old now max_age_days ke.2)
                                        (map_to_list (cache_index c))) in
  fold_left (fun c key => mkImageCache (delete key (cache_index c)) (delete key (cache_files c)))
    old_keys c.

(** *** [ImageDescriptionPipeline.process_image] *)

(** [fs]: the files during the call; [image_open]: [Image.open],
    [convert] and [resize] on the image file's current bytes; [generate]:
    the model's [generate_description] when it is loaded.  The progress
    events are not modelled. *)
Definition process_image (fs : FileSystem) (c : ImageCache) (image_path context : string)
    (force_regenerate : bool) (image_open : option (list Byte.byte) -> Exc unit)
    (model_loaded : bool) (generate : Exc (list ascii * Q))
    (max_description_length now : Z) : ImageDescription * ImageCache :=
  let '(cached, c) := if force_regenerate then (None, c) else cache_get fs c image_path context in
  match cached with
  | Some d => (d, c)
  | None =>
      match (_ ← image_open (fs image_path);
             if model_loaded then generate
             else mret (lit "Image description unavailable (model not loaded)", 0%Q)) with
      | Ok (text, conf) =>
          let d := mkDescription image_path
                     (String.string_of_list_ascii (post_process_description max_description_length text))
                     conf false in
          (d, cache_set fs c image_path context d now)
      | Raise e => (mkDescription image_path ("Error processing image: " +:+ exc_msg e) 0 false, c)
      end
  end.

End Cache.

End Images.

(* ================================================================== *)
(** ** orchestrator.py: image stage and description integration        *)
(* ================================================================== *)
Module Integration.
Import Batch TTSText Images Orchestrator.

(** [str.replace(pattern, replacement)] for a non-empty [pattern]:
    left to right, non-overlapping.  [fuel] bounds the scan. *)
Fixpoint replace_go (fuel : nat) (pattern replacement s : list ascii) : list ascii :=
  match fuel with
  | O => s
  | S f =>
      match s with
      | [] => []
      | c :: s' =>
          if is_prefix pattern s then replacement ++ replace_go f pattern replacement (drop (length pattern) s)
          else c :: replace_go f pattern replacement s'
      end
  end.

Definition py_replace (pattern replacement s : list ascii) : list ascii :=
  replace_go (S (length s)) pattern replacement s.

(** Assignment [d[k] = v] in a Python dict kept as its [items()] list. *)
Fixpoint dict_set {V} (k : list ascii) (v : V) (d : list (list ascii * V)) : list (list ascii * V) :=
  match d with
  | [] => [(k, v)]
  | (k', v') :: d' => if bool_decide (k = k') then (k, v) :: d' else (k', v') :: dict_set k v d'
  end.

(** A [text_cleaner.Chapter]. *)
Record EpubChapter := mkEpubChapter {
  chapter_num : Z;
  title : list ascii;
  content : list ascii;
  word_count : nat;
  estimated_duration : Q;
  ch_confidence : Q
}.

Section Integrate.

(** [metadata], [image_info], [cleaning_stats], [error_message] and
    [processing_time] of a [ProcessingResult], copied unchanged. *)
Variable Extras : Type.

Record EpubResult := mkEpubResult {
  er_success : bool;
  er_text_content : list ascii;
  er_chapters : list EpubChapter;
  er_extras : Extras
}.

(** [Path(p).name] *)
Variable file_name : string -> string.

(** [{Path(d.image_path).name: d.description for d in ds if d.confidence > 0.5}] *)
Definition desc_map (image_descriptions : list ImageDescription) : list (list ascii * list ascii) :=
  fold_left (fun m d =>
               if negb (Qle_bool (confidence d) (1 # 2))
               then dict_set (lit (file_name (image_path d))) (lit (description d)) m
               else m) image_descriptions [].

Definition text_patterns (image_name : list ascii) : list (list ascii) :=
  [lit "[IMAGE: Image of " ++ image_name ++ lit "]"; lit "[IMAGE: " ++ image_name ++ lit "]";
   lit "![" ++ image_name ++ lit "]"; lit "![Image of " ++ image_name ++ lit "]"].

Definition chapter_patterns (image_name : list ascii) : list (list ascii) :=
  [lit "[IMAGE: Image of " ++ image_name ++ lit "]"; lit "[IMAGE: " ++ image_name ++ lit "]"].

Definition replace_placeholders (patterns : list ascii -> list (list ascii))
    (dm : list (list ascii * list ascii)) (text : list ascii) : list ascii :=
  fold_left (fun t nd =>
               fold_left (fun t pattern =>
                            if is_infix pattern t
                            then py_replace pattern (lit "[IMAGE DESCRIPTION: " ++ nd.2 ++ lit "]") t
                            else t) (patterns nd.1) t) dm text.

Definition update_chapter (dm : list (list ascii * list ascii)) (ch : EpubChapter) : EpubChapter :=
  let updated_content := replace_placeholders chapter_patterns dm (content ch) in
  mkEpubChapter (chapter_num ch) (title ch) updated_content
    (length (py_split updated_content))
    (inject_Z (Z.of_nat (length (py_split updated_content))) / 200)
    (ch_confidence ch).

(** [PipelineOrchestrator._integrate_image_descriptions] *)
Definition integrate_image_descriptions (epub_result : EpubResult)
    (image_descriptions : list ImageDescription) : EpubResult :=
  let dm := desc_map image_descriptions in
  mkEpubResult (er_success epub_result)
    (replace_placeholders text_patterns dm (er_text_content epub_result))
    (map (update_chapter dm) (er_chapters epub_result))
    (er_extras epub_result).

End Integrate.

(** [PipelineOrchestrator._process_images_parallel]: [path_exists] is
    [Path(p).exists()] at validation time, [batch] is
    [image_pipeline.batch_process_images(valid, parallel=True)], and
    [clock 0], [clock 1] are the readings of [time.time()]. *)
Definition process_images_parallel (clock : nat -> Z) (path_exists : string -> bool)
    (batch : list ImageInfo -> Exc ImageProcessingResult) (image_info_list : list ImageInfo)
    : StageOutcome (list ImageDescription) :=
  let start_time := clock 0%nat in
  let valid_image_info :=
    List.filter (fun i => negb (String.eqb (file_path i) "") && path_exists (file_path i))
      image_info_list in
  match valid_image_info with
  | [] => mkStageOutcome false [] (clock 1%nat - start_time)
  | _ =>
      match batch valid_image_info with
      | Ok image_result =>
          if ip_success image_result
          then mkStageOutcome true (descriptions image_result) (clock 1%nat - start_time)
          else mkStageOutcome false [] (clock 1%nat - start_time)
      | Raise _ => mkStageOutcome false [] (clock 1%nat - start_time)
      end
  end.

End Integration.

(* ================================================================== *)
(** * [KokoroTTSPipeline._preprocess_text]                            *)
(* ================================================================== *)
Module Preprocess.
Import TTSText Images.
Local Open Scope nat_scope.

(** A regex anchored at the current position: on a match, the
    replacement text and the text after the match. *)
Definition matcher := list ascii -> option (list ascii * list ascii).

(** [re.sub] with a pattern whose matches are never empty (all the
    patterns below start with [\[]): scan left to right, replace each
    match and continue after it.  Every match consumes at least one
    character, so [length s] steps suffice. *)
Fixpoint sub_go (fuel : nat) (m : matcher) (s : list ascii) : list ascii :=
  match fuel, s with
  | _, [] => []
  | 0, _ => s
  | S f, c :: s' =>
      match m s with
      | Some (r, rest) => r ++ sub_go f m rest
      | None => c :: sub_go f m s'
      end
  end.

Definition re_sub (m : matcher) (s : list ascii) : list ascii := sub_go (length s) m s.

Fixpoint strip_prefix (p s : list ascii) : option (list ascii) :=
  match p, s with
  | [], _ => Some s
  | a :: p', b :: s' => if Ascii.eqb a b then strip_prefix p' s' else None
  | _ :: _, [] => None
  end.

(** The text up to the first closing bracket (what [[^\]]] can
    match) and the text after that bracket. *)
Fixpoint upto_close (s : list ascii) : option (list ascii * list ascii) :=
  match s with
  | [] => None
  | c :: s' =>
      if Ascii.eqb c "]"%char then Some ([], s')
      else option_map (fun br => (c :: br.1, br.2)) (upto_close s')
  end.

(** [[\d.]] *)
Definition is_digit_or_dot (c : ascii) : bool :=
  let n := nat_of_ascii c in ((48 <=? n) && (n <=? 57)) || Ascii.eqb c "."%char.

Fixpoint take_while (f : ascii -> bool) (s : list ascii) : list ascii :=
  match s with c :: s' => if f c then c :: take_while f s' else [] | [] => [] end.

Fixpoint drop_while (f : ascii -> bool) (s : list ascii) : list ascii :=
  match s with c :: s' => if f c then drop_while f s' else s | [] => [] end.

(** [[A-Z_]] *)
Definition is_marker_char (c : ascii) : bool :=
  let n := nat_of_ascii c in ((65 <=? n) && (n <=? 90)) || (n =? 95).

(** [\[PAUSE:\s*[\d.]+\]] replaced by a space. *)
Definition m_pause : matcher := fun s =>
  match strip_prefix (lit "[PAUSE:") s with
  | Some r =>
      match upto_close r with
      | Some (body, rest) =>
          let b := lstrip body in
          if nonempty b && forallb is_digit_or_dot b then Some ([space], rest) else None
      | None => None
      end
  | None => None
  end.

(** The group of [\s*([^\]]+)] on the non-empty text [body] before the
    closing bracket: [\s*] takes the leading whitespace, but gives back
    the last character when the body is all whitespace. *)
Definition group_of (body : list ascii) : list ascii :=
  if forallb is_space body then match rev body with c :: _ => [c] | [] => [] end
  else lstrip body.

(** [<prefix>\s*([^\]]+)\]] replaced by [repl] applied to the group. *)
Definition m_tag (prefix : string) (repl : list ascii -> list ascii) : matcher := fun s =>
  match strip_prefix (lit prefix) s with
  | Some r =>
      match upto_close r with
      | Some (body, rest) => if nonempty body then Some (repl (group_of body), rest) else None
      | None => None
      end
  | None => None
  end.

(** A fixed marker replaced by a fixed text. *)
Definition m_fixed (marker : string) (repl : list ascii) : matcher := fun s =>
  option_map (fun rest => (repl, rest)) (strip_prefix (lit marker) s).

(** [\[[A-Z_]+(?::\s*[^\]]+)?\]] replaced by a space. *)
Definition m_generic : matcher := fun s =>
  match s with
  | c :: s' =>
      if Ascii.eqb c "["%char then
        let u := take_while is_marker_char s' in
        if nonempty u then
          match drop_while is_marker_char s' with
          | c' :: rest =>
              if Ascii.eqb c' "]"%char then Some ([space], rest)
              else if Ascii.eqb c' ":"%char then
                match upto_close rest with
                | Some (body, rest') => if nonempty body then Some ([space], rest') else None
                | None => None
                end
              else None
          | [] => None
          end
        else None
      else None
  | [] => None
  end.

Definition spoken (label : string) (g : list ascii) : list ascii := lit label ++ g ++ lit ". ".

Definition preprocess_text (text : list ascii) : list ascii :=
  let processed := re_sub m_pause text in
  let processed := re_sub (m_tag "[EMPHASIS_STRONG:" (fun g => g)) processed in
  let processed := re_sub (m_tag "[EMPHASIS_MILD:" (fun g => g)) processed in
  let processed := re_sub (m_fixed "[DIALOGUE_START]" []) processed in
  let processed := re_sub (m_fixed "[DIALOGUE_END]" []) processed in
  let processed := re_sub (m_tag "[CHAPTER_START:" (spoken "Chapter: ")) processed in
  let processed := re_sub (m_tag "[IMAGE:" (spoken "Image description: ")) processed in
  let processed := re_sub (m_tag "[IMAGE DESCRIPTION:" (spoken "Image description: ")) processed in
  let processed := re_sub (m_fixed "[HEADER_END]" (lit ". ")) processed in
  let processed := re_sub m_generic processed in
  py_strip (DirectKokoro.collapse_ws false processed).

End Preprocess.

(* ================================================================== *)
(** * Properties                                                      *)
(* ================================================================== *)
Module TrackerFacts.
Import Tracker.

Lemma notify_each_ok cb subs t ev :
  exists t', notify_each cb subs t ev = Ok t' /\ stats t' = stats t /\ heap t' = heap t.
Proof.
  revert t. induction subs as [|c rest IH]; intros t; simpl.
  - eauto.
  - destruct (cb c (invocations t) ev); simpl;
      match goal with |- context [notify_each _ rest ?u _] =>
        destruct (IH u) as (t' & -> & Hs & Hh) end;
      exists t'; rewrite Hs, Hh; simpl; auto.
Qed.

Lemma handle_event_ok cb t ev :
  exists t', handle_event cb t ev = Ok t' /\
    stats t' = stats (update_stats t ev) /\ heap t' = heap (update_stats t ev).
Proof.
  unfold handle_event, notify_subscribers.
  destruct (notify_each_ok cb (subscribers (store_recent_event (update_stats t ev) ev))
              (store_recent_event (update_stats t ev) ev) ev) as (t' & -> & Hs & Hh).
  exists t'. rewrite Hs, Hh. unfold store_recent_event. simpl. auto.
Qed.

Lemma update_stats_stats t ev q :
  stats (update_stats t ev) q =
  if decide (pipeline ev = q) then update_fields (stats t (pipeline ev)) ev else stats t q.
Proof.
  unfold update_stats. destruct (d_custom_stats (data ev)); reflexivity.
Qed.

Lemma update_fields_completed s ev :
  completed_items (update_fields s ev) =
  match event_type ev with
  | PROGRESS => default (completed_items s) (d_completed_items (data ev))
  | COMPLETE => completed_items s + 1
  | _ => completed_items s
  end.
Proof.
  destruct ev as [p [] [tot cur comp cst act] ts]; simpl;
    destruct tot, cur, comp; reflexivity.
Qed.

Lemma update_fields_total s ev :
  total_items (update_fields s ev) =
  match event_type ev with
  | START | PROGRESS => default (total_items s) (d_total_items (data ev))
  | _ => total_items s
  end.
Proof.
  destruct ev as [p [] [tot cur comp cst act] ts]; simpl;
    destruct tot, cur, comp; reflexivity.
Qed.

Lemma process_events_step cb t ev q :
  is_shutdown ev = false ->
  exists t', process_events cb t (ev :: q) = process_events cb t' q /\
    stats t' = stats (update_stats t ev) /\ heap t' = heap (update_stats t ev).
Proof.
  intros Hs. simpl. rewrite Hs.
  destruct (handle_event_ok cb t ev) as (t' & -> & H1 & H2). simpl. eauto.
Qed.

(** Draining events that neither revise the total nor overwrite the count
    of [p] adds one to [completed_items] per [Complete] event of [p]. *)
Lemma process_counts cb p t q :
  Forall (keeps_counts p) q ->
  completed_items (stats (process_events cb t q) p) =
    completed_items (stats t p) + Z.of_nat (length (List.filter (complete_for p) (delivered q))) /\
  total_items (stats (process_events cb t q) p) = total_items (stats t p).
Proof.
  revert t. induction q as [|ev q IH]; intros t Hq.
  - simpl. lia.
  - inversion Hq as [|? ? Hev Hrest]; subst.
    destruct (is_shutdown ev) eqn:Hsd.
    + simpl. rewrite Hsd. simpl. lia.
    + destruct (process_events_step cb t ev q Hsd) as (t' & -> & Hst & _).
      destruct (IH t' Hrest) as [IHc IHt].
      rewrite IHc, IHt, Hst, !update_stats_stats. simpl. rewrite Hsd. simpl.
      assert (Hc : complete_for p ev = true <-> pipeline ev = p /\ event_type ev = COMPLETE).
      { unfold complete_for. rewrite andb_true_iff, !bool_decide_eq_true. tauto. }
      destruct (complete_for p ev) eqn:Hcf; simpl.
      * destruct (proj1 Hc eq_refl) as [Hp Et]. subst p.
        rewrite decide_True by reflexivity.
        rewrite update_fields_completed, update_fields_total, Et. lia.
      * destruct (decide (pipeline ev = p)) as [Hp|Hp].
        -- subst p. destruct (Hev eq_refl) as [Hnp Hns].
           rewrite update_fields_completed, update_fields_total.
           destruct (event_type ev) eqn:Et; try congruence; try lia.
           ++ rewrite Hns by reflexivity. simpl. lia.
           ++ exfalso. assert (false = true) by (apply Hc; auto). discriminate.
        -- lia.
Qed.

Lemma keeps_countsb_spec p ev : keeps_countsb p ev = true -> keeps_counts p ev.
Proof.
  unfold keeps_countsb, keeps_counts. intros H Hp.
  rewrite orb_true_iff, andb_true_iff, orb_true_iff, !negb_true_iff in H.
  destruct H as [H | [H1 H2]].
  - apply bool_decide_eq_false in H. contradiction.
  - apply bool_decide_eq_false in H1. split; [exact H1|].
    intros Hs. destruct H2 as [H2|H2].
    + apply bool_decide_eq_false in H2. contradiction.
    + apply bool_decide_eq_true in H2. exact H2.
Qed.

Lemma start_not_shutdown p total cur ts : is_shutdown (start_event p total cur ts) = false.
Proof.
  destruct p; reflexivity.
Qed.

(** ** C1 *)

(** C1 (counterexample): a pipeline that received [Start] with total 1
    and then two [Complete] events ends with [completed_items = 2 > 1]. *)
Lemma C1_counterexample :
  let t := process_events quiet_callback (init_tracker 0)
             [start_event TTS 1 "a" 0; complete_event TTS "a" 1; complete_event TTS "b" 2] in
  ~ (completed_items (stats t TTS) <= total_items (stats t TTS)).
Proof. vm_compute. intros H. apply H. reflexivity. Qed.

(** C1 (amended): on a fresh tracker, after [Start(total)] for [p] followed
    by events that neither overwrite the count ([Progress]) nor revise the
    total ([Start] with a total) of [p], the drained [completed_items] of
    [p] is the number of [Complete] events of [p] handled; so
    [completed_items <= total_items] holds exactly when at most [total]
    [Complete] events were emitted: the bus enforces no bound. *)
Theorem C1_completed_counts_completes cb now p total cur ts evs :
  forallb (keeps_countsb p) evs = true ->
  let t := process_events cb (init_tracker now) (start_event p total cur ts :: evs) in
  completed_items (stats t p) = Z.of_nat (length (List.filter (complete_for p) (delivered evs))) /\
  total_items (stats t p) = total /\
  (completed_items (stats t p) <= total_items (stats t p) <->
   Z.of_nat (length (List.filter (complete_for p) (delivered evs))) <= total).
Proof.
  intros Hk. cbv zeta.
  destruct (process_events_step cb (init_tracker now) (start_event p total cur ts) evs
              (start_not_shutdown p total cur ts)) as (t' & -> & Hst & _).
  assert (Hf : Forall (keeps_counts p) evs).
  { apply Forall_forall. intros e He. apply keeps_countsb_spec.
    rewrite forallb_forall in Hk. apply Hk, list_elem_of_In, He. }
  destruct (process_counts cb p t' evs Hf) as [Hc Ht].
  rewrite Hc, Ht, Hst, update_stats_stats. simpl.
  rewrite decide_True by reflexivity. simpl. lia.
Qed.

Lemma C1_completed_counts_completes_witness :
  forallb (keeps_countsb TTS) [complete_event TTS "a" 1; complete_event TTS "b" 2] = true /\
  completed_items (stats (process_events quiet_callback (init_tracker 0)
     [start_event TTS 2 "" 0; complete_event TTS "a" 1; complete_event TTS "b" 2]) TTS) = 2.
Proof.
  split; [reflexivity|].
  destruct (C1_completed_counts_completes quiet_callback 0 TTS 2 "" 0
              [complete_event TTS "a" 1; complete_event TTS "b" 2] eq_refl) as [H _].
  rewrite H. reflexivity.
Defined.

(** ** C8 *)

Lemma delivered_completes p ts (names : list string) :
  delivered (map (fun c => complete_event p c ts) names) = map (fun c => complete_event p c ts) names.
Proof.
  induction names as [|c names IH]; [reflexivity|].
  simpl. replace (is_shutdown (complete_event p c ts)) with false by (destruct p; reflexivity).
  now rewrite IH.
Qed.

Lemma filter_completes p ts (names : list string) :
  List.filter (complete_for p) (map (fun c => complete_event p c ts) names) =
  map (fun c => complete_event p c ts) names.
Proof.
  induction names as [|c names IH]; [reflexivity|].
  simpl. replace (complete_for p (complete_event p c ts)) with true.
  - now rewrite IH.
  - unfold complete_for. simpl. rewrite !bool_decide_eq_true_2; reflexivity.
Qed.

Lemma completes_keep_counts p ts (names : list string) :
  Forall (keeps_counts p) (map (fun c => complete_event p c ts) names).
Proof.
  apply Forall_forall. intros e He. apply list_elem_of_In, in_map_iff in He.
  destruct He as (c & <- & _). intros _. simpl. split; discriminate.
Qed.

(** C8: handling a [Complete] event of pipeline [p] adds exactly one to
    [completed_items], whatever the stats held before (in particular
    whatever earlier [Progress] events set), and clears [current_item]
    when the event carries a [current_item]; hence on a fresh tracker,
    [Start(total=10)] followed by ten [Complete] events yields
    [completed_items = 10] and [progress_percentage = 100]. *)
Theorem C8_complete_increments_by_one :
  (forall t p d ts,
     let t' := update_stats t (mkEvent p COMPLETE d ts) in
     completed_items (stats t' p) = completed_items (stats t p) + 1 /\
     current_item (stats t' p) =
       match d_current_item d with Some _ => "" | None => current_item (stats t p) end) /\
  (forall cb now p cur ts (names : list string),
     length names = 10%nat ->
     let t := process_events cb (init_tracker now)
                (start_event p 10 cur ts :: map (fun c => complete_event p c ts) names) in
     completed_items (stats t p) = 10 /\ (progress_percentage (stats t p) == 100)%Q).
Proof.
  split.
  - intros t p d ts. cbv zeta. rewrite !update_stats_stats. simpl.
    rewrite decide_True by reflexivity. simpl.
    destruct (d_current_item d); simpl; split; reflexivity.
  - intros cb now p cur ts names Hlen. cbv zeta.
    destruct (process_events_step cb (init_tracker now) (start_event p 10 cur ts)
                (map (fun c => complete_event p c ts) names)
                (start_not_shutdown p 10 cur ts)) as (t' & -> & Hst & _).
    destruct (process_counts cb p t' _ (completes_keep_counts p ts names)) as [Hc Ht].
    rewrite delivered_completes, filter_completes, length_map, Hlen in Hc.
    rewrite Hst, update_stats_stats in Hc, Ht. simpl in Hc, Ht.
    rewrite decide_True in Hc, Ht by reflexivity. simpl in Hc, Ht.
    assert (Hc' : completed_items (stats (process_events cb t' (map (fun c => complete_event p c ts) names)) p) = 10)
      by (rewrite Hc; reflexivity).
    split; [exact Hc'|].
    unfold progress_percentage. rewrite Hc', Ht. vm_compute. reflexivity.
Qed.

Lemma C8_complete_increments_by_one_witness :
  completed_items (stats (process_events quiet_callback (init_tracker 0)
     (start_event TTS 10 "" 1 :: map (fun c => complete_event TTS c 1)
        ["1";"2";"3";"4";"5";"6";"7";"8";"9";"10"])) TTS) = 10.
Proof.
  exact (proj1 (proj2 C8_complete_increments_by_one quiet_callback 0 TTS "" 1
                  ["1";"2";"3";"4";"5";"6";"7";"8";"9";"10"] eq_refl)).
Defined.

(** ** C10 *)

(** C10: [progress_percentage] is defined on every stats value: it is [0]
    when [total_items = 0] (no division by zero) and never above [100],
    even when [completed_items > total_items]. *)
Theorem C10_progress_percentage_bounded (s : PipelineStats) :
  (total_items s = 0 -> (progress_percentage s == 0)%Q) /\
  (progress_percentage s <= 100)%Q.
Proof.
  unfold progress_percentage. destruct (Z.eqb_spec (total_items s) 0) as [H0|H0].
  - split; [reflexivity|]. discriminate.
  - split; [intros H; contradiction|]. apply Q.le_min_l.
Qed.

Lemma C10_progress_percentage_bounded_witness :
  (progress_percentage (mkStats 0 5 "" 0 0 0 0 0%nat) == 0)%Q /\
  (progress_percentage (mkStats 3 5 "" 0 0 0 0 0%nat) <= 100)%Q.
Proof.
  split.
  - apply (C10_progress_percentage_bounded (mkStats 0 5 "" 0 0 0 0 0%nat)). reflexivity.
  - apply (C10_progress_percentage_bounded (mkStats 3 5 "" 0 0 0 0 0%nat)).
Defined.

(** ** C7 *)

Definition calls_of (subs : list nat) (ev : ProgressEvent) : list (nat * ProgressEvent) :=
  map (fun c => (c, ev)) subs.

Definition received_by (j : nat) (l : list (nat * ProgressEvent)) : list ProgressEvent :=
  map snd (List.filter (fun x => Nat.eqb (fst x) j) l).

Lemma notify_each_calls cb subs t ev :
  exists t', notify_each cb subs t ev = Ok t' /\
    invocations t' = invocations t ++ calls_of subs ev /\ subscribers t' = subscribers t.
Proof.
  revert t. induction subs as [|c rest IH]; intros t; simpl.
  - exists t. rewrite app_nil_r. auto.
  - destruct (cb c (invocations t) ev); simpl;
      match goal with |- context [notify_each _ rest ?u _] =>
        destruct (IH u) as (t' & -> & Hi & Hs) end;
      exists t'; rewrite Hi, Hs; simpl; rewrite <- app_assoc; auto.
Qed.

Lemma handle_event_calls cb t ev :
  exists t', handle_event cb t ev = Ok t' /\
    invocations t' = invocations t ++ calls_of (subscribers t) ev /\
    subscribers t' = subscribers t.
Proof.
  unfold handle_event, notify_subscribers.
  destruct (notify_each_calls cb (subscribers (store_recent_event (update_stats t ev) ev))
              (store_recent_event (update_stats t ev) ev) ev) as (t' & -> & Hi & Hs).
  exists t'. rewrite Hi, Hs. unfold store_recent_event, update_stats.
  destruct (d_custom_stats (data ev)); simpl; auto.
Qed.

Lemma process_events_calls cb t q :
  invocations (process_events cb t q) =
  invocations t ++ concat (map (calls_of (subscribers t)) (delivered q)).
Proof.
  revert t. induction q as [|ev q IH]; intros t; simpl.
  - rewrite app_nil_r. reflexivity.
  - destruct (is_shutdown ev); simpl.
    + rewrite app_nil_r. reflexivity.
    + destruct (handle_event_calls cb t ev) as (t' & -> & Hi & Hs). simpl.
      rewrite IH, Hi, Hs, app_assoc. reflexivity.
Qed.

Lemma received_by_app j l1 l2 : received_by j (l1 ++ l2) = received_by j l1 ++ received_by j l2.
Proof. unfold received_by. rewrite List.filter_app, map_app. reflexivity. Qed.

Lemma received_by_calls_absent j subs ev : j ∉ subs -> received_by j (calls_of subs ev) = [].
Proof.
  induction subs as [|c rest IH]; intros Hj; [reflexivity|].
  unfold received_by in *. simpl. destruct (Nat.eqb_spec c j) as [->|Hne].
  - exfalso. apply Hj. constructor.
  - apply IH. intros Hin. apply Hj. right. exact Hin.
Qed.

Lemma received_by_calls j subs ev :
  NoDup subs -> j ∈ subs -> received_by j (calls_of subs ev) = [ev].
Proof.
  induction subs as [|c rest IH]; intros Hnd Hj.
  - inversion Hj.
  - inversion Hnd as [|? ? Hc Hrest]; subst.
    unfold received_by in *. simpl. destruct (Nat.eqb_spec c j) as [->|Hne].
    + simpl. f_equal. apply (received_by_calls_absent j rest ev Hc).
    + apply IH; [exact Hrest|]. inversion Hj; subst; [contradiction|assumption].
Qed.

(** C7: for every subscriber behaviour (callbacks that return or raise,
    arbitrarily), handling an event never raises to the consumer loop, and
    every registered subscriber [j] is called with every delivered event,
    once, in queue order: what [j] received after draining [q] is what it
    had received before followed by the delivered events of [q]. *)
Theorem C7_subscriber_exceptions_contained cb t q j :
  NoDup (subscribers t) -> j ∈ subscribers t ->
  (forall t0 ev, exists t1, handle_event cb t0 ev = Ok t1) /\
  received_by j (invocations (process_events cb t q)) =
    received_by j (invocations t) ++ delivered q.
Proof.
  intros Hnd Hj. split.
  - intros t0 ev. destruct (handle_event_calls cb t0 ev) as (t1 & -> & _). eauto.
  - rewrite process_events_calls, received_by_app. f_equal.
    induction (delivered q) as [|ev l IH]; [reflexivity|].
    simpl. rewrite received_by_app, IH, received_by_calls by assumption. reflexivity.
Qed.

(** A subscriber (1) that raises on every event next to one (2) that
    does not. *)
Definition raising_callback : nat -> list (nat * ProgressEvent) -> ProgressEvent -> Exc unit :=
  fun cb _ _ => if Nat.eqb cb 1 then Raise (mkExc "ValueError" "boom") else Ok tt.

Lemma C7_subscriber_exceptions_contained_witness :
  let t := subscribe (subscribe (init_tracker 0) 1) 2 in
  received_by 2 (invocations (process_events raising_callback t
     [start_event TTS 2 "" 0; complete_event TTS "a" 1])) =
  [start_event TTS 2 "" 0; complete_event TTS "a" 1].
Proof.
  cbv zeta.
  rewrite (proj2 (C7_subscriber_exceptions_contained raising_callback
                    (subscribe (subscribe (init_tracker 0) 1) 2)
                    [start_event TTS 2 "" 0; complete_event TTS "a" 1] 2
                    ltac:(vm_compute; repeat constructor; set_solver)
                    ltac:(vm_compute; set_solver))).
  reflexivity.
Defined.

(** ** C9 *)

Lemma mutate_all_frame ms :
  forall o t, tracker_wf t -> (forall q, custom_stats o <> custom_stats (stats t q)) ->
  let ot' := mutate_all (o, t) ms in
  stats (snd ot') = stats t /\
  (forall q, heap (snd ot') !! custom_stats (stats t q) = heap t !! custom_stats (stats t q)) /\
  tracker_wf (snd ot').
Proof.
  induction ms as [|m ms IH]; intros o t Hwf Hne; [simpl; auto|].
  cbv zeta. change (mutate_all (o, t) (m :: ms)) with (mutate_all (mutate (o, t) m) ms).
  assert (Hstep : let ot1 := mutate (o, t) m in
     stats (snd ot1) = stats t /\
     (forall q, heap (snd ot1) !! custom_stats (stats t q) = heap t !! custom_stats (stats t q)) /\
     tracker_wf (snd ot1) /\
     (forall q, custom_stats (fst ot1) <> custom_stats (stats (snd ot1) q))).
  { assert (Halter : forall f, 
      (forall q, alter f (custom_stats o) (heap t) !! custom_stats (stats t q) =
                 heap t !! custom_stats (stats t q)) /\
      tracker_wf (with_heap t (alter f (custom_stats o) (heap t)))).
    { intros f. split.
      - intros q. apply lookup_alter_ne. apply Hne.
      - intros q. unfold with_heap. simpl. rewrite dom_alter_L. apply Hwf. }
    destruct m; simpl; try (split; [reflexivity|]; split; [auto|]; split; [exact Hwf| exact Hne]);
      try (match goal with |- context [alter ?f _ _] => destruct (Halter f) as [H1 H2] end;
           split; [reflexivity|]; split; [exact H1|]; split; [exact H2|exact Hne]).
    set (l := fresh (dom (heap t))).
    assert (Hl : l ∉ dom (heap t)) by apply is_fresh.
    assert (Hlq : forall q, l <> custom_stats (stats t q)).
    { intros q Heq. apply Hl. rewrite Heq. apply Hwf. }
    split; [reflexivity|]. split; [|split].
    - intros q. apply lookup_insert_ne. apply Hlq.
    - intros q. unfold with_heap. simpl. rewrite dom_insert_L. set_solver.
    - intros q. simpl. apply Hlq. }
  destruct (mutate (o, t) m) as [o1 t1] eqn:E. simpl in Hstep.
  destruct Hstep as (Hs1 & Hh1 & Hw1 & Hn1).
  destruct (IH o1 t1 Hw1 Hn1) as (Hs2 & Hh2 & Hw2).
  split; [rewrite Hs2; exact Hs1|]. split; [|exact Hw2].
  intros q. rewrite <- Hh1, <- Hs1. apply Hh2.
Qed.

Lemma update_fields_custom s ev : custom_stats (update_fields s ev) = custom_stats s.
Proof.
  destruct ev as [p [] [tot cur comp cst act] ts]; simpl;
    destruct tot, cur, comp; reflexivity.
Qed.

Lemma update_stats_observe t1 t2 ev q :
  stats t1 = stats t2 ->
  (forall q, heap t1 !! custom_stats (stats t1 q) = heap t2 !! custom_stats (stats t2 q)) ->
  observe (update_stats t1 ev) q = observe (update_stats t2 ev) q.
Proof.
  intros Hs Hh. unfold observe.
  rewrite !update_stats_stats, Hs. f_equal.
  unfold update_stats. rewrite Hs.
  set (l0 := custom_stats (stats t2 (pipeline ev))).
  set (lq := custom_stats (if decide (pipeline ev = q) then update_fields (stats t2 (pipeline ev)) ev
                           else stats t2 q)).
  assert (Hlq : heap t1 !! lq = heap t2 !! lq).
  { unfold lq. destruct (decide (pipeline ev = q)) as [<-|];
      [rewrite update_fields_custom|];
      match goal with |- context [stats t2 ?x] => specialize (Hh x) end;
      rewrite Hs in Hh; exact Hh. }
  assert (Hl0 : heap t1 !! l0 = heap t2 !! l0).
  { unfold l0. specialize (Hh (pipeline ev)). rewrite Hs in Hh. exact Hh. }
  destruct (d_custom_stats (data ev)); simpl; [|exact Hlq].
  rewrite !lookup_alter. destruct (decide (l0 = lq)) as [<-|]; [rewrite Hl0|]; auto.
Qed.

Lemma get_stats_copy t p :
  let (o, t1) := get_stats t p in
  set_custom o 0%nat = set_custom (stats t p) 0%nat /\
  heap t1 !! custom_stats o = Some (default ∅ (heap t !! custom_stats (stats t p))).
Proof.
  simpl. split; [reflexivity|]. apply lookup_insert_eq.
Qed.

(** C9: [get_stats] returns a copy: its fields and dict contents are those
    of the tracker, its dict is a new object, and no sequence of
    mutations of the returned object changes the tracker's stats or
    dicts; so every later [get_stats] observes, and every later
    [_update_stats] produces, exactly what it would without them. *)
Theorem C9_get_stats_independent_copy t p ms :
  tracker_wf t ->
  let (o, t1) := get_stats t p in
  let (o2, t2) := mutate_all (o, t1) ms in
  observe t1 p = observe t p /\
  heap t1 !! custom_stats o = Some (default ∅ (heap t !! custom_stats (stats t p))) /\
  stats t2 = stats t /\
  (forall q, observe t2 q = observe t q) /\
  (forall q, set_custom (fst (get_stats t2 q)) 0%nat = set_custom (fst (get_stats t q)) 0%nat /\
     heap (snd (get_stats t2 q)) !! custom_stats (fst (get_stats t2 q)) =
     heap (snd (get_stats t q)) !! custom_stats (fst (get_stats t q))) /\
  (forall ev q, observe (update_stats t2 ev) q = observe (update_stats t ev) q).
Proof.
  intros Hwf.
  set (l := fresh (dom (heap t))).
  assert (Hl : l ∉ dom (heap t)) by apply is_fresh.
  assert (Hlq : forall q, l <> custom_stats (stats t q)).
  { intros q Heq. apply Hl. rewrite Heq. apply Hwf. }
  set (t1 := with_heap t (<[l := default ∅ (heap t !! custom_stats (stats t p))]> (heap t))).
  assert (Hw1 : tracker_wf t1).
  { intros q. unfold t1, with_heap. simpl. rewrite dom_insert_L. specialize (Hwf q). set_solver. }
  assert (Hh1 : forall q, heap t1 !! custom_stats (stats t q) = heap t !! custom_stats (stats t q)).
  { intros q. unfold t1. simpl. apply lookup_insert_ne. apply Hlq. }
  change (get_stats t p) with (set_custom (stats t p) l, t1).
  destruct (mutate_all (set_custom (stats t p) l, t1) ms) as [o2 t2] eqn:E.
  destruct (mutate_all_frame ms (set_custom (stats t p) l) t1 Hw1 ltac:(exact Hlq))
    as (Hs2 & Hh2 & Hw2).
  rewrite E in Hs2, Hh2, Hw2. simpl in Hs2, Hh2, Hw2.
  assert (Hobs : forall q, observe t2 q = observe t q).
  { intros q. unfold observe. rewrite Hs2. f_equal. rewrite (Hh2 q). apply Hh1. }
  rewrite E. cbv beta iota.
  split; [unfold observe; simpl; f_equal; apply Hh1|].
  split; [apply lookup_insert_eq|].
  split; [exact Hs2|].
  split; [exact Hobs|].
  split.
  - intros q. unfold get_stats. simpl. rewrite Hs2. split; [reflexivity|].
    rewrite !lookup_insert_eq. f_equal. f_equal. rewrite (Hh2 q). apply Hh1.
  - intros ev q. apply update_stats_observe; [exact Hs2|].
    intros q'. rewrite Hs2, (Hh2 q'). apply Hh1.
Qed.

Lemma C9_get_stats_independent_copy_witness :
  tracker_wf (init_tracker 0) /\
  stats (snd (mutate_all (get_stats (init_tracker 0) TTS)
                [MSetCompleted 99; MDictSet "cache_hits" 7; MDictClear])) TTS =
  stats (init_tracker 0) TTS.
Proof.
  assert (Hwf : tracker_wf (init_tracker 0)) by (intros []; vm_compute; set_solver).
  split; [exact Hwf|].
  pose proof (C9_get_stats_independent_copy (init_tracker 0) TTS
                [MSetCompleted 99; MDictSet "cache_hits" 7; MDictClear] Hwf) as H.
  destruct (get_stats (init_tracker 0) TTS) as [o t1].
  destruct (mutate_all (o, t1) _) as [o2 t2].
  destruct H as (_ & _ & Hs & _). simpl. rewrite Hs. reflexivity.
Defined.

End TrackerFacts.

Module KokoroFacts.
Import Kokoro.
Local Open Scope nat_scope.

Definition metal_fault : PyExc :=
  mkExc "RuntimeError" "[METAL] Command buffer execution failed: MTLCommandBuffer failed assertion".
Definition transient_fault : PyExc := mkExc "RuntimeError" "connection reset".

Lemma all_failed_not_metal : is_metal_error (runtime_error "All TTS methods failed") = false.
Proof. reflexivity. Qed.

Lemma attempt_once_raise a m outs tr e outs1 tr1 :
  attempt_once a m outs tr = (Raise e, outs1, tr1) ->
  degradation_level m <= 1 \/ is_metal_error e = false.
Proof.
  unfold attempt_once.
  destruct (Nat.eqb_spec (degradation_level m) 0); [left; lia|].
  destruct (Nat.eqb a 0), (use_mlx_audio m); simpl;
    (destruct (Nat.leb_spec (degradation_level m) 1); [left; lia|]);
    intros Hr; inversion Hr; subst; right; reflexivity.
Qed.

Lemma attempt_once_trace a m outs tr :
  let '(_, _, tr1) := attempt_once a m outs tr in
  calls tr1 <= S (calls tr) /\ sleeps tr1 = sleeps tr.
Proof.
  unfold attempt_once, calls, sleeps.
  repeat match goal with |- context [if ?c then _ else _] => destruct c end;
    try (destruct outs as [|[]]); simpl;
    rewrite ?List.filter_app, ?flat_map_app, ?length_app; simpl;
    rewrite ?List.filter_app, ?flat_map_app, ?length_app; simpl;
    rewrite ?app_nil_r; split; try reflexivity; lia.
Qed.

Lemma handle_metal_error_trace m e tr :
  let '(_, m2, tr2) := handle_metal_error m e tr in
  calls tr2 = calls tr /\ sleeps tr2 = sleeps tr /\ max_retries m2 = max_retries m.
Proof.
  unfold handle_metal_error, calls, sleeps.
  destruct (is_metal_error e); [destruct (Nat.leb 3 _)|]; simpl;
    rewrite ?List.filter_app, ?flat_map_app, ?length_app; simpl;
    rewrite ?app_nil_r, ?Nat.add_0_r; auto.
Qed.

Lemma handle_metal_error_level m e tr :
  degradation_level m <= 1 \/ is_metal_error e = false ->
  let '(_, m2, _) := handle_metal_error m e tr in
  degradation_level m <= degradation_level m2 /\
  (degradation_level m <= 1 -> degradation_level m2 <= 1).
Proof.
  unfold handle_metal_error. intros [H|H].
  - destruct (is_metal_error e); [destruct (Nat.leb 3 _)|]; simpl; lia.
  - rewrite H. lia.
Qed.

Lemma synth_loop_level fuel :
  forall attempt m outs tr,
  let '(_, m', _, _) := synth_loop fuel attempt m outs tr in
  degradation_level m <= degradation_level m' /\
  (degradation_level m <= 1 -> degradation_level m' <= 1).
Proof.
  induction fuel as [|fuel IH]; intros attempt m outs tr; simpl; [lia|].
  destruct (attempt_once attempt m outs tr) as [[r outs1] tr1] eqn:Ea.
  destruct r as [audio|e]; [lia|].
  pose proof (handle_metal_error_level m e tr1 (attempt_once_raise _ _ _ _ _ _ _ Ea)) as Hh.
  destruct (handle_metal_error m e tr1) as [[r2 m2] tr2].
  destruct Hh as [Hh1 Hh2].
  destruct r2 as [[|]|e']; [| |lia].
  - specialize (IH (S attempt) m2 outs1 tr2).
    destruct (synth_loop fuel (S attempt) m2 outs1 tr2) as [[[? ?] ?] ?]. lia.
  - destruct (Nat.eqb attempt (max_retries m2)); [lia|].
    specialize (IH (S attempt) m2 outs1 (tr2 ++ [Sleep (2 ^ attempt)])).
    destruct (synth_loop fuel (S attempt) m2 outs1 _) as [[[? ?] ?] ?]. lia.
Qed.

Lemma sleeps_app tr1 tr2 : sleeps (tr1 ++ tr2) = sleeps tr1 ++ sleeps tr2.
Proof. unfold sleeps. apply flat_map_app. Qed.

Lemma synth_loop_trace fuel :
  forall attempt m outs tr,
  attempt + fuel = S (max_retries m) ->
  let '(_, m', _, tr') := synth_loop fuel attempt m outs tr in
  calls tr' <= calls tr + fuel /\
  max_retries m' = max_retries m /\
  exists extra, sleeps tr' = sleeps tr ++ extra /\
    Forall (fun k => exists a, attempt <= a < max_retries m /\ k = 2 ^ a) extra.
Proof.
  induction fuel as [|fuel IH]; intros attempt m outs tr Hinv; simpl.
  { split; [lia|]. split; [reflexivity|]. exists []. rewrite app_nil_r. auto. }
  pose proof (attempt_once_trace attempt m outs tr) as Ht.
  destruct (attempt_once attempt m outs tr) as [[r outs1] tr1] eqn:Ea.
  destruct Ht as [Hc1 Hs1].
  destruct r as [audio|e].
  { split; [lia|]. split; [reflexivity|]. exists []. rewrite app_nil_r. auto. }
  pose proof (handle_metal_error_trace m e tr1) as Hh.
  destruct (handle_metal_error m e tr1) as [[r2 m2] tr2].
  destruct Hh as (Hc2 & Hs2 & Hm2).
  destruct r2 as [[|]|e'].
  - specialize (IH (S attempt) m2 outs1 tr2 ltac:(lia)).
    destruct (synth_loop fuel (S attempt) m2 outs1 tr2) as [[[? m3] ?] tr3].
    destruct IH as (Hc3 & Hm3 & extra & Hs3 & Hf).
    split; [lia|]. split; [congruence|].
    exists extra. rewrite Hs3, Hs2, Hs1. split; [reflexivity|].
    eapply Forall_impl; [exact Hf|]. intros k (a & Ha & ->). exists a. split; [lia|reflexivity].
  - destruct (Nat.eqb_spec attempt (max_retries m2)).
    { split; [lia|]. split; [exact Hm2|]. exists []. rewrite app_nil_r. split; [congruence|auto]. }
    specialize (IH (S attempt) m2 outs1 (tr2 ++ [Sleep (2 ^ attempt)]) ltac:(lia)).
    destruct (synth_loop fuel (S attempt) m2 outs1 _) as [[[? m3] ?] tr3].
    destruct IH as (Hc3 & Hm3 & extra & Hs3 & Hf).
    assert (Hcs : calls (tr2 ++ [Sleep (2 ^ attempt)]) = calls tr2).
    { unfold calls. rewrite List.filter_app, length_app. simpl. lia. }
    split; [lia|]. split; [congruence|].
    exists (2 ^ attempt :: extra). rewrite Hs3, sleeps_app, Hs2, Hs1. simpl.
    rewrite <- app_assoc. split; [reflexivity|]. constructor.
    + exists attempt. split; [lia|reflexivity].
    + eapply Forall_impl; [exact Hf|]. intros k (a & Ha & ->). exists a. split; [lia|reflexivity].
  - split; [lia|]. split; [exact Hm2|]. exists []. rewrite app_nil_r. split; [congruence|auto].
Qed.

Lemma synthesize_level_one m outs :
  degradation_level m = 1 ->
  let '(_, m', _, _) := synthesize m outs in degradation_level m' = 1.
Proof.
  intros H. unfold synthesize.
  pose proof (synth_loop_level (S (max_retries m)) 0 m outs []) as Hl.
  destruct (synth_loop _ _ _ _ _) as [[[? ?] ?] ?]. lia.
Qed.

(** ** C3 *)

(** C3 (counterexample): on a fresh instance, one Metal fault followed by
    a successful retry already leaves the instance degraded to level 1
    (direct Kokoro on CPU), with the fault counter at 1. *)
Lemma C3_counterexample :
  let '(r, m', _, _) := synthesize (fresh_model false) [Failure metal_fault; Audio [1%Z]] in
  r = Ok [1%Z] /\ degradation_level m' <> 0 /\ metal_error_count m' = 1.
Proof. vm_compute. split; [reflexivity|]. split; [discriminate|reflexivity]. Qed.

(** C3 (amended): each recognised Metal error increments
    [metal_error_count]; while the incremented count is below 3 it sets
    the level to 1 (and stops using MLX-Audio) at once and the loop goes
    on; when it reaches 3 a [RuntimeError] ("TTS unavailable") is raised
    out of [synthesize] and the level is left as it was.  Once at level 1,
    every later call stays at level 1, with or without faults. *)
Theorem C3_metal_errors_degrade_immediately :
  (forall m e tr, is_metal_error e = true ->
     let '(r, m', _) := handle_metal_error m e tr in
     metal_error_count m' = S (metal_error_count m) /\
     (metal_error_count m < 2 ->
        r = Ok true /\ degradation_level m' = 1 /\ use_mlx_audio m' = false) /\
     (2 <= metal_error_count m ->
        r = Raise (runtime_error "Too many Metal framework errors, TTS unavailable") /\
        degradation_level m' = degradation_level m)) /\
  (forall m outs, degradation_level m = 1 ->
     let '(_, m', _, _) := synthesize m outs in degradation_level m' = 1).
Proof.
  split.
  - intros m e tr He. unfold handle_metal_error. rewrite He.
    destruct (Nat.leb_spec 3 (S (metal_error_count m))); simpl;
      (split; [reflexivity|]); split; intros; auto; lia.
  - exact synthesize_level_one.
Qed.

Lemma C3_metal_errors_degrade_immediately_witness :
  let '(r, m', _) := handle_metal_error (fresh_model false) metal_fault [] in
  r = Ok true /\ degradation_level m' = 1 /\ use_mlx_audio m' = false.
Proof.
  pose proof (proj1 C3_metal_errors_degrade_immediately (fresh_model false) metal_fault []
                eq_refl) as H.
  destruct (handle_metal_error (fresh_model false) metal_fault []) as [[r m'] tr'].
  destruct H as (_ & H & _). apply H. simpl. lia.
Defined.

(** ** C4 *)

Lemma levels_over_head n m outs : head (levels_over n m outs) = Some (degradation_level m).
Proof. destruct n; simpl; [reflexivity|]. destruct (synthesize m outs) as [[[? ?] ?] ?]. reflexivity. Qed.

Lemma sorted_lookup_le (l : list nat) i j a b :
  StronglySorted le l -> i < j -> l !! i = Some a -> l !! j = Some b -> a <= b.
Proof.
  revert i j a b. induction l as [|x l IH]; intros i j a b Hs Hij Hi Hj; [discriminate|].
  inversion Hs as [|? ? Hs' Hall]; subst.
  destruct i as [|i], j as [|j]; try lia; simpl in Hi, Hj.
  - injection Hi as <-. rewrite Forall_forall in Hall.
    apply Hall. eapply list_elem_of_lookup_2. exact Hj.
  - apply (IH i j a b Hs'); [lia|exact Hi|exact Hj].
Qed.

(** C4: over any number of successive [synthesize] calls on one instance,
    with any backend responses (faults of any kind included), the observed
    degradation levels never decrease, so a level left is never seen
    again. *)
Theorem C4_degradation_monotone n m outs :
  Sorted le (levels_over n m outs) /\
  (forall i j k a b, i < j < k ->
     levels_over n m outs !! i = Some a -> levels_over n m outs !! j = Some b -> a <> b ->
     levels_over n m outs !! k <> Some a).
Proof.
  assert (Hs : Sorted le (levels_over n m outs)).
  { revert m outs. induction n as [|n IH]; intros m outs; simpl; [repeat constructor|].
    pose proof (synth_loop_level (S (max_retries m)) 0 m outs []) as Hl.
    unfold synthesize. destruct (synth_loop _ _ _ _ _) as [[[? m'] outs'] ?].
    constructor; [apply IH|].
    pose proof (levels_over_head n m' outs') as Hh.
    destruct (levels_over n m' outs'); simpl in Hh; [discriminate|].
    injection Hh as ->. constructor. lia. }
  split; [exact Hs|].
  apply Sorted_StronglySorted in Hs; [|intros ???; lia].
  intros i j k a b Hijk Hi Hj Hab Hk.
  pose proof (sorted_lookup_le _ i j a b Hs ltac:(lia) Hi Hj).
  pose proof (sorted_lookup_le _ j k b a Hs ltac:(lia) Hj Hk). lia.
Qed.

(** ** C5 *)

(** C5 (counterexample): with [max_retries = 3], a Metal fault on the
    first attempt followed by three transient failures makes [synthesize]
    give up after four backend calls, although the fifth response would
    have succeeded: the degradation used up one of the four attempts. *)
Lemma C5_counterexample :
  let '(r, m', _, tr) := synthesize (fresh_model false)
        [Failure metal_fault; Failure transient_fault; Failure transient_fault;
         Failure transient_fault; Audio [1%Z]] in
  (exists e, r = Raise e) /\ calls tr = 4 /\ degradation_level m' = 1 /\
  sleeps tr = [2; 4].
Proof. vm_compute. split; [eexists; reflexivity|]. auto. Qed.

(** The outcome of a backend call that gets [r]. *)
Definition as_exc (r : Response) : Exc (list Z) :=
  match r with Audio a => Ok a | Failure e => Raise e end.

(** What the next [k] backend calls get from the response stream [outs]
    (empty audio once it is exhausted). *)
Fixpoint call_results (k : nat) (outs : list Response) : list (Exc (list Z)) :=
  match k with
  | O => []
  | S k' =>
      match outs with
      | [] => Ok [] :: call_results k' []
      | r :: rest => as_exc r :: call_results k' rest
      end
  end.

Definition has_call (acts : list Action) : bool := existsb is_call acts.

(** One iteration of the retry loop, numbered [a] (the [attempt] of
    [range(max_retries + 1)]), whose [try] body ended in [r] and which
    performed [acts]; [is_last]: no iteration follows.  It cleans up, makes
    at most one backend call, then: nothing more if it returned audio;
    one more cleanup after a Metal error (no sleep); [time.sleep(2 ** a)]
    after another error when [a < max_retries]; nothing more (the error is
    raised) after another error at [a = max_retries]. *)
Definition iteration_ok (maxr a : nat) (is_last : bool) (r : Exc (list Z)) (acts : list Action)
    : Prop :=
  exists call_part,
    ((call_part = [] /\ r = Raise (runtime_error "All TTS methods failed")) \/
     exists b, call_part = [Call b]) /\
    match r with
    | Ok _ => acts = Cleanup :: call_part /\ is_last = true
    | Raise e =>
        if is_metal_error e then acts = Cleanup :: call_part ++ [Cleanup]
        else if Nat.ltb a maxr then acts = Cleanup :: call_part ++ [Sleep (2 ^ a)] /\ is_last = false
        else acts = Cleanup :: call_part /\ is_last = true
    end.

Lemma call_results_cons k outs :
  call_results (S k) outs = hd (Ok []) (call_results 1 outs) :: call_results k (tail outs).
Proof. destruct outs; reflexivity. Qed.

Lemma attempt_once_shape a m outs tr :
  let '(r, outs1, tr1) := attempt_once a m outs tr in
  exists call_part, tr1 = tr ++ Cleanup :: call_part /\
    ((call_part = [] /\ r = Raise (runtime_error "All TTS methods failed") /\ outs1 = outs) \/
     (exists b, call_part = [Call b] /\ [r] = call_results 1 outs /\ outs1 = tail outs)) /\
    (degradation_level m = 1 -> call_part = [Call DirectKokoro]).
Proof.
  unfold attempt_once.
  destruct (Nat.eqb (degradation_level m) 0) eqn:E0, (use_mlx_audio m), (Nat.eqb a 0),
    (Nat.leb (degradation_level m) 1) eqn:E1; simpl;
  first [ destruct outs as [|[aud|e] rest]; simpl;
          eexists; (split; [rewrite <- app_assoc; reflexivity|]);
          (split; [right; eexists; split; [reflexivity|split; reflexivity]|]);
          intros Hl; first [ reflexivity
                           | exfalso; apply Nat.eqb_eq in E0; lia
                           | exfalso; apply Nat.leb_gt in E1; lia ]
        | eexists; (split; [reflexivity|]);
          (split; [left; split; [reflexivity|split; reflexivity]|]);
          intros Hl; exfalso; apply Nat.leb_gt in E1; lia ].
Qed.

Lemma call_part_cases (cp : list Action) r e outs1 outs :
  (cp = [] /\ r = Raise e /\ outs1 = outs) \/
  (exists b, cp = [Call b] /\ [r] = call_results 1 outs /\ outs1 = tail outs) ->
  (cp = [] /\ r = Raise e) \/ exists b, cp = [Call b].
Proof. intros [(H1 & H2 & _)|(b & H1 & _)]; [left; auto|right; eauto]. Qed.

Lemma filter_calls_step (cp tail_acts : list Action) r rest (outs outs1 : list Response) e :
  (cp = [] /\ r = Raise e /\ outs1 = outs) \/
  (exists b, cp = [Call b] /\ [r] = call_results 1 outs /\ outs1 = tail outs) ->
  has_call tail_acts = false ->
  map fst (List.filter (fun it => has_call (snd it)) rest) =
    call_results (length (List.filter (fun it => has_call (snd it)) rest)) outs1 ->
  map fst (List.filter (fun it => has_call (snd it)) ((r, Cleanup :: cp ++ tail_acts) :: rest)) =
    call_results (length (List.filter (fun it => has_call (snd it))
                                      ((r, Cleanup :: cp ++ tail_acts) :: rest))) outs.
Proof.
  intros [(-> & _ & ->)|(b & -> & Hr & ->)] Ht Hrest; simpl.
  - unfold has_call in Ht |- *. simpl. rewrite Ht. exact Hrest.
  - destruct outs as [|o os]; simpl in Hr |- *; injection Hr as ->; f_equal; exact Hrest.
Qed.

Lemma last_cons_nonempty {A} (x y : A) l : last (x :: y :: l) = last (y :: l).
Proof. reflexivity. Qed.

Lemma synth_loop_iterations fuel :
  forall attempt m outs tr,
  attempt + fuel = S (max_retries m) ->
  let '(res, m', _, tr') := synth_loop fuel attempt m outs tr in
  max_retries m' = max_retries m /\
  exists iters : list (Exc (list Z) * list Action),
    tr' = tr ++ concat (map snd iters) /\
    length iters <= fuel /\
    (fuel <> 0 -> iters <> []) /\
    (forall j r acts, iters !! j = Some (r, acts) ->
       iteration_ok (max_retries m) (attempt + j) (Nat.eqb (S j) (length iters)) r acts) /\
    (forall j e acts r' acts', iters !! j = Some (Raise e, acts) -> is_metal_error e = true ->
       iters !! S j = Some (r', acts') -> exists rest, acts' = Cleanup :: Call DirectKokoro :: rest) /\
    (degradation_level m = 1 -> forall r acts, iters !! 0 = Some (r, acts) ->
       exists rest, acts = Cleanup :: Call DirectKokoro :: rest) /\
    map fst (List.filter (fun it => has_call (snd it)) iters) =
      call_results (length (List.filter (fun it => has_call (snd it)) iters)) outs /\
    (forall audio, res = Ok audio <-> last (map fst iters) = Some (Ok audio)).
Proof.
  induction fuel as [|fuel IH]; intros attempt m outs tr Hinv.
  { cbn [synth_loop]. split; [reflexivity|]. exists [].
    split; [simpl; rewrite app_nil_r; reflexivity|].
    split; [simpl; lia|]. split; [intros H; congruence|].
    split; [intros j r acts H; rewrite lookup_nil in H; discriminate|].
    split; [intros j e acts r' acts' H; rewrite lookup_nil in H; discriminate|].
    split; [intros _ r acts H; rewrite lookup_nil in H; discriminate|].
    split; [reflexivity|]. intros audio. split; discriminate. }
  pose proof (attempt_once_shape attempt m outs tr) as Hs.
  cbn [synth_loop].
  destruct (attempt_once attempt m outs tr) as [[r outs1] tr1] eqn:Ea.
  destruct Hs as (cp & Htr1 & Hcall & Hlev).
  pose proof (call_part_cases cp r _ outs1 outs Hcall) as Hcp.
  destruct r as [audio|e].
  - (* the try body returned audio *)
    split; [reflexivity|]. exists [(Ok audio, Cleanup :: cp)].
    split; [simpl; rewrite app_nil_r; exact Htr1|].
    split; [simpl; lia|]. split; [discriminate|].
    split.
    { intros [|[|j]] r acts H; try discriminate. injection H as <- <-.
      exists cp. split; [destruct Hcp as [[_ H]|H]; [discriminate|right; exact H]|].
      split; reflexivity. }
    split; [intros [|[|j]] e acts r' acts' H; discriminate|].
    split; [intros Hl r acts H; injection H as <- <-; rewrite (Hlev Hl); eexists; reflexivity|].
    split.
    { destruct Hcall as [(_ & H & _)|(b & -> & Hr & _)]; [discriminate|].
      simpl. exact Hr. }
    intros a. simpl. split; congruence.
  - (* the try body raised [e] *)
    unfold handle_metal_error. destruct (is_metal_error e) eqn:Em.
    + destruct (Nat.leb 3 (S (metal_error_count m))).
      * (* too many Metal errors: raised out of the loop *)
        split; [reflexivity|]. exists [(Raise e, Cleanup :: cp ++ [Cleanup])].
        split; [rewrite Htr1; simpl; rewrite app_nil_r, <- app_assoc; reflexivity|].
        split; [simpl; lia|]. split; [discriminate|].
        split.
        { intros [|[|j]] r acts H; try discriminate. injection H as <- <-.
          exists cp. split; [exact Hcp|]. simpl. rewrite Em. reflexivity. }
        split; [intros [|[|j]] e' acts r' acts' H; discriminate|].
        split; [intros Hl r acts H; injection H as <- <-; rewrite (Hlev Hl); eexists; reflexivity|].
        split; [apply (filter_calls_step cp [Cleanup] _ [] outs outs1 _ Hcall); reflexivity|].
        intros a. simpl. split; discriminate.
      * (* handled: level 1, next attempt, no sleep *)
        set (m2 := mkModel false (max_retries m) 1 (S (metal_error_count m))).
        specialize (IH (S attempt) m2 outs1 (tr1 ++ [Cleanup]) ltac:(simpl; lia)).
        destruct (synth_loop fuel (S attempt) m2 outs1 (tr1 ++ [Cleanup])) as [[[res m'] outs'] tr'].
        destruct IH as (Hm' & iters & Htr' & Hlen & Hne & Hok & Hnext & Hlev' & Hcalls & Hlast).
        split; [exact Hm'|]. exists ((Raise e, Cleanup :: cp ++ [Cleanup]) :: iters).
        split; [rewrite Htr', Htr1; simpl; rewrite <- !app_assoc; reflexivity|].
        split; [simpl; lia|]. split; [discriminate|].
        split.
        { intros [|j] r acts H.
          - injection H as <- <-. exists cp. split; [exact Hcp|]. simpl. rewrite Em. reflexivity.
          - replace (attempt + S j) with (S attempt + j) by lia. exact (Hok j r acts H). }
        split.
        { intros [|j] e' acts r' acts' H Hm Hn.
          - exact (Hlev' eq_refl r' acts' Hn).
          - exact (Hnext j e' acts r' acts' H Hm Hn). }
        split; [intros Hl r acts H; injection H as <- <-; rewrite (Hlev Hl); eexists; reflexivity|].
        split; [apply (filter_calls_step cp [Cleanup] _ _ outs outs1 _ Hcall); [reflexivity|exact Hcalls]|].
        intros a. rewrite (Hlast a). destruct iters as [|it iters]; simpl; [split; discriminate|].
        reflexivity.
    + destruct (Nat.eqb_spec attempt (max_retries m)) as [Hmax|Hmax].
      * (* last attempt: the error is raised *)
        split; [reflexivity|]. exists [(Raise e, Cleanup :: cp)].
        split; [simpl; rewrite app_nil_r; exact Htr1|].
        split; [simpl; lia|]. split; [discriminate|].
        split.
        { intros [|[|j]] r acts H; try discriminate. injection H as <- <-.
          exists cp. split; [exact Hcp|]. simpl. rewrite Em.
          replace (Nat.ltb (attempt + 0) (max_retries m)) with false
            by (symmetry; apply Nat.ltb_ge; lia).
          split; reflexivity. }
        split; [intros [|[|j]] e' acts r' acts' H; discriminate|].
        split; [intros Hl r acts H; injection H as <- <-; rewrite (Hlev Hl); eexists; reflexivity|].
        split; [rewrite <- (app_nil_r cp); apply (filter_calls_step cp [] _ [] outs outs1 _ Hcall);
                reflexivity|].
        intros a. simpl. split; discriminate.
      * (* backoff, then the next attempt *)
        specialize (IH (S attempt) m outs1 (tr1 ++ [Sleep (2 ^ attempt)]) ltac:(lia)).
        destruct (synth_loop fuel (S attempt) m outs1 _) as [[[res m'] outs'] tr'].
        destruct IH as (Hm' & iters & Htr' & Hlen & Hne & Hok & Hnext & Hlev' & Hcalls & Hlast).
        assert (Hf : fuel <> 0) by lia.
        split; [exact Hm'|]. exists ((Raise e, Cleanup :: cp ++ [Sleep (2 ^ attempt)]) :: iters).
        split; [rewrite Htr', Htr1; simpl; rewrite <- !app_assoc; reflexivity|].
        split; [simpl; lia|]. split; [discriminate|].
        split.
        { intros [|j] r acts H.
          - injection H as <- <-. exists cp. split; [exact Hcp|]. simpl. rewrite Em.
            replace (Nat.ltb (attempt + 0) (max_retries m)) with true
              by (symmetry; apply Nat.ltb_lt; lia).
            rewrite Nat.add_0_r. split; [reflexivity|].
            destruct iters; [exfalso; exact (Hne Hf eq_refl)|reflexivity].
          - replace (attempt + S j) with (S attempt + j) by lia. exact (Hok j r acts H). }
        split.
        { intros [|j] e' acts r' acts' H Hm Hn.
          - injection H as <- <-. congruence.
          - exact (Hnext j e' acts r' acts' H Hm Hn). }
        split; [intros Hl r acts H; injection H as <- <-; rewrite (Hlev Hl); eexists; reflexivity|].
        split; [apply (filter_calls_step cp [Sleep (2 ^ attempt)] _ _ outs outs1 _ Hcall);
                [reflexivity|exact Hcalls]|].
        intros a. rewrite (Hlast a). destruct iters as [|it iters]; [exfalso; exact (Hne Hf eq_refl)|].
        reflexivity.
Qed.

(** C5 (amended): [synthesize] makes at most [max_retries + 1] backend
    calls and every backoff sleep is [2 ^ a] seconds for some
    [a < max_retries].  More precisely, its actions split into at most
    [max_retries + 1] iterations numbered [0, 1, ...] (the [attempt]
    values), each of the shape of [iteration_ok]: iteration [a] sleeps
    [2 ^ a] seconds exactly when its attempt failed with a non-Metal error
    and [a < max_retries], and a handled Metal error uses up iteration [a]:
    iteration [a + 1] follows at once, with no sleep, and calls direct
    Kokoro (level 1).  The iterations that call the backend get the
    responses in order, and [synthesize] returns audio exactly when the
    last iteration got it. *)
Theorem C5_bounded_attempts m outs :
  let '(res, m', _, tr) := synthesize m outs in
  calls tr <= max_retries m + 1 /\
  Forall (fun k => exists a, a < max_retries m /\ k = 2 ^ a) (sleeps tr) /\
  max_retries m' = max_retries m /\
  exists iters : list (Exc (list Z) * list Action),
    tr = concat (map snd iters) /\
    1 <= length iters <= max_retries m + 1 /\
    (forall a r acts, iters !! a = Some (r, acts) ->
       iteration_ok (max_retries m) a (Nat.eqb (S a) (length iters)) r acts) /\
    (forall a e acts r' acts', iters !! a = Some (Raise e, acts) -> is_metal_error e = true ->
       iters !! S a = Some (r', acts') -> exists rest, acts' = Cleanup :: Call DirectKokoro :: rest) /\
    map fst (List.filter (fun it => has_call (snd it)) iters) =
      call_results (length (List.filter (fun it => has_call (snd it)) iters)) outs /\
    (forall audio, res = Ok audio <-> last (map fst iters) = Some (Ok audio)).
Proof.
  unfold synthesize.
  pose proof (synth_loop_trace (S (max_retries m)) 0 m outs [] eq_refl) as H.
  pose proof (synth_loop_iterations (S (max_retries m)) 0 m outs [] eq_refl) as Hi.
  destruct (synth_loop _ _ _ _ _) as [[[res m'] ?] tr].
  destruct H as (Hc & Hm & extra & Hs & Hf).
  destruct Hi as (_ & iters & Htr & Hlen & Hne & Hok & Hnext & _ & Hcalls & Hlast).
  split; [simpl in Hc; lia|]. split.
  { rewrite Hs. simpl. eapply Forall_impl; [exact Hf|].
    intros k (a & Ha & ->). exists a. split; [lia|reflexivity]. }
  split; [exact Hm|]. exists iters.
  split; [exact Htr|].
  split; [destruct iters; [exfalso; exact (Hne ltac:(lia) eq_refl)|simpl in Hlen |- *; lia]|].
  split; [exact Hok|]. split; [exact Hnext|]. split; [exact Hcalls|exact Hlast].
Qed.

End KokoroFacts.

Module BatchFacts.
Import Batch.

Lemma length_enumerate_from {A} (l : list A) n :
  length (zip (seq n (length l)) l) = length l.
Proof. revert n. induction l as [|x l IH]; intros n; simpl; [reflexivity|]. by rewrite IH. Qed.

Lemma length_enumerate {A} (l : list A) : length (enumerate l) = length l.
Proof. apply length_enumerate_from. Qed.

Section Outcomes.
Variable process_image : nat -> ImageInfo -> Exc ImageDescription.
Hypothesis Hok : forall i img, exists d, process_image i img = Ok d.

Lemma collect_parallel_all_ok l :
  map Ok (collect_parallel process_image l) =
  map (fun ii => process_image (fst ii) (snd ii)) l.
Proof.
  induction l as [|[i img] l IH]; [reflexivity|].
  simpl. destruct (Hok i img) as [d Hd]. rewrite Hd. simpl. by rewrite IH.
Qed.

Lemma collect_sequential_all_ok l :
  exists ds, collect_sequential process_image l = Ok ds /\
             map Ok ds = map (fun ii => process_image (fst ii) (snd ii)) l.
Proof.
  induction l as [|[i img] l IH]; [exists []; split; reflexivity|].
  destruct IH as (ds & Hds & Hm). destruct (Hok i img) as [d Hd].
  exists (d :: ds). simpl. rewrite Hd, Hds. split; [reflexivity|]. simpl. by rewrite Hm.
Qed.

End Outcomes.

(** C2 (counterexample): with image description disabled in the
    configuration, a batch of one image yields no description at all
    (while [total_images] is 1). *)
Lemma C2_counterexample :
  match batch_process_images
          (fun _ _ => Ok (mkDescription "fig1.png" "A figure." 1 false))
          false true [mkImageInfo "fig1.png" None] [] with
  | Ok r => length (descriptions r) = 0%nat /\ total_images r = 1%nat
  | Raise _ => False
  end.
Proof. split; reflexivity. Qed.

(** C2 (amended): [batch_process] returns [] on an uninitialized
    pipeline; on an initialized one it returns one [TTSResult] per chunk,
    whatever the per-chunk outcomes: in parallel mode the per-chunk results
    in completion order (a permutation of them), in sequential mode the
    per-chunk results in input order.  With description enabled and no
    [process_image] call raising, [batch_process_images] returns one
    description per image in either mode (in input order when sequential);
    with description disabled it returns no description, with
    [total_images = N] and [processed_images = cache_hits = 0]. *)
Theorem C2_batch_conservation
    (process_chunk : nat -> Chunk -> TTSResult)
    (process_image : nat -> ImageInfo -> Exc ImageDescription)
    (parallel force_sequential : bool)
    (text_chunks : list Chunk) (image_list : list ImageInfo)
    (corder : list (nat * Chunk)) (iorder : list (nat * ImageInfo))
    (Hc : Permutation corder (enumerate text_chunks))
    (Hi : Permutation iorder (enumerate image_list)) :
  batch_process process_chunk false parallel force_sequential text_chunks corder = [] /\
  (Permutation (batch_process process_chunk true parallel force_sequential text_chunks corder)
               (map (fun ic => process_chunk (fst ic) (snd ic)) (enumerate text_chunks)) /\
   length (batch_process process_chunk true parallel force_sequential text_chunks corder)
     = length text_chunks /\
   (parallel = true -> (1 < length text_chunks)%nat -> force_sequential = false ->
    batch_process process_chunk true parallel force_sequential text_chunks corder =
      map (fun ic => process_chunk (fst ic) (snd ic)) corder) /\
   (parallel = false \/ (length text_chunks <= 1)%nat \/ force_sequential = true ->
    batch_process process_chunk true parallel force_sequential text_chunks corder =
      map (fun ic => process_chunk (fst ic) (snd ic)) (enumerate text_chunks))) /\
  ((forall i img, exists d, process_image i img = Ok d) ->
   exists r, batch_process_images process_image true parallel image_list iorder = Ok r /\
     Permutation (map Ok (descriptions r))
                 (map (fun ii => process_image (fst ii) (snd ii)) (enumerate image_list)) /\
     length (descriptions r) = length image_list /\
     total_images r = length image_list /\
     (parallel = false \/ (length image_list <= 1)%nat ->
      map Ok (descriptions r) =
        map (fun ii => process_image (fst ii) (snd ii)) (enumerate image_list))) /\
  batch_process_images process_image false parallel image_list iorder =
    Ok (mkImageResult true [] (length image_list) 0 0).
Proof.
  split; [reflexivity|]. split; [|split].
  - assert (Hp : Permutation
                   (batch_process process_chunk true parallel force_sequential text_chunks corder)
                   (map (fun ic => process_chunk (fst ic) (snd ic)) (enumerate text_chunks))).
    { unfold batch_process. simpl.
      destruct (parallel && _ && _); [by apply Permutation_map|reflexivity]. }
    split; [exact Hp|]. split.
    { rewrite (Permutation_length Hp), length_map. apply length_enumerate. }
    split.
    + intros -> Hl ->. unfold batch_process. simpl.
      replace (Nat.ltb 1 (length text_chunks)) with true by (symmetry; apply Nat.ltb_lt; exact Hl).
      reflexivity.
    + intros Hs. unfold batch_process. simpl.
      replace (parallel && Nat.ltb 1 (length text_chunks) && negb force_sequential) with false;
        [reflexivity|].
      destruct Hs as [->|[Hl| ->]]; [reflexivity| |by rewrite andb_false_r].
      replace (Nat.ltb 1 (length text_chunks)) with false by (symmetry; apply Nat.ltb_ge; exact Hl).
      by rewrite andb_false_r.
  - intros Hok. unfold batch_process_images. simpl.
    destruct (parallel && Nat.ltb 1 (length image_list)) eqn:Ep.
    + eexists. split; [reflexivity|]. simpl.
      assert (Hp : Permutation (map Ok (collect_parallel process_image iorder))
                     (map (fun ii => process_image (fst ii) (snd ii)) (enumerate image_list))).
      { rewrite collect_parallel_all_ok by exact Hok. by apply Permutation_map. }
      split; [exact Hp|]. split; [|split; [reflexivity|]].
      * rewrite <- (length_map Ok), (Permutation_length Hp), length_map.
        apply length_enumerate.
      * intros Hs. exfalso. apply andb_prop in Ep as [Ep1 Ep2]. apply Nat.ltb_lt in Ep2.
        destruct Hs as [->|Hl]; [discriminate|lia].
    + destruct (collect_sequential_all_ok process_image Hok (enumerate image_list))
        as (ds & Hds & Hm).
      rewrite Hds. eexists. split; [reflexivity|]. simpl. rewrite Hm.
      split; [reflexivity|]. split; [|split; [reflexivity|intros _; reflexivity]].
      rewrite <- (length_map Ok), Hm, length_map. apply length_enumerate.
  - reflexivity.
Qed.

Lemma C2_batch_conservation_witness :
  Permutation [(0%nat, mkChunk "Hello." None); (1%nat, mkChunk "World." None)]
              (enumerate [mkChunk "Hello." None; mkChunk "World." None]) /\
  Permutation [(0%nat, mkImageInfo "fig1.png" None)] (enumerate [mkImageInfo "fig1.png" None]) /\
  (false = false \/ (length [mkChunk "Hello." None; mkChunk "World." None] <= 1)%nat \/ false = true) /\
  batch_process (fun i c => mkTTSResult (Nat.eqb i 0) None None) true false false
    [mkChunk "Hello." None; mkChunk "World." None]
    [(1%nat, mkChunk "World." None); (0%nat, mkChunk "Hello." None)] =
  [mkTTSResult true None None; mkTTSResult false None None].
Proof.
  assert (Hc : Permutation [(1%nat, mkChunk "World." None); (0%nat, mkChunk "Hello." None)]
                 (enumerate [mkChunk "Hello." None; mkChunk "World." None])) by apply perm_swap.
  assert (Hi : Permutation [(0%nat, mkImageInfo "fig1.png" None)]
                 (enumerate [mkImageInfo "fig1.png" None])) by reflexivity.
  assert (Hs : false = false \/ (length [mkChunk "Hello." None; mkChunk "World." None] <= 1)%nat \/
               false = true) by (left; reflexivity).
  split; [reflexivity|]. split; [exact Hi|]. split; [exact Hs|].
  exact (proj2 (proj2 (proj2 (proj1 (proj2 (C2_batch_conservation
    (fun i c => mkTTSResult (Nat.eqb i 0) None None)
    (fun _ _ => Ok (mkDescription "fig1.png" "A figure." 1 false))
    false false
    [mkChunk "Hello." None; mkChunk "World." None] [mkImageInfo "fig1.png" None]
    [(1%nat, mkChunk "World." None); (0%nat, mkChunk "Hello." None)]
    [(0%nat, mkImageInfo "fig1.png" None)] Hc Hi))))) Hs).
Defined.

End BatchFacts.

Module OrchestratorFacts.
Import Batch Orchestrator.




End OrchestratorFacts.

Module TrackerQueryFacts.
Import Tracker TrackerQueries.

Lemma notify_each_frame cb subs t ev :
  exists t', notify_each cb subs t ev = Ok t' /\ stats t' = stats t /\
    recent_events t' = recent_events t /\ subscribers t' = subscribers t.
Proof.
  revert t. induction subs as [|c rest IH]; intros t; simpl.
  - eauto.
  - destruct (cb c (invocations t) ev); simpl;
      match goal with |- context [notify_each _ rest ?u _] =>
        destruct (IH u) as (t' & -> & Hs & Hr & Hb) end;
      exists t'; rewrite Hs, Hr, Hb; simpl; auto.
Qed.

Lemma update_stats_recent t ev : recent_events (update_stats t ev) = recent_events t.
Proof. unfold update_stats. destruct (d_custom_stats (data ev)); reflexivity. Qed.

Lemma update_stats_subscribers t ev : subscribers (update_stats t ev) = subscribers t.
Proof. unfold update_stats. destruct (d_custom_stats (data ev)); reflexivity. Qed.

(** One handled event: statistics updated, event stored. *)
Lemma process_events_cons cb t ev q :
  is_shutdown ev = false ->
  exists t', process_events cb t (ev :: q) = process_events cb t' q /\
    stats t' = stats (update_stats t ev) /\
    recent_events t' = recent_events (store_recent_event t ev) /\
    subscribers t' = subscribers t.
Proof.
  intros Hs. simpl. rewrite Hs. unfold handle_event, notify_subscribers.
  destruct (notify_each_frame cb (subscribers (store_recent_event (update_stats t ev) ev))
              (store_recent_event (update_stats t ev) ev) ev) as (t' & -> & H1 & H2 & H3).
  exists t'. simpl. rewrite H1, H2, H3. unfold store_recent_event. simpl.
  rewrite update_stats_recent, update_stats_subscribers. auto.
Qed.

Lemma lastn_snoc {A} n (l : list A) (e : A) :
  (let r := lastn n l ++ [e] in if Nat.ltb n (length r) then tail r else r) =
  lastn n (l ++ [e]).
Proof.
  unfold lastn. rewrite !length_app, length_drop. simpl.
  destruct (Nat.leb_spec n (length l)) as [Hle|Hlt].
  - replace (n <? length l - (length l - n) + 1)%nat with true
      by (symmetry; apply Nat.ltb_lt; lia).
    replace (length l + 1 - n)%nat with (length l - n + 1)%nat by lia.
    rewrite <- (drop_drop (l ++ [e]) 1 (length l - n)).
    rewrite (drop_app_le l [e] (length l - n)) by lia.
    destruct (drop (length l - n) l) as [|x xs]; reflexivity.
  - replace (n <? length l - (length l - n) + 1)%nat with false
      by (symmetry; apply Nat.ltb_ge; lia).
    replace (length l - n)%nat with 0%nat by lia.
    replace (length l + 1 - n)%nat with 0%nat by lia.
    reflexivity.
Qed.

Definition of_pipeline (p : PipelineType) (ev : ProgressEvent) : bool :=
  bool_decide (pipeline ev = p).

Lemma recent_window cb t q r :
  (forall p, recent_events t p = lastn max_recent_events (r p)) ->
  forall p, recent_events (process_events cb t q) p =
    lastn max_recent_events (r p ++ List.filter (of_pipeline p) (delivered q)).
Proof.
  revert t r. induction q as [|ev q IH]; intros t r Ht p.
  - simpl. rewrite app_nil_r. apply Ht.
  - destruct (is_shutdown ev) eqn:Hsd.
    + simpl. rewrite Hsd. simpl. rewrite app_nil_r. apply Ht.
    + destruct (process_events_cons cb t ev q Hsd) as (t' & -> & _ & Hr & _).
      simpl. rewrite Hsd. simpl.
      rewrite (IH t' (fun p' => r p' ++ List.filter (of_pipeline p') [ev])).
      * unfold of_pipeline. simpl. rewrite <- app_assoc.
        destruct (bool_decide (pipeline ev = p)); reflexivity.
      * intros p'. rewrite Hr. unfold store_recent_event, with_recent, fn_update. simpl.
        unfold of_pipeline. simpl.
        destruct (decide (pipeline ev = p')) as [<-|Hne].
        -- rewrite bool_decide_eq_true_2 by reflexivity. rewrite Ht. apply lastn_snoc.
        -- rewrite bool_decide_eq_false_2 by exact Hne. rewrite app_nil_r. apply Ht.
Qed.

Lemma update_fields_errors s ev :
  errors (update_fields s ev) = errors s + (if bool_decide (event_type ev = ERROR) then 1 else 0) /\
  warnings (update_fields s ev) = warnings s + (if bool_decide (event_type ev = WARNING) then 1 else 0).
Proof.
  destruct ev as [p [] [tot cur comp cst act] ts]; simpl;
    destruct tot, cur, comp; simpl; split; lia.
Qed.

Definition count_ev (p : PipelineType) (et : EventType) (l : list ProgressEvent) : Z :=
  Z.of_nat (length (List.filter (fun ev => bool_decide (pipeline ev = p) &&
                                           bool_decide (event_type ev = et)) l)).

Lemma process_errors cb t q p :
  errors (stats (process_events cb t q) p) = errors (stats t p) + count_ev p ERROR (delivered q) /\
  warnings (stats (process_events cb t q) p) = warnings (stats t p) + count_ev p WARNING (delivered q).
Proof.
  revert t. induction q as [|ev q IH]; intros t.
  - unfold count_ev. simpl. lia.
  - destruct (is_shutdown ev) eqn:Hsd.
    + simpl. rewrite Hsd. unfold count_ev. simpl. lia.
    + destruct (process_events_cons cb t ev q Hsd) as (t' & -> & Hst & _ & _).
      destruct (IH t') as [IHe IHw]. rewrite IHe, IHw, Hst.
      rewrite !(TrackerFacts.update_stats_stats t ev p). simpl. rewrite Hsd.
      unfold count_ev. simpl.
      destruct (decide (pipeline ev = p)) as [<-|Hne].
      * destruct (update_fields_errors (stats t (pipeline ev)) ev) as [He Hw].
        rewrite He, Hw. rewrite (bool_decide_eq_true_2 (pipeline ev = pipeline ev)) by reflexivity.
        simpl. destruct (event_type ev); simpl; rewrite ?length_cons; lia.
      * rewrite (bool_decide_eq_false_2 (pipeline ev = p)) by exact Hne. simpl. lia.
Qed.

Lemma counted_split (f : ProgressEvent -> bool) et l :
  (forall ev, f ev = bool_decide (pipeline ev <> OVERALL) && bool_decide (event_type ev = et)) ->
  Z.of_nat (length (List.filter f l)) =
  count_ev TTS et l + count_ev IMAGE et l + count_ev EPUB et l.
Proof.
  intros Hf. unfold count_ev. induction l as [|ev l IH]; [reflexivity|].
  simpl. rewrite Hf. destruct (pipeline ev);
    destruct (bool_decide (event_type ev = et));
    repeat (first [rewrite bool_decide_eq_true_2 by congruence
                  | rewrite bool_decide_eq_false_2 by congruence]);
    simpl; rewrite ?length_cons; lia.
Qed.

(** ** Extra properties *)

(** X1: after the consumer drains a queue on a fresh tracker, the recent
    events kept for a pipeline are the last 10 (at most) of that
    pipeline's handled events, oldest first. *)
Theorem recent_events_last_ten cb now q p :
  recent_events (process_events cb (init_tracker now) q) p =
  lastn 10 (List.filter (of_pipeline p) (delivered q)).
Proof.
  apply (recent_window cb (init_tracker now) q (fun _ => [])). intros; reflexivity.
Qed.

(** X2: [get_recent_events(p, limit)] returns, newest first, the last
    [limit] stored events for [limit > 0], all stored events for
    [limit = 0], and all but the first [-limit] for [limit < 0]. *)
Theorem get_recent_events_slice t p limit :
  get_recent_events t p limit =
  rev (if Z.ltb 0 limit then lastn (Z.to_nat limit) (recent_events t p)
       else if Z.eqb limit 0 then recent_events t p
       else drop (Z.to_nat (- limit)) (recent_events t p)).
Proof.
  unfold get_recent_events, py_slice_from, lastn. f_equal.
  set (l := recent_events t p).
  destruct (Z.ltb_spec 0 limit).
  - rewrite (proj2 (Z.ltb_lt _ _)) by lia. f_equal. lia.
  - destruct (Z.eqb_spec limit 0) as [->|Hne].
    + simpl. rewrite Z.min_l by lia. reflexivity.
    + rewrite (proj2 (Z.ltb_ge _ _)) by lia.
      destruct (Z.leb_spec (- limit) (Z.of_nat (length l))).
      * rewrite Z.min_l by lia. reflexivity.
      * rewrite Z.min_r by lia. rewrite Nat2Z.id.
        rewrite !drop_ge by lia. reflexivity.
Qed.

Lemma remove_first_not_in x l : x ∉ l -> remove_first x l = l.
Proof.
  induction l as [|y l IH]; intros Hx; simpl; [reflexivity|].
  rewrite decide_False by (intros ->; apply Hx; left).
  rewrite IH; [reflexivity|]. intros H; apply Hx; right; exact H.
Qed.

Lemma remove_first_app_not_in x l : x ∉ l -> remove_first x (l ++ [x]) = l.
Proof.
  induction l as [|y l IH]; intros Hx; simpl.
  - rewrite decide_True by reflexivity. reflexivity.
  - rewrite decide_False by (intros ->; apply Hx; left).
    rewrite IH; [reflexivity|]. intros H; apply Hx; right; exact H.
Qed.

Lemma remove_first_nodup x l :
  NoDup l -> NoDup (remove_first x l) /\ x ∉ remove_first x l.
Proof.
  induction l as [|y l IH]; intros Hnd; simpl.
  - split; [constructor|set_solver].
  - apply NoDup_cons in Hnd as [Hy Hl].
    destruct (decide (x = y)) as [->|Hne].
    + split; assumption.
    + destruct (IH Hl) as [H1 H2]. split.
      * constructor; [|exact H1].
        intros Hin. apply Hy. clear -Hin.
        induction l as [|z l IHl]; simpl in Hin; [set_solver|].
        destruct (decide (x = z)); set_solver.
      * set_solver.
Qed.

(** X3: [subscribe] and [unsubscribe] keep the subscriber list free of
    duplicates; after [unsubscribe(cb)] the callback is no longer
    subscribed; subscribing a new callback and unsubscribing it again
    restores the list. *)
Theorem subscribe_unsubscribe t cb :
  NoDup (subscribers t) ->
  NoDup (subscribers (subscribe t cb)) /\
  NoDup (subscribers (unsubscribe t cb)) /\
  (cb ∉ subscribers (unsubscribe t cb)) /\
  (cb ∉ subscribers t -> subscribers (unsubscribe (subscribe t cb) cb) = subscribers t).
Proof.
  intros Hnd. unfold subscribe, unsubscribe.
  split; [|split; [|split]].
  - destruct (decide (cb ∈ subscribers t)) as [|Hn]; simpl; [exact Hnd|].
    apply NoDup_app. split; [exact Hnd|]. split; [|apply NoDup_singleton].
    intros x Hx Hx'. apply list_elem_of_singleton in Hx'. subst. contradiction.
  - destruct (decide (cb ∈ subscribers t)); simpl; [|exact Hnd].
    apply remove_first_nodup, Hnd.
  - destruct (decide (cb ∈ subscribers t)) as [|Hn]; simpl; [|exact Hn].
    apply remove_first_nodup, Hnd.
  - intros Hn. destruct (decide (cb ∈ subscribers t)) as [H|_]; [contradiction|]. simpl.
    rewrite decide_True by (apply elem_of_app; right; left).
    simpl. apply remove_first_app_not_in, Hn.
Qed.

Lemma subscribe_unsubscribe_witness :
  NoDup (subscribers (subscribe (init_tracker 0) 7%nat)) /\
  subscribers (unsubscribe (subscribe (init_tracker 0) 7%nat) 7%nat) = [].
Proof.
  destruct (subscribe_unsubscribe (init_tracker 0) 7%nat ltac:(constructor))
    as (H1 & _ & _ & H4).
  split; [exact H1|]. apply H4. simpl. set_solver.
Defined.

(** X4: events queued behind the shutdown sentinel of [stop()] are never
    handled: draining [q1 ++ sentinel :: q2] ends in the same state as
    draining [q1] alone. *)
Theorem events_after_shutdown_ignored cb t q1 ev q2 :
  is_shutdown ev = true ->
  process_events cb t (q1 ++ ev :: q2) = process_events cb t q1.
Proof.
  intros Hs. revert t. induction q1 as [|e q1 IH]; intros t.
  - simpl. rewrite Hs. reflexivity.
  - simpl. destruct (is_shutdown e); [reflexivity|]. apply IH.
Qed.

Lemma events_after_shutdown_ignored_witness :
  is_shutdown (mkEvent OVERALL INFO (mkData None None None None (Some "shutdown")) 5) = true /\
  completed_items (stats (process_events quiet_callback (init_tracker 0)
     ([complete_event TTS "a" 1] ++
      mkEvent OVERALL INFO (mkData None None None None (Some "shutdown")) 5 ::
      [complete_event TTS "b" 6])) TTS) = 1.
Proof.
  split; [reflexivity|].
  rewrite (events_after_shutdown_ignored quiet_callback (init_tracker 0)
             [complete_event TTS "a" 1]
             (mkEvent OVERALL INFO (mkData None None None None (Some "shutdown")) 5)
             [complete_event TTS "b" 6] ltac:(reflexivity)).
  vm_compute. reflexivity.
Defined.

(** X5: after the consumer drains a queue on a fresh tracker, the overall
    [errors] (resp. [warnings]) count is the number of handled [Error]
    (resp. [Warning]) events of the TTS, image and EPUB pipelines; events
    of the overall pipeline are never counted. *)
Theorem overall_errors_count cb now q :
  o_errors (get_overall_stats (process_events cb (init_tracker now) q)) =
    Z.of_nat (length (List.filter counted_error (delivered q))) /\
  o_warnings (get_overall_stats (process_events cb (init_tracker now) q)) =
    Z.of_nat (length (List.filter counted_warning (delivered q))).
Proof.
  unfold get_overall_stats, sum_over. simpl.
  rewrite (counted_split counted_error ERROR) by reflexivity.
  rewrite (counted_split counted_warning WARNING) by reflexivity.
  destruct (process_errors cb (init_tracker now) q TTS) as [E1 W1].
  destruct (process_errors cb (init_tracker now) q IMAGE) as [E2 W2].
  destruct (process_errors cb (init_tracker now) q EPUB) as [E3 W3].
  rewrite E1, E2, E3, W1, W2, W3. simpl. split; lia.
Qed.

(** X6: [eta_seconds] is [None] while the total or the completed count is
    0, and also when no time has elapsed; it is 0 once the completed count
    reaches the total; otherwise it is
    [remaining * elapsed / completed], a positive number of seconds. *)
Theorem eta_seconds_cases s now :
  ((total_items s = 0 \/ completed_items s = 0) -> eta_seconds s now = None) /\
  (total_items s <> 0 -> completed_items s <> 0 -> total_items s <= completed_items s ->
     eta_seconds s now = Some 0%Q) /\
  (0 < completed_items s < total_items s -> now = start_time s -> eta_seconds s now = None) /\
  (0 < completed_items s < total_items s -> start_time s < now ->
     exists e, eta_seconds s now = Some e /\
       (e == inject_Z ((total_items s - completed_items s) * (now - start_time s)) /
             inject_Z (completed_items s))%Q /\ (0 < e)%Q).
Proof.
  unfold eta_seconds, items_per_second, elapsed_time.
  split; [|split; [|split]].
  - intros [H|H]; rewrite H; simpl; [reflexivity|]. rewrite orb_true_r. reflexivity.
  - intros H1 H2 H3. rewrite (proj2 (Z.eqb_neq _ _) H1), (proj2 (Z.eqb_neq _ _) H2).
    simpl. rewrite (proj2 (Z.leb_le _ _)) by lia. reflexivity.
  - intros H1 ->. rewrite (proj2 (Z.eqb_neq _ _)) by lia.
    rewrite (proj2 (Z.eqb_neq (completed_items s) 0)) by lia. simpl.
    rewrite (proj2 (Z.leb_gt _ _)) by lia. rewrite Z.sub_diag. reflexivity.
  - intros H1 H2. rewrite (proj2 (Z.eqb_neq _ _)) by lia.
    rewrite (proj2 (Z.eqb_neq (completed_items s) 0)) by lia. simpl.
    rewrite (proj2 (Z.leb_gt _ _)) by lia.
    assert (Hq : Qeq_bool (inject_Z (now - start_time s)) 0 = false).
    { apply not_true_iff_false. intros Hb. apply Qeq_bool_iff in Hb.
      unfold Qeq in Hb. simpl in Hb. lia. }
    rewrite Hq. simpl.
    set (c := completed_items s). set (r := total_items s - c). set (d := now - start_time s).
    assert (Hpos : (0 < inject_Z c / inject_Z d)%Q).
    { apply Qlt_shift_div_l; [unfold Qlt; simpl; lia|]. unfold Qlt, Qmult; simpl. lia. }
    assert (Hr : Qle_bool (inject_Z c / inject_Z d) 0 = false).
    { apply not_true_iff_false. intros Hb. apply Qle_bool_iff in Hb.
      apply (Qlt_not_le _ _ Hpos Hb). }
    rewrite Hr. eexists. split; [reflexivity|]. split.
    + unfold Qdiv. rewrite inject_Z_mult. field.
      split; unfold Qeq; simpl; lia.
    + apply Qlt_shift_div_l; [exact Hpos|]. rewrite Qmult_0_l.
      unfold Qlt. simpl. unfold r, c in *. lia.
Qed.

Lemma eta_seconds_cases_witness :
  exists e, eta_seconds (mkStats 10 4 "ch" 100 100 0 0 0) 112 = Some e /\ (e == 18)%Q.
Proof.
  destruct (proj2 (proj2 (proj2 (eta_seconds_cases (mkStats 10 4 "ch" 100 100 0 0 0) 112)))
              ltac:(simpl; lia) ltac:(simpl; lia)) as (e & He & Hq & _).
  exists e. split; [exact He|]. rewrite Hq. vm_compute. reflexivity.
Defined.

End TrackerQueryFacts.

Module TTSTextFacts.
Import TTSText.
Local Open Scope nat_scope.

Lemma segments_nonempty s : segments s <> [].
Proof.
  induction s as [|c s IH]; simpl; [discriminate|].
  destruct (is_space c); [discriminate|]. destruct (segments s); [contradiction|discriminate].
Qed.

Lemma segments_app_space a c b :
  is_space c = true -> segments (a ++ c :: b) = segments a ++ segments b.
Proof.
  intros Hc. induction a as [|x a IH]; simpl.
  - rewrite Hc. reflexivity.
  - rewrite IH. destruct (is_space x); [reflexivity|].
    pose proof (segments_nonempty a) as Hn.
    destruct (segments a); [contradiction|reflexivity].
Qed.

Lemma py_split_app_space a c b :
  is_space c = true -> py_split (a ++ c :: b) = py_split a ++ py_split b.
Proof. intros Hc. unfold py_split. rewrite segments_app_space by exact Hc. apply List.filter_app. Qed.

Lemma py_split_cons_space c s : is_space c = true -> py_split (c :: s) = py_split s.
Proof. intros Hc. unfold py_split. simpl. rewrite Hc. reflexivity. Qed.

Lemma py_split_spaces s : Forall (fun c => is_space c = true) s -> py_split s = [].
Proof.
  induction 1 as [|c s Hc _ IH]; [reflexivity|]. rewrite py_split_cons_space by exact Hc. exact IH.
Qed.

Lemma py_split_app_spaces a sp :
  Forall (fun c => is_space c = true) sp -> py_split (a ++ sp) = py_split a.
Proof.
  intros Hsp. destruct sp as [|c sp]; [rewrite app_nil_r; reflexivity|].
  inversion Hsp as [|? ? Hc Hr]; subst.
  rewrite py_split_app_space by exact Hc. rewrite (py_split_spaces sp Hr). apply app_nil_r.
Qed.

Lemma lstrip_suffix s :
  exists pre, s = pre ++ lstrip s /\ Forall (fun c => is_space c = true) pre.
Proof.
  induction s as [|c s IH]; simpl; [exists []; auto|].
  destruct (is_space c) eqn:Hc.
  - destruct IH as (pre & Hs & Hf). exists (c :: pre). simpl. rewrite <- Hs. auto.
  - exists []. auto.
Qed.

Lemma lstrip_head s : lstrip s = [] \/ exists c t, lstrip s = c :: t /\ is_space c = false.
Proof.
  induction s as [|c s IH]; simpl; [auto|].
  destruct (is_space c) eqn:Hc; [exact IH|]. right. eauto.
Qed.

Lemma py_split_lstrip s : py_split (lstrip s) = py_split s.
Proof.
  destruct (lstrip_suffix s) as (pre & Hs & Hf). rewrite Hs at 2. clear Hs.
  induction Hf as [|c pre Hc _ IH]; [reflexivity|].
  simpl. rewrite py_split_cons_space by exact Hc. exact IH.
Qed.

Lemma py_split_strip s : py_split (py_strip s) = py_split s.
Proof.
  unfold py_strip, rstrip. rewrite <- (py_split_lstrip s).
  set (u := lstrip s).
  destruct (lstrip_suffix (rev u)) as (pre & Hs & Hf).
  assert (Hu : u = rev (lstrip (rev u)) ++ rev pre).
  { rewrite <- rev_app_distr, <- Hs, rev_involutive. reflexivity. }
  rewrite Hu at 2. rewrite py_split_app_spaces; [reflexivity|].
  apply Forall_rev. exact Hf.
Qed.

Definition starts_word (s : list ascii) : bool :=
  match s with c :: _ => negb (is_space c) | [] => false end.

Lemma py_split_cons_congr c x y :
  starts_word x = starts_word y -> py_split x = py_split y ->
  py_split (c :: x) = py_split (c :: y).
Proof.
  intros Hs Hw. destruct (is_space c) eqn:Hc.
  - rewrite !py_split_cons_space by exact Hc. exact Hw.
  - unfold py_split in *. simpl. rewrite Hc.
    assert (Hgen : forall z, List.filter nonempty (cons_head c (segments z)) =
      if starts_word z then
        match List.filter nonempty (segments z) with
        | w :: r => (c :: w) :: r | [] => [[c]] end
      else [c] :: List.filter nonempty (segments z)).
    { intros [|d z]; [reflexivity|]. simpl.
      destruct (is_space d) eqn:Hd; simpl; [reflexivity|].
      pose proof (segments_nonempty z) as Hn.
      destruct (segments z) as [|w r]; [contradiction|reflexivity]. }
    rewrite !Hgen, Hs, Hw. reflexivity.
Qed.

(** Joining pieces back with one space each. *)
Fixpoint join_space (l : list (list ascii)) : list ascii :=
  match l with
  | [] => []
  | [w] => w
  | w :: r => w ++ space :: join_space r
  end.

Lemma join_space_cons_head c l : l <> [] -> join_space (cons_head c l) = c :: join_space l.
Proof. intros Hl. destruct l as [|w [|v r]]; [contradiction|reflexivity|reflexivity]. Qed.

Lemma py_split_join_space l : py_split (join_space l) = concat (map py_split l).
Proof.
  induction l as [|w [|v r] IH].
  - reflexivity.
  - simpl. rewrite app_nil_r. reflexivity.
  - change (py_split (w ++ space :: join_space (v :: r)) =
            py_split w ++ concat (map py_split (v :: r))).
    rewrite py_split_app_space by reflexivity. rewrite IH. reflexivity.
Qed.

Lemma split_sentences_nonempty ae is s : split_sentences_from ae is s <> [].
Proof.
  revert ae is. induction s as [|c s IH]; intros ae is; simpl; [discriminate|].
  destruct (is && is_space c); [apply IH|].
  destruct (ae && is_space c); [discriminate|].
  pose proof (IH (is_sentence_end c) false) as Hn.
  destruct (split_sentences_from _ false s); [contradiction|discriminate].
Qed.

Lemma split_sentences_words ae is s :
  py_split (join_space (split_sentences_from ae is s)) = py_split s /\
  (is = false -> starts_word (join_space (split_sentences_from ae is s)) = starts_word s).
Proof.
  revert ae is. induction s as [|c s IH]; intros ae is; simpl; [auto|].
  destruct (is && is_space c) eqn:H1.
  - apply andb_true_iff in H1 as [-> Hc]. split; [|discriminate].
    rewrite py_split_cons_space by exact Hc. apply IH.
  - destruct (ae && is_space c) eqn:H2.
    + apply andb_true_iff in H2 as [_ Hc].
      pose proof (split_sentences_nonempty false true s) as Hn.
      destruct (split_sentences_from false true s) as [|w r] eqn:E; [contradiction|].
      split.
      * change (py_split (space :: join_space (w :: r)) = py_split (c :: s)).
        rewrite (py_split_cons_space space) by reflexivity.
        rewrite (py_split_cons_space c s Hc).
        rewrite <- E. apply (IH false true).
      * intros _. change (starts_word (space :: join_space (w :: r)) = starts_word (c :: s)).
        simpl. rewrite Hc. reflexivity.
    + rewrite join_space_cons_head by apply split_sentences_nonempty.
      destruct (IH (is_sentence_end c) false) as [Hw Hs].
      split; [|intros _; reflexivity].
      apply py_split_cons_congr; [apply Hs; reflexivity|exact Hw].
Qed.

(** The sentences of [split_sentences] hold the words of the text, in order. *)
Lemma split_sentences_concat text :
  concat (map py_split (split_sentences text)) = py_split text.
Proof.
  rewrite <- py_split_join_space. apply (split_sentences_words false false text).
Qed.

Lemma segments_no_space s :
  Forall (fun w => Forall (fun c => is_space c = false) w /\ length w <= length s) (segments s).
Proof.
  induction s as [|c s IH]; simpl.
  - repeat constructor.
  - destruct (is_space c) eqn:Hc.
    + constructor; [split; [constructor|simpl; lia]|].
      eapply Forall_impl; [exact IH|]. intros w [H1 H2]. split; [exact H1|lia].
    + pose proof (segments_nonempty s) as Hn.
      destruct (segments s) as [|w r]; [contradiction|].
      inversion IH as [|? ? [Hw Hl] Hr]; subst. simpl.
      constructor; [split; [constructor; assumption|simpl; lia]|].
      eapply Forall_impl; [exact Hr|]. intros v [H1 H2]. split; [exact H1|lia].
Qed.

Definition is_word (w : list ascii) : Prop :=
  w <> [] /\ Forall (fun c => is_space c = false) w.

Lemma py_split_words s :
  Forall (fun w => is_word w /\ length w <= length s) (py_split s).
Proof.
  unfold py_split. pose proof (segments_no_space s) as Hs.
  induction (segments s) as [|w r IH]; simpl; [constructor|].
  inversion Hs as [|? ? [H1 H2] Hr]; subst.
  destruct (nonempty w) eqn:Hne; [|apply IH, Hr].
  constructor; [|apply IH, Hr].
  split; [split; [|exact H1]|exact H2]. destruct w; discriminate.
Qed.

Lemma py_split_word w : is_word w -> py_split w = [w].
Proof.
  intros [Hne Hf]. unfold py_split.
  assert (Hs : segments w = [w]).
  { clear Hne. induction Hf as [|c w Hc _ IH]; [reflexivity|].
    simpl. rewrite Hc, IH. reflexivity. }
  rewrite Hs. destruct w; [contradiction|reflexivity].
Qed.

Lemma py_split_join_word t w :
  is_word w -> py_split (if nonempty t then t ++ space :: w else w) = py_split t ++ [w].
Proof.
  intros Hw. destruct t as [|x t].
  - apply py_split_word, Hw.
  - change (py_split ((x :: t) ++ space :: w) = py_split (x :: t) ++ [w]).
    rewrite (py_split_app_space (x :: t) space w) by reflexivity.
    rewrite (py_split_word w Hw). reflexivity.
Qed.

Definition words_of (chunks : list (list ascii)) (cur : list ascii) : list (list ascii) :=
  concat (map py_split chunks) ++ py_split cur.

Lemma words_of_snoc chunks c cur :
  words_of (chunks ++ [c]) cur = concat (map py_split chunks) ++ py_split c ++ py_split cur.
Proof. unfold words_of. rewrite map_app, concat_app. simpl. rewrite app_nil_r, app_assoc. reflexivity. Qed.

Lemma word_loop_words max ws temp chunks :
  Forall (fun w => is_word w /\ length w <= max) ws ->
  let '(chunks', temp') := word_loop max ws temp chunks in
  words_of chunks' temp' = words_of chunks temp ++ ws.
Proof.
  revert temp chunks. induction ws as [|w ws IH]; intros temp chunks Hws; simpl.
  - rewrite app_nil_r. reflexivity.
  - inversion Hws as [|? ? [Hw Hl] Hr]; subst.
    destruct (Nat.ltb max (length temp + length w + 1)).
    + destruct (nonempty temp) eqn:Ht.
      * specialize (IH w (chunks ++ [py_strip temp]) Hr).
        destruct (word_loop _ _ _ _) as [c' t']. rewrite IH.
        rewrite words_of_snoc, py_split_strip, (py_split_word w Hw).
        unfold words_of. rewrite <- !app_assoc. reflexivity.
      * specialize (IH temp (chunks ++ [take max w]) Hr).
        destruct (word_loop _ _ _ _) as [c' t']. rewrite IH.
        rewrite take_ge by exact Hl.
        destruct temp; [|discriminate].
        rewrite words_of_snoc, (py_split_word w Hw).
        unfold words_of. simpl. rewrite !app_nil_r, <- app_assoc. reflexivity.
    + specialize (IH (if nonempty temp then temp ++ space :: w else w) chunks Hr).
      destruct (word_loop _ _ _ _) as [c' t']. rewrite IH.
      unfold words_of. rewrite py_split_join_word by exact Hw. rewrite <- !app_assoc. reflexivity.
Qed.

Lemma sentence_loop_words max ss cur chunks :
  Forall (fun s => Forall (fun w => length w <= max) (py_split s)) ss ->
  let '(chunks', cur') := sentence_loop max ss cur chunks in
  words_of chunks' cur' = words_of chunks cur ++ concat (map py_split ss).
Proof.
  revert cur chunks. induction ss as [|s ss IH]; intros cur chunks Hss; simpl.
  - rewrite app_nil_r. reflexivity.
  - inversion Hss as [|? ? Hs Hr]; subst.
    destruct (Nat.ltb max (length cur + length s + 1)).
    + destruct (nonempty cur) eqn:Hc.
      * specialize (IH s (chunks ++ [py_strip cur]) Hr).
        destruct (sentence_loop _ _ _ _) as [c' t']. rewrite IH.
        rewrite words_of_snoc, py_split_strip. unfold words_of. rewrite <- !app_assoc. reflexivity.
      * destruct cur; [|discriminate].
        assert (Hw : Forall (fun w => is_word w /\ length w <= max) (py_split s)).
        { apply Forall_and; split; [|exact Hs].
          eapply Forall_impl; [apply py_split_words|]. intros w [H _]. exact H. }
        pose proof (word_loop_words max (py_split s) [] chunks Hw) as Hwl.
        destruct (word_loop _ _ _ _) as [c1 t1].
        specialize (IH (if nonempty t1 then t1 else []) c1 Hr).
        destruct (sentence_loop _ _ _ _) as [c' t']. rewrite IH.
        assert (Ht : (if nonempty t1 then t1 else []) = t1) by (destruct t1; reflexivity).
        rewrite Ht, Hwl. unfold words_of. simpl. rewrite <- !app_assoc. reflexivity.
    + specialize (IH (if nonempty cur then cur ++ space :: s else s) chunks Hr).
      destruct (sentence_loop _ _ _ _) as [c' t']. rewrite IH.
      assert (Hj : py_split (if nonempty cur then cur ++ space :: s else s) =
                   py_split cur ++ py_split s).
      { destruct cur as [|x cur]; [reflexivity|].
        change (py_split ((x :: cur) ++ space :: s) = py_split (x :: cur) ++ py_split s).
        apply (py_split_app_space (x :: cur) space s). reflexivity. }
      unfold words_of. rewrite Hj. rewrite <- !app_assoc. reflexivity.
Qed.

Lemma filter_strip_words chunks :
  concat (map py_split (List.filter (fun c => nonempty (py_strip c)) chunks)) =
  concat (map py_split chunks).
Proof.
  induction chunks as [|c chunks IH]; [reflexivity|]. simpl.
  destruct (nonempty (py_strip c)) eqn:Hc; simpl; rewrite IH; [reflexivity|].
  rewrite <- py_split_strip. destruct (py_strip c); [reflexivity|discriminate].
Qed.

(** ** Extra properties *)

(** X7: when no word of the text is longer than [max_length],
    [_split_text_for_synthesis] loses no word: the words of the chunks,
    in order, are exactly the words of the text. *)
Theorem split_text_keeps_words text max_length :
  Forall (fun w => length w <= max_length) (py_split text) ->
  concat (map py_split (split_text_for_synthesis text max_length)) = py_split text.
Proof.
  intros Hw. unfold split_text_for_synthesis.
  assert (Hss : Forall (fun s => Forall (fun w => length w <= max_length) (py_split s))
                  (split_sentences text)).
  { rewrite <- split_sentences_concat in Hw.
    apply Forall_forall. intros s Hs. rewrite Forall_concat, Forall_map in Hw.
    rewrite Forall_forall in Hw. apply Hw, Hs. }
  pose proof (sentence_loop_words max_length (split_sentences text) [] [] Hss) as H.
  destruct (sentence_loop _ _ _ _) as [chunks cur].
  rewrite filter_strip_words.
  unfold words_of in H. simpl in H. rewrite split_sentences_concat in H.
  destruct (nonempty cur) eqn:Hc.
  - rewrite map_app, concat_app. simpl. rewrite app_nil_r, py_split_strip. exact H.
  - destruct cur; [|discriminate]. simpl in H. rewrite app_nil_r in H. exact H.
Qed.

Lemma split_text_keeps_words_witness :
  Forall (fun w => length w <= 12)
    (py_split (String.list_ascii_of_string "Hello there. How are you? Fine.")) /\
  concat (map py_split (split_text_for_synthesis
            (String.list_ascii_of_string "Hello there. How are you? Fine.") 12)) =
  py_split (String.list_ascii_of_string "Hello there. How are you? Fine.").
Proof.
  split; [apply (bool_decide_unpack _); vm_compute; reflexivity|].
  apply split_text_keeps_words. apply (bool_decide_unpack _); vm_compute; reflexivity.
Defined.

Lemma length_lstrip s : length (lstrip s) <= length s.
Proof. destruct (lstrip_suffix s) as (pre & Hs & _). rewrite Hs at 2. rewrite length_app. lia. Qed.

Lemma length_strip s : length (py_strip s) <= length s.
Proof.
  unfold py_strip, rstrip. rewrite length_rev.
  pose proof (length_lstrip (rev (lstrip s))) as H1. rewrite length_rev in H1.
  pose proof (length_lstrip s). lia.
Qed.

Lemma word_loop_length max ws temp chunks :
  Forall (fun w => length w <= max) ws -> length temp <= max ->
  Forall (fun c => length c <= max) chunks ->
  let '(chunks', temp') := word_loop max ws temp chunks in
  Forall (fun c => length c <= max) chunks' /\ length temp' <= max.
Proof.
  revert temp chunks. induction ws as [|w ws IH]; intros temp chunks Hws Ht Hc; simpl; [auto|].
  inversion Hws as [|? ? Hw Hr]; subst.
  destruct (Nat.ltb_spec max (length temp + length w + 1)).
  - destruct (nonempty temp).
    + apply IH; [exact Hr|exact Hw|].
      apply Forall_app; split; [exact Hc|]. constructor; [|constructor].
      pose proof (length_strip temp). lia.
    + apply IH; [exact Hr|exact Ht|].
      apply Forall_app; split; [exact Hc|]. constructor; [|constructor].
      rewrite length_take. lia.
  - apply IH; [exact Hr| |exact Hc].
    destruct (nonempty temp); [rewrite length_app; simpl|]; lia.
Qed.

Lemma sentence_loop_length max ss cur chunks :
  Forall (fun s => length s <= max) ss -> length cur <= max ->
  Forall (fun c => length c <= max) chunks ->
  let '(chunks', cur') := sentence_loop max ss cur chunks in
  Forall (fun c => length c <= max) chunks' /\ length cur' <= max.
Proof.
  revert cur chunks. induction ss as [|s ss IH]; intros cur chunks Hss Hcur Hc; simpl; [auto|].
  inversion Hss as [|? ? Hs Hr]; subst.
  destruct (Nat.ltb_spec max (length cur + length s + 1)).
  - destruct (nonempty cur) eqn:Hne.
    + apply IH; [exact Hr|exact Hs|].
      apply Forall_app; split; [exact Hc|]. constructor; [|constructor].
      pose proof (length_strip cur). lia.
    + assert (Hw : Forall (fun w => length w <= max) (py_split s)).
      { eapply Forall_impl; [apply py_split_words|]. intros w [_ Hl]. lia. }
      pose proof (word_loop_length max (py_split s) [] chunks Hw ltac:(simpl; lia) Hc) as Hwl.
      destruct (word_loop _ _ _ _) as [c1 t1]. destruct Hwl as [Hc1 Ht1].
      apply IH; [exact Hr| |exact Hc1]. destruct (nonempty t1); lia.
  - apply IH; [exact Hr| |exact Hc].
    destruct (nonempty cur); [rewrite length_app; simpl|]; lia.
Qed.

Lemma lstrip_idem s : lstrip (lstrip s) = lstrip s.
Proof.
  destruct (lstrip_head s) as [->|(c & t & -> & Hc)]; [reflexivity|]. simpl. rewrite Hc. reflexivity.
Qed.

Lemma py_strip_idem s : py_strip (py_strip s) = py_strip s.
Proof.
  unfold py_strip, rstrip.
  set (u := lstrip s). set (v := lstrip (rev u)).
  assert (Hv : lstrip (rev v) = rev v).
  { destruct (lstrip_suffix (rev u)) as (pre & Hs & _). fold v in Hs.
    assert (Hu : u = rev v ++ rev pre).
    { rewrite <- rev_app_distr, <- Hs, rev_involutive. reflexivity. }
    destruct (rev v) as [|c t] eqn:E; [reflexivity|].
    destruct (lstrip_head s) as [Hn|(d & t' & Hd & Hsd)].
    - fold u in Hn. rewrite Hn in Hu. discriminate.
    - fold u in Hd. rewrite Hd in Hu. simpl in Hu. injection Hu as <- _.
      simpl. rewrite Hsd. reflexivity. }
  rewrite Hv, rev_involutive. unfold v at 1. rewrite lstrip_idem. reflexivity.
Qed.

Lemma py_strip_no_space w : Forall (fun c => is_space c = false) w -> py_strip w = w.
Proof.
  intros Hw.
  assert (Hl : forall x, Forall (fun c => is_space c = false) x -> lstrip x = x).
  { intros [|c x] Hx; [reflexivity|]. inversion Hx; subst. simpl.
    match goal with H : is_space c = false |- _ => rewrite H end. reflexivity. }
  unfold py_strip, rstrip. rewrite (Hl w Hw), Hl; [apply rev_involutive|].
  apply Forall_rev, Hw.
Qed.

Definition stripped (c : list ascii) : Prop := py_strip c = c.

Lemma word_loop_stripped max ws temp chunks :
  Forall is_word ws -> Forall stripped chunks ->
  Forall stripped (fst (word_loop max ws temp chunks)).
Proof.
  revert temp chunks. induction ws as [|w ws IH]; intros temp chunks Hws Hc; simpl; [exact Hc|].
  inversion Hws as [|? ? [_ Hw] Hr]; subst.
  destruct (Nat.ltb max _); [destruct (nonempty temp)|]; apply IH; try exact Hr;
    try exact Hc; apply Forall_app; (split; [exact Hc|]); constructor; try constructor.
  - apply py_strip_idem.
  - apply py_strip_no_space, Forall_take, Hw.
Qed.

Lemma sentence_loop_stripped max ss cur chunks :
  Forall stripped chunks -> Forall stripped (fst (sentence_loop max ss cur chunks)).
Proof.
  revert cur chunks. induction ss as [|s ss IH]; intros cur chunks Hc; simpl; [exact Hc|].
  destruct (Nat.ltb max _); [destruct (nonempty cur)|].
  - apply IH. apply Forall_app; split; [exact Hc|]. constructor; [apply py_strip_idem|constructor].
  - assert (Hw : Forall is_word (py_split s)).
    { eapply Forall_impl; [apply py_split_words|]. intros w [H _]. exact H. }
    pose proof (word_loop_stripped max (py_split s) [] chunks Hw Hc) as Hwl.
    destruct (word_loop _ _ _ _) as [c1 t1]. apply IH, Hwl.
  - apply IH, Hc.
Qed.

(** X8: when every sentence of the text (as split by the sentence regex)
    is at most [max_length] characters long, every chunk is at most
    [max_length] characters long. *)
Theorem split_text_chunk_length text max_length :
  Forall (fun s => length s <= max_length) (split_sentences text) ->
  Forall (fun c => length c <= max_length) (split_text_for_synthesis text max_length).
Proof.
  intros Hs. unfold split_text_for_synthesis.
  pose proof (sentence_loop_length max_length (split_sentences text) [] []
                Hs ltac:(simpl; lia) (Forall_nil_2 _)) as H.
  destruct (sentence_loop _ _ _ _) as [chunks cur]. destruct H as [Hc Hcur].
  apply Forall_forall. intros c Hin. apply list_elem_of_In, filter_In in Hin as [Hin _]. apply list_elem_of_In in Hin.
  revert c Hin. apply Forall_forall.
  destruct (nonempty cur); [|exact Hc].
  apply Forall_app; split; [exact Hc|]. constructor; [|constructor].
  pose proof (length_strip cur). lia.
Qed.

Lemma split_text_chunk_length_witness :
  Forall (fun s => length s <= 12)
    (split_sentences (String.list_ascii_of_string "Hello there. How are you? Fine.")) /\
  Forall (fun c => length c <= 12)
    (split_text_for_synthesis (String.list_ascii_of_string "Hello there. How are you? Fine.") 12).
Proof.
  split; [apply (bool_decide_unpack _); vm_compute; reflexivity|].
  apply split_text_chunk_length. apply (bool_decide_unpack _); vm_compute; reflexivity.
Defined.

(** X9: every chunk returned by [_split_text_for_synthesis] is non-empty
    and has no leading or trailing whitespace, for any text and any
    [max_length]. *)
Lemma split_text_nonempty_stripped text max_length :
  Forall (fun c => c <> [] /\ py_strip c = c) (split_text_for_synthesis text max_length).
Proof.
  unfold split_text_for_synthesis.
  pose proof (sentence_loop_stripped max_length (split_sentences text) [] [] (Forall_nil_2 _)) as H.
  destruct (sentence_loop _ _ _ _) as [chunks cur]. simpl in H.
  assert (Hall : Forall stripped (if nonempty cur then chunks ++ [py_strip cur] else chunks)).
  { destruct (nonempty cur); [|exact H].
    apply Forall_app; split; [exact H|]. constructor; [apply py_strip_idem|constructor]. }
  apply Forall_forall. intros c Hin. apply list_elem_of_In, filter_In in Hin as [Hin Hne]. apply list_elem_of_In in Hin.
  rewrite Forall_forall in Hall. pose proof (Hall c Hin) as Hs. unfold stripped in Hs.
  split; [|exact Hs]. intros ->. discriminate.
Qed.

Lemma py_strip_forall (P : ascii -> Prop) s : Forall P s -> Forall P (py_strip s).
Proof.
  assert (Hl : forall x, Forall P x -> Forall P (lstrip x)).
  { intros x Hx. destruct (lstrip_suffix x) as (pre & Hs & _).
    rewrite Hs in Hx. apply Forall_app in Hx. apply Hx. }
  intros H. unfold py_strip, rstrip. apply Forall_rev, Hl, Forall_rev, Hl, H.
Qed.

(** X9: every chunk returned by [_split_text_for_synthesis] is non-empty
    and has no leading or trailing whitespace, for any text and any
    [max_length]. *)
Theorem split_text_chunks_stripped text max_length :
  Forall (fun c => c <> [] /\ py_strip c = c) (split_text_for_synthesis text max_length).
Proof. apply split_text_nonempty_stripped. Qed.

End TTSTextFacts.

Module DirectKokoroFacts.
Import Tracker Batch BatchFacts TTSText TTSTextFacts DirectKokoro.
Local Open Scope nat_scope.

(** The characters [_clean_text_for_tts] may leave: word characters, the
    kept punctuation and the plain space. *)
Definition clean_char (c : ascii) : bool :=
  is_word_char c || kept_punct c || Ascii.eqb c space.

Lemma collapse_ws_spaces b s :
  Forall (fun c => is_space c = false \/ c = space) (collapse_ws b s).
Proof.
  revert b. induction s as [|c s IH]; intros b; simpl; [constructor|].
  destruct (is_space c) eqn:Hc; [destruct b|]; auto.
Qed.

Lemma replace_bad_clean s :
  Forall (fun c => is_space c = false \/ c = space) s ->
  Forall (fun c => clean_char c = true) (map replace_bad s).
Proof.
  intros H. apply Forall_map. eapply Forall_impl; [exact H|]. intros c Hc.
  unfold replace_bad, clean_char.
  destruct (is_word_char c) eqn:Hw; simpl; [rewrite Hw; reflexivity|].
  destruct (is_space c) eqn:Hs; simpl.
  - destruct Hc as [Hc| ->]; [congruence|reflexivity].
  - destruct (kept_punct c) eqn:Hk; simpl; [rewrite Hw, Hk; reflexivity|reflexivity].
Qed.

Lemma squeeze_forall (P : ascii -> Prop) ch k repl n s :
  P ch -> Forall P repl -> Forall P s -> Forall P (squeeze ch k repl n s).
Proof.
  intros Hch Hr. revert n. induction s as [|c s IH]; intros n Hs; simpl;
    unfold flush_run.
  - destruct (k <=? n); [exact Hr|]. apply Forall_forall. intros x Hx.
    apply list_elem_of_In, repeat_spec in Hx. subst x. exact Hch.
  - inversion Hs as [|? ? Hc Hs']; subst.
    destruct (Ascii.eqb c ch); [apply IH, Hs'|].
    apply Forall_app; split; [|constructor; [exact Hc|apply IH, Hs']].
    destruct (k <=? n); [exact Hr|]. apply Forall_forall. intros x Hx.
    apply list_elem_of_In, repeat_spec in Hx. subst x. exact Hch.
Qed.

Lemma space_caps_forall (P : ascii -> Prop) pend s :
  P space -> Forall P s ->
  (forall p ws, pend = Some (p, ws) -> P p /\ Forall P ws) ->
  Forall P (space_caps pend s).
Proof.
  intros Hsp. revert pend. induction s as [|c s IH]; intros pend Hs Hp; simpl.
  - destruct pend as [[p ws]|]; [|constructor].
    destruct (Hp p ws eq_refl). constructor; assumption.
  - inversion Hs as [|? ? Hc Hs']; subst.
    destruct pend as [[p ws]|].
    + destruct (Hp p ws eq_refl) as [Hpp Hws].
      destruct (is_space c); [|destruct (is_upper c); [|destruct (is_sentence_end c)]].
      * apply IH; [exact Hs'|]. intros p' ws' [= <- <-].
        split; [exact Hpp|]. apply Forall_app; split; [exact Hws|constructor; [exact Hc|constructor]].
      * repeat constructor; try assumption. apply IH; [exact Hs'|discriminate].
      * constructor; [exact Hpp|]. apply Forall_app; split; [exact Hws|].
        apply IH; [exact Hs'|]. intros p' ws' [= <- <-]. split; [exact Hc|constructor].
      * constructor; [exact Hpp|]. apply Forall_app; split; [exact Hws|].
        constructor; [exact Hc|]. apply IH; [exact Hs'|discriminate].
    + destruct (is_sentence_end c).
      * apply IH; [exact Hs'|]. intros p' ws' [= <- <-]. split; [exact Hc|constructor].
      * constructor; [exact Hc|]. apply IH; [exact Hs'|discriminate].
Qed.

(** X10: [_clean_text_for_tts] returns text made only of word
    characters, the punctuation [. , ! ? ; : - '], double quotes and
    plain spaces (no tab, newline or other character survives), with no
    leading or trailing whitespace. *)
Theorem clean_text_charset text :
  Forall (fun c => clean_char c = true) (clean_text_for_tts text) /\
  py_strip (clean_text_for_tts text) = clean_text_for_tts text.
Proof.
  split; [|apply py_strip_idem].
  unfold clean_text_for_tts. apply py_strip_forall, space_caps_forall;
    [reflexivity| |discriminate].
  repeat (apply squeeze_forall; [reflexivity|repeat constructor|]).
  apply replace_bad_clean, collapse_ws_spaces.
Qed.

Section Direct.
Variable load_voice : nat -> Exc unit.
Variable g2p : nat -> list ascii -> Exc nat.
Variable infer : nat -> list ascii -> Exc (list Z).
Variable resample : list Z -> Q -> Exc (list Z).

Let audio_of (ic : nat * list ascii) : option (list Z) :=
  chunk_audio load_voice g2p infer (fst ic) (snd ic).

Lemma chunk_fold ics segs failed :
  Forall (fun ic => snd ic <> [] /\ py_strip (snd ic) = snd ic) ics ->
  fold_left (chunk_step load_voice g2p infer) ics (segs, failed) =
  (segs ++ omap audio_of ics, failed + length (List.filter (fun ic => bool_decide (audio_of ic = None)) ics)).
Proof.
  revert segs failed. induction ics as [|[i c] ics IH]; intros segs failed H; simpl.
  - rewrite app_nil_r, Nat.add_0_r. reflexivity.
  - inversion H as [|? ? [Hne Hs] Hr]; subst. simpl in Hne, Hs.
    rewrite Hs. destruct c as [|x c]; [contradiction|]. simpl nonempty. cbv iota.
    unfold audio_of at 1 3. simpl fst. simpl snd.
    destruct (chunk_audio load_voice g2p infer i (x :: c)) as [a|] eqn:Ha.
    + assert (Hao : audio_of (i, x :: c) = Some a) by exact Ha.
      rewrite IH by exact Hr. rewrite <- app_assoc.
      rewrite bool_decide_false by (rewrite Hao; discriminate). reflexivity.
    + assert (Hao : audio_of (i, x :: c) = None) by exact Ha.
      rewrite IH by exact Hr. rewrite bool_decide_true by exact Hao. simpl.
      f_equal. lia.
Qed.

Lemma length_omap_filter ics :
  length (omap audio_of ics) +
  length (List.filter (fun ic => bool_decide (audio_of ic = None)) ics) = length ics.
Proof.
  induction ics as [|ic ics IH]; simpl; [reflexivity|].
  destruct (audio_of ic) eqn:E;
    [rewrite bool_decide_false by congruence|rewrite bool_decide_true by congruence];
    simpl; change (list_omap _ _ audio_of ics) with (omap audio_of ics); lia.
Qed.

Lemma forall_zip_snd {A B} (P : B -> Prop) (l1 : list A) (l2 : list B) :
  Forall P l2 -> Forall (fun ab => P ab.2) (zip l1 l2).
Proof.
  revert l1. induction l2 as [|b l2 IH]; intros [|a l1] H; simpl; try constructor.
  - inversion H; assumption.
  - apply IH. inversion H; assumption.
Qed.

(** X11: on a cleaned text longer than 500 characters,
    [_try_direct_kokoro] synthesises every chunk of
    [_split_text_for_synthesis] (none is skipped as empty), counts as
    failed exactly the chunks whose synthesis failed, raises
    [RuntimeError] with the chunk count when no chunk succeeded, and
    otherwise returns the successful segments concatenated in chunk
    order (speed-adjusted). *)
Theorem try_direct_kokoro_chunked text speed :
  max_chunk_length < length (clean_text_for_tts text) ->
  let chunks := split_text_for_synthesis (clean_text_for_tts text) max_chunk_length in
  let segs := omap (fun ic => chunk_audio load_voice g2p infer ic.1 ic.2) (enumerate chunks) in
  chunk_loop load_voice g2p infer chunks = (segs, length chunks - length segs) /\
  try_direct_kokoro load_voice g2p infer resample text speed =
    match segs with
    | [] => Raise (Kokoro.runtime_error (no_segments_msg (length chunks)))
    | _ => adjust_speed resample speed (concat segs)
    end.
Proof.
  intros Hlen chunks segs.
  assert (Hl : chunk_loop load_voice g2p infer chunks = (segs, length chunks - length segs)).
  { unfold chunk_loop.
    rewrite (chunk_fold (enumerate chunks) [] 0).
    2: { apply (forall_zip_snd (fun c => c <> [] /\ py_strip c = c)), split_text_nonempty_stripped. }
    pose proof (length_omap_filter (enumerate chunks)) as Hc.
    rewrite length_enumerate in Hc. unfold segs. f_equal. unfold audio_of in *. lia. }
  split; [exact Hl|].
  unfold try_direct_kokoro. fold chunks.
  apply Nat.ltb_lt in Hlen. rewrite Hlen. rewrite Hl. reflexivity.
Qed.

End Direct.

Definition sample_load_voice (i : nat) : Exc unit := Ok tt.
Definition sample_g2p (i : nat) (c : list ascii) : Exc nat := Ok (length c).
Definition sample_infer (i : nat) (c : list ascii) : Exc (list Z) :=
  if i =? 1 then Raise (mkExc "IndexError" "index out of range") else Ok [Z.of_nat (length c)].
Definition sample_resample (a : list Z) (speed : Q) : Exc (list Z) := Ok a.
Definition sample_text : list ascii :=
  concat (repeat (String.list_ascii_of_string "Hello world. ") 50).

Lemma try_direct_kokoro_chunked_witness :
  max_chunk_length < length (clean_text_for_tts sample_text) /\
  (let chunks := split_text_for_synthesis (clean_text_for_tts sample_text) max_chunk_length in
   let segs := omap (fun ic => chunk_audio sample_load_voice sample_g2p sample_infer ic.1 ic.2)
                 (enumerate chunks) in
   chunk_loop sample_load_voice sample_g2p sample_infer chunks = (segs, length chunks - length segs) /\
   try_direct_kokoro sample_load_voice sample_g2p sample_infer sample_resample sample_text 1 =
     match segs with
     | [] => Raise (Kokoro.runtime_error (no_segments_msg (length chunks)))
     | _ => adjust_speed sample_resample 1 (concat segs)
     end).
Proof.
  assert (H : max_chunk_length < length (clean_text_for_tts sample_text)).
  { apply Nat.ltb_lt. vm_compute. reflexivity. }
  split; [exact H|]. exact (try_direct_kokoro_chunked _ _ _ _ sample_text 1 H).
Defined.

End DirectKokoroFacts.

Module ChaptersFacts.
Import Batch BatchFacts TTSText Chapters.
Local Open Scope nat_scope.

Definition digit_val (c : ascii) : nat := nat_of_ascii c - 48.

(** [int(s)] of a string of decimal digits. *)
Definition value (l : list ascii) : nat := fold_left (fun v c => v * 10 + digit_val c) l 0.

Lemma value_snoc l c : value (l ++ [c]) = value l * 10 + digit_val c.
Proof. unfold value. rewrite fold_left_app. reflexivity. Qed.

Lemma digit_code k : k < 10 -> nat_of_ascii (digit k) = 48 + k.
Proof. intros Hk. unfold digit. apply nat_ascii_embedding. lia. Qed.

Lemma value_dec_go f n : n < f -> value (dec_go f n) = n.
Proof.
  revert n. induction f as [|f IH]; intros n Hn; [lia|]. cbn [dec_go].
  rewrite value_snoc. unfold digit_val.
  rewrite digit_code by (apply Nat.mod_upper_bound; lia).
  destruct (Nat.ltb_spec n 10).
  - rewrite Nat.mod_small by lia. cbn. lia.
  - rewrite IH.
    + pose proof (Nat.div_mod_eq n 10). lia.
    + assert (n / 10 < n) by (apply Nat.div_lt; lia). lia.
Qed.

Lemma value_pad3 n : value (pad3 n) = n.
Proof.
  unfold pad3, dec.
  destruct (n <? 10); [|destruct (n <? 100)];
    (etransitivity; [|apply (value_dec_go (S n) n); lia]); reflexivity.
Qed.

Lemma dec_go_no_underscore f n : Forall (fun c => c <> "_"%char) (dec_go f n).
Proof.
  revert n. induction f as [|f IH]; intros n; cbn [dec_go]; [constructor|].
  apply Forall_app; split; [destruct (n <? 10); [constructor|apply IH]|].
  constructor; [|constructor]. intros He.
  pose proof (digit_code (n mod 10) ltac:(apply Nat.mod_upper_bound; lia)) as Hd.
  rewrite He in Hd. change (nat_of_ascii "_"%char) with 95 in Hd. pose proof (Nat.mod_upper_bound n 10). lia.
Qed.

Lemma pad3_no_underscore n : Forall (fun c => c <> "_"%char) (pad3 n).
Proof.
  unfold pad3, dec. pose proof (dec_go_no_underscore (S n) n).
  destruct (n <? 10); [|destruct (n <? 100)];
    repeat (constructor; [discriminate|]); assumption.
Qed.

Lemma app_sep_inv {A} (x : A) l1 r1 l2 r2 :
  Forall (fun c => c <> x) l1 -> Forall (fun c => c <> x) l2 ->
  l1 ++ x :: r1 = l2 ++ x :: r2 -> l1 = l2 /\ r1 = r2.
Proof.
  revert l2. induction l1 as [|a l1 IH]; intros [|b l2] H1 H2 He; simpl in He.
  - injection He as ->. auto.
  - injection He as -> _. inversion H2; congruence.
  - injection He as -> _. inversion H1; congruence.
  - injection He as -> He. inversion H1; inversion H2; subst.
    destruct (IH l2) as [-> ->]; auto.
Qed.

Lemma chapter_chunk_id_inj n m t1 t2 :
  chapter_chunk_id n t1 = chapter_chunk_id m t2 -> n = m /\ clean_title t1 = clean_title t2.
Proof.
  unfold chapter_chunk_id. intros He. apply app_inv_head in He.
  apply app_sep_inv in He as [Hp Ht]; [|apply pad3_no_underscore..].
  split; [|exact Ht]. rewrite <- (value_pad3 n), <- (value_pad3 m), Hp. reflexivity.
Qed.

Lemma nodup_map_refine {A B C} (f : A -> B) (g : A -> C) l :
  (forall x y, g x = g y -> f x = f y) -> NoDup (map f l) -> NoDup (map g l).
Proof.
  intros Hfg. induction l as [|a l IH]; simpl; intros Hn; [constructor|].
  apply NoDup_cons in Hn as [Hni Hn]. constructor; [|auto].
  intros Hin. apply Hni. apply list_elem_of_In, in_map_iff in Hin as (y & Hy & Hiny).
  apply list_elem_of_In, in_map_iff. exists y. split; [apply Hfg; congruence|exact Hiny].
Qed.

(** X12: [clean_title] in [process_chapters] keeps only letters, digits,
    [-] and [_] (spaces become [_]) and is at most 20 characters long. *)
Theorem clean_title_safe chapter_title :
  Forall (fun c => is_alnum c = true \/ c = "-"%char \/ c = "_"%char) (clean_title chapter_title) /\
  length (clean_title chapter_title) <= 20.
Proof.
  unfold clean_title. split; [|rewrite length_take; lia].
  apply Forall_take, Forall_map, Forall_forall. intros c Hin.
  apply list_elem_of_In, filter_In in Hin as [_ Hk]. unfold title_char_kept in Hk.
  destruct (Ascii.eqb_spec c " "%char) as [->|Hsp]; [right; right; reflexivity|].
  apply orb_true_iff in Hk as [Ha|Hp]; [left; exact Ha|]. simpl in Hp.
  destruct (Ascii.eqb_spec c " "%char); [contradiction|].
  destruct (Ascii.eqb_spec c "-"%char); [right; left; assumption|].
  destruct (Ascii.eqb_spec c "_"%char); [right; right; assumption|discriminate].
Qed.

(** X13: when the chapter numbers used by [process_chapters] (the
    ['chapter_num'] entry, or the position plus one) are pairwise
    distinct, the chunk ids, hence the audio file names, are pairwise
    distinct. *)
Theorem chapter_ids_distinct chapters :
  NoDup (map (fun ic => chapter_number ic.1 ic.2) (enumerate chapters)) ->
  NoDup (map chunk_id (prepare_chunks chapters)).
Proof.
  intros Hn. unfold prepare_chunks. rewrite map_map.
  eapply nodup_map_refine; [|exact Hn].
  intros [i ch] [j ch'] He.
  apply (f_equal (fun o => match o with
                           | Some s => String.list_ascii_of_string s
                           | None => [] end)) in He.
  unfold chapter_chunk, chunk_id in He. cbn beta iota in He.
  rewrite !String.list_ascii_of_string_of_list_ascii in He.
  apply chapter_chunk_id_inj in He as [He _]. exact He.
Qed.

Lemma chapter_ids_distinct_witness :
  NoDup (map (fun ic => chapter_number ic.1 ic.2)
           (enumerate [mkChapter None "One." None; mkChapter None "Two." None;
                       mkChapter (Some (String.list_ascii_of_string "Epilogue")) "End." (Some 99)])) /\
  NoDup (map chunk_id (prepare_chunks
           [mkChapter None "One." None; mkChapter None "Two." None;
            mkChapter (Some (String.list_ascii_of_string "Epilogue")) "End." (Some 99)])).
Proof.
  assert (H : NoDup (map (fun ic => chapter_number ic.1 ic.2)
           (enumerate [mkChapter None "One." None; mkChapter None "Two." None;
                       mkChapter (Some (String.list_ascii_of_string "Epilogue")) "End." (Some 99)]))).
  { apply (bool_decide_unpack _). vm_compute. reflexivity. }
  split; [exact H|]. exact (chapter_ids_distinct _ H).
Defined.

Lemma length_batch_process pc init par fs chunks order :
  Permutation order (enumerate chunks) ->
  length (batch_process pc init par fs chunks order) = if init then length chunks else 0.
Proof.
  intros Hp. unfold batch_process. destruct init; simpl; [|reflexivity].
  destruct (par && _ && _); rewrite length_map; [rewrite (Permutation_length Hp)|];
    apply length_enumerate.
Qed.

(** X14: [process_chapters] reports [successful_chapters +
    failed_chapters] equal to the number of chapters when the pipeline is
    initialised and to 0 otherwise, lists one chapter file per success,
    and reports a merged file only when [merge_final] is set and at least
    one chapter succeeded. *)
Theorem process_chapters_summary pc merge_io fmt init force_sequential chapters order
    output_dir merge_final :
  Permutation order (enumerate (prepare_chunks chapters)) ->
  let s := process_chapters pc merge_io fmt init force_sequential chapters order output_dir
             merge_final in
  successful_chapters s + failed_chapters s = (if init then length chapters else 0) /\
  length (chapter_files s) = successful_chapters s /\
  (merged_file s <> None -> merge_final = true /\ 0 < successful_chapters s).
Proof.
  intros Hp s.
  pose proof (length_batch_process pc init true force_sequential _ _ Hp) as Hl.
  unfold prepare_chunks in Hl at 2. rewrite length_map, length_enumerate in Hl.
  assert (Hle := filter_length_le success
                   (batch_process pc init true force_sequential (prepare_chunks chapters) order)).
  unfold s, process_chapters.
  set (results := batch_process _ _ _ _ _ _) in *.
  set (succ := List.filter success results) in *.
  destruct (merge_final && nonempty (map audio_path succ)) eqn:Em;
    [destruct (merge_audio_files merge_io (map audio_path succ) _)|]; simpl;
    rewrite ?length_map; (split; [lia|split; [reflexivity|]]);
    try (intros Hm; exfalso; apply Hm; reflexivity).
  intros _. apply andb_true_iff in Em as [-> Hne]. split; [reflexivity|].
  destruct succ; [discriminate|simpl; lia].
Qed.

Lemma process_chapters_summary_witness :
  let chapters := [mkChapter None "One." None; mkChapter None "Two." None] in
  let pc := fun (i : nat) (c : Chunk) => mkTTSResult (i =? 0) (Some (chunk_text c)) None in
  Permutation (enumerate (prepare_chunks chapters)) (enumerate (prepare_chunks chapters)) /\
  (let s := process_chapters pc (fun _ _ => true) "mp3" true false chapters
              (enumerate (prepare_chunks chapters)) "out" true in
   successful_chapters s + failed_chapters s = length chapters /\
   length (chapter_files s) = successful_chapters s /\
   (merged_file s <> None -> true = true /\ 0 < successful_chapters s)).
Proof.
  intros chapters pc. split; [reflexivity|].
  exact (process_chapters_summary pc (fun _ _ => true) "mp3" true false chapters
           (enumerate (prepare_chunks chapters)) "out" true (Permutation_refl _)).
Defined.

End ChaptersFacts.

Module ImagesFacts.
Import Batch TTSText Images.

Lemma py_slice_to_length {A} (l : list A) i :
  0 <= i -> (length (py_slice_to l i) <= Z.to_nat i)%nat.
Proof.
  intros Hi. unfold py_slice_to. destruct (Z.leb_spec 0 i); [|lia].
  rewrite length_take. lia.
Qed.

(** X15: the mock model's description is at most [max_length] long when
    [max_length >= 3], and longer than [max_length] when [max_length < 3]
    (the slice [[:max_length-3]] then counts from the end); its
    confidence lies between 0.75 and 0.99 whatever the hash. *)
Theorem mock_description_bounds width height colors context max_length size_hash :
  let '(d, conf) := mock_generate_description width height colors context max_length size_hash in
  (3 <= max_length -> Z.of_nat (length d) <= max_length) /\
  (max_length < 3 -> max_length < Z.of_nat (length d)) /\
  (3 # 4 <= conf)%Q /\ (conf <= 99 # 100)%Q.
Proof.
  unfold mock_generate_description.
  set (base := lit "A " ++ _).
  assert (Hb : (8 <= length base)%nat).
  { unfold base. rewrite !length_app. simpl. lia. }
  split; [|split]; [| |split].
  - intros Hm. destruct (Z.ltb_spec max_length (Z.of_nat (length base))); [|lia].
    rewrite length_app. simpl length.
    pose proof (py_slice_to_length base (max_length - 3) ltac:(lia)). lia.
  - intros Hm. destruct (Z.ltb_spec max_length (Z.of_nat (length base))); [|lia].
    rewrite length_app. simpl length. lia.
  - unfold Qle. simpl. pose proof (Z.mod_pos_bound size_hash 25). lia.
  - unfold Qle. simpl. pose proof (Z.mod_pos_bound size_hash 25). lia.
Qed.

(** Lists of characters none of which satisfies [p]. *)
Definition none_of (p : ascii -> bool) (l : list ascii) : Prop := Forall (fun c => p c = false) l.

Lemma lstrip_by_suffix p l : exists pre, l = pre ++ lstrip_by p l.
Proof.
  induction l as [|c l IH]; simpl; [exists []; reflexivity|].
  destruct (p c); [|exists []; reflexivity].
  destruct IH as [pre Hp]. exists (c :: pre). simpl. congruence.
Qed.

Lemma rstrip_dots_prefix l : exists suf, l = rstrip_dots l ++ suf.
Proof.
  unfold rstrip_dots. destruct (lstrip_by_suffix (fun c => Ascii.eqb c "."%char) (rev l)) as [pre Hp].
  exists (rev pre). rewrite <- rev_app_distr, <- Hp, rev_involutive. reflexivity.
Qed.

Lemma rstrip_dots_forall (P : ascii -> Prop) l : Forall P l -> Forall P (rstrip_dots l).
Proof.
  destruct (rstrip_dots_prefix l) as [suf Hs]. intros H. rewrite Hs in H.
  apply Forall_app in H. apply H.
Qed.

Lemma split_on_forall (P : ascii -> Prop) sep l :
  Forall P l -> Forall (Forall P) (split_on sep l).
Proof.
  induction l as [|c l IH]; intros H; simpl; [repeat constructor|].
  inversion H as [|? ? Hc Hl]; subst.
  destruct (Ascii.eqb c sep); [constructor; [constructor|auto]|].
  specialize (IH Hl). unfold cons_head.
  destruct (split_on sep l) as [|w r]; [repeat constructor; assumption|].
  inversion IH; subst. constructor; [constructor|]; assumption.
Qed.

Lemma sentence_fill_forall (P : ascii -> Prop) max ss r :
  P "."%char -> Forall (Forall P) ss -> Forall P r -> Forall P (sentence_fill max ss r).
Proof.
  intros Hd. revert r. induction ss as [|s ss IH]; intros r Hss Hr; simpl; [exact Hr|].
  inversion Hss; subst.
  destruct (_ <=? _); [|exact Hr]. apply IH; [assumption|].
  apply Forall_app; split; [exact Hr|]. apply Forall_app; split; [assumption|].
  constructor; [exact Hd|constructor].
Qed.

Lemma sentence_fill_length max ss r :
  Z.of_nat (length r) <= max -> Z.of_nat (length (sentence_fill max ss r)) <= max.
Proof.
  revert r. induction ss as [|s ss IH]; intros r Hr; simpl; [exact Hr|].
  destruct (Z.leb_spec (Z.of_nat (length (r ++ s ++ ["."%char]))) max); [|exact Hr].
  apply IH. assumption.
Qed.

(** The result is empty or ends with a period. *)
Definition ends_period (l : list ascii) : Prop := l = [] \/ exists l0, l = l0 ++ ["."%char].

Lemma sentence_fill_ends max ss r : ends_period r -> ends_period (sentence_fill max ss r).
Proof.
  revert r. induction ss as [|s ss IH]; intros r Hr; simpl; [exact Hr|].
  destruct (_ <=? _); [|exact Hr]. apply IH. right. exists (r ++ s). rewrite <- app_assoc. reflexivity.
Qed.

Lemma rstrip_dots_snoc l : rstrip_dots (l ++ ["."%char]) = rstrip_dots l.
Proof. unfold rstrip_dots. rewrite rev_app_distr. reflexivity. Qed.

Lemma length_rstrip_dots l : (length (rstrip_dots l) <= length l)%nat.
Proof.
  destruct (rstrip_dots_prefix l) as [suf Hs]. rewrite Hs at 2. rewrite length_app. lia.
Qed.

Lemma remove_quotes_none l :
  none_of is_quote (remove_char "'"%char (remove_char "034"%char l)).
Proof.
  unfold none_of, remove_char. apply Forall_forall. intros c Hin.
  apply list_elem_of_In, filter_In in Hin as [Hin H1].
  apply filter_In in Hin as [_ H2]. unfold is_quote.
  apply negb_true_iff in H1, H2. rewrite H1, H2. reflexivity.
Qed.

Lemma truncate_none_of p max l :
  p "."%char = false -> none_of p l ->
  none_of p (rstrip_dots (sentence_fill max (split_on "."%char l) [])).
Proof.
  intros Hd Hl. apply rstrip_dots_forall, sentence_fill_forall; [exact Hd| |constructor].
  apply split_on_forall, Hl.
Qed.

(** X16: [_post_process_description] leaves no quote character and,
    for a non-negative [max_description_length], is at most that long. *)
Theorem post_process_description_safe max_description_length description :
  let out := post_process_description max_description_length description in
  none_of is_quote out /\
  (0 <= max_description_length -> Z.of_nat (length out) <= max_description_length).
Proof.
  unfold post_process_description.
  set (pr := remove_char "'"%char (remove_char "034"%char _)).
  pose proof (remove_quotes_none (capitalize_first (add_final_period (py_strip description)))) as Hq.
  fold pr in Hq.
  destruct (Z.ltb_spec max_description_length (Z.of_nat (length pr))); split.
  - apply truncate_none_of; [reflexivity|exact Hq].
  - intros Hm. pose proof (length_rstrip_dots
      (sentence_fill max_description_length (split_on "."%char pr) [])).
    pose proof (sentence_fill_length max_description_length (split_on "."%char pr) []
                  ltac:(simpl; lia)). lia.
  - exact Hq.
  - intros _. lia.
Qed.

(** Empty, or ending with one of [.!?]. *)
Definition ends_ok (l : list ascii) : Prop :=
  l = [] \/ exists l0 c, l = l0 ++ [c] /\ is_sentence_end c = true.

Lemma add_final_period_ok l : ends_ok (add_final_period l).
Proof.
  unfold add_final_period, ends_ok, ends_with_punct.
  destruct (nonempty l) eqn:Hn; [|left; destruct l; [reflexivity|discriminate]].
  simpl. destruct (last l) as [c|] eqn:Hl.
  - destruct (is_sentence_end c) eqn:Hc; simpl.
    + right. apply last_Some in Hl as [l0 Hl0]. exists l0, c. split; assumption.
    + right. exists l, "."%char. split; reflexivity.
  - apply last_None in Hl. subst. discriminate.
Qed.

Lemma to_upper_sentence_end c : is_sentence_end c = true -> to_upper c = c.
Proof.
  unfold is_sentence_end. intros H.
  repeat (apply orb_true_iff in H as [H|H]); apply Ascii.eqb_eq in H; subst; reflexivity.
Qed.

Lemma capitalize_first_ok l : ends_ok l -> ends_ok (capitalize_first l).
Proof.
  intros [->|(l0 & c & -> & Hc)]; [left; reflexivity|]. right.
  destruct l0 as [|x l0]; simpl.
  - exists [], c. rewrite (to_upper_sentence_end c Hc). split; [reflexivity|exact Hc].
  - exists (to_upper x :: l0), c. split; [reflexivity|exact Hc].
Qed.

Lemma remove_char_ok q l : is_sentence_end q = false -> ends_ok l -> ends_ok (remove_char q l).
Proof.
  intros Hq [->|(l0 & c & -> & Hc)]; [left; reflexivity|]. right.
  exists (remove_char q l0), c. split; [|exact Hc].
  unfold remove_char. rewrite List.filter_app. simpl.
  destruct (Ascii.eqb_spec c q) as [->|]; [congruence|reflexivity].
Qed.

Lemma ends_ok_punct l : ends_ok l -> l = [] \/ ends_with_punct l = true.
Proof.
  intros [->|(l0 & c & -> & Hc)]; [left; reflexivity|]. right.
  unfold ends_with_punct. rewrite last_snoc. exact Hc.
Qed.

(** X17: [_clean_description] leaves no quote character, is empty or
    ends with one of [.!?], and, for a non-negative [max_length], is at
    most that long. *)
Theorem clean_description_safe description max_length :
  let out := clean_description description max_length in
  none_of is_quote out /\
  (out = [] \/ ends_with_punct out = true) /\
  (0 <= max_length -> Z.of_nat (length out) <= max_length).
Proof.
  unfold clean_description.
  set (d0 := add_final_period (strip_by is_quote description)).
  set (pr := remove_char "'"%char (remove_char "034"%char (capitalize_first d0))).
  pose proof (remove_quotes_none (capitalize_first d0)) as Hq. fold pr in Hq.
  destruct (Z.ltb_spec max_length (Z.of_nat (length pr))).
  - set (r := sentence_fill max_length (split_on "."%char pr) []).
    assert (Hr : Z.of_nat (length r) <= max_length \/ max_length < 0).
    { destruct (Z.ltb_spec max_length 0); [right; lia|left].
      apply sentence_fill_length. simpl. lia. }
    assert (He : ends_period r) by (apply sentence_fill_ends; left; reflexivity).
    split; [|split].
    + unfold add_final_period. destruct (_ && _).
      * apply Forall_app; split; [apply truncate_none_of; [reflexivity|exact Hq]|].
        repeat constructor.
      * apply truncate_none_of; [reflexivity|exact Hq].
    + apply ends_ok_punct, add_final_period_ok.
    + intros Hm. destruct Hr as [Hr|]; [|lia].
      destruct He as [Hr0|[l0 Hl0]].
      * rewrite Hr0. simpl. lia.
      * rewrite Hl0, rstrip_dots_snoc. rewrite Hl0, length_app in Hr. simpl in Hr.
        pose proof (length_rstrip_dots l0).
        unfold add_final_period. destruct (_ && _); rewrite ?length_app; simpl; lia.
  - split; [exact Hq|split; [|intros _; lia]].
    apply ends_ok_punct. unfold pr. apply remove_char_ok; [reflexivity|].
    apply remove_char_ok; [reflexivity|]. apply capitalize_first_ok, add_final_period_ok.
Qed.

(** X18: [_calculate_confidence] lies in [[0, 1]], and a description
    that mentions "error" or "unavailable" (in any case) gets at most
    0.1. *)
Theorem calculate_confidence_range description truncated :
  (0 <= calculate_confidence description truncated <= 1)%Q /\
  (is_infix (lit "error") (map to_lower description) ||
   is_infix (lit "unavailable") (map to_lower description) = true ->
   (calculate_confidence description truncated <= 1 # 10)%Q).
Proof.
  unfold calculate_confidence. split.
  - split; [apply Q.le_max_l|]. apply Q.max_lub; [discriminate|apply Q.le_min_l].
  - intros He. rewrite He. destruct truncated; apply Qle_bool_iff; reflexivity.
Qed.

Lemma calculate_confidence_range_witness :
  is_infix (lit "error") (map to_lower (lit "Error generating description")) ||
  is_infix (lit "unavailable") (map to_lower (lit "Error generating description")) = true /\
  (calculate_confidence (lit "Error generating description") true <= 1 # 10)%Q.
Proof.
  assert (H : is_infix (lit "error") (map to_lower (lit "Error generating description")) ||
              is_infix (lit "unavailable") (map to_lower (lit "Error generating description")) = true)
    by reflexivity.
  split; [exact H|]. exact (proj2 (calculate_confidence_range _ true) H).
Defined.

Section Cache.
Variable md5_hexdigest : list Byte.byte -> string.
Variable file_name : string -> string.


(** The key reads only the image file's bytes: while they are unchanged,
    it is the same under any state of the other files. *)
Lemma key_same_bytes fs fs' image_path context :
  fs' image_path = fs image_path -> generate_cache_key md5_hexdigest fs' image_path context = generate_cache_key md5_hexdigest fs image_path context.
Proof. intros H. unfold generate_cache_key. rewrite H. reflexivity. Qed.

Lemma cache_get_same_bytes fs fs' c image_path context :
  fs' image_path = fs image_path ->
  cache_get md5_hexdigest fs' c image_path context = cache_get md5_hexdigest fs c image_path context.
Proof. intros H. unfold cache_get. rewrite (key_same_bytes fs fs' image_path context H). reflexivity. Qed.

Lemma cache_get_after_set fs c image_path context d now :
  cache_get md5_hexdigest fs (cache_set md5_hexdigest file_name fs c image_path context d now)
    image_path context =
    (Some (with_cache_hit d), cache_set md5_hexdigest file_name fs c image_path context d now).
Proof. unfold cache_get, cache_set. simpl. rewrite !lookup_insert_eq. reflexivity. Qed.

(** X19: after [set(image_path, context, d)], [get(image_path, context)]
    returns [d] marked as a cache hit and changes nothing, as long as the
    image file's bytes are the same as at the [set] (other files may have
    changed); a lookup under another cache key returns what it returned
    before the [set]. *)
Theorem cache_set_get fs fs' c image_path context d now :
  fs' image_path = fs image_path ->
  cache_get md5_hexdigest fs' (cache_set md5_hexdigest file_name fs c image_path context d now)
    image_path context =
    (Some (with_cache_hit d), cache_set md5_hexdigest file_name fs c image_path context d now) /\
  (forall image_path' context',
     generate_cache_key md5_hexdigest fs' image_path' context' <> generate_cache_key md5_hexdigest fs image_path context ->
     fst (cache_get md5_hexdigest fs'
            (cache_set md5_hexdigest file_name fs c image_path context d now) image_path' context') =
     fst (cache_get md5_hexdigest fs' c image_path' context')).
Proof.
  intros Hfs. split.
  - rewrite (cache_get_same_bytes fs fs') by exact Hfs. apply cache_get_after_set.
  - intros p' ctx' Hk. unfold cache_get, cache_set. simpl.
    rewrite !lookup_insert_ne by congruence.
    destruct (cache_index c !! _); [|reflexivity].
    destruct (cache_files c !! _) as [[]|]; reflexivity.
Qed.

(** X20: a cache entry whose pickle cannot be loaded is dropped by
    [get] from the index and from the files, [get] returns [None], a
    second [get] changes nothing more, and other entries are kept. *)
Theorem cache_get_heals fs c image_path context e :
  cache_index c !! generate_cache_key md5_hexdigest fs image_path context = Some e ->
  cache_files c !! generate_cache_key md5_hexdigest fs image_path context = Some Unreadable ->
  let '(r, c') := cache_get md5_hexdigest fs c image_path context in
  r = None /\
  cache_index c' !! generate_cache_key md5_hexdigest fs image_path context = None /\
  cache_files c' !! generate_cache_key md5_hexdigest fs image_path context = None /\
  cache_get md5_hexdigest fs c' image_path context = (None, c') /\
  (forall k, k <> generate_cache_key md5_hexdigest fs image_path context ->
     cache_index c' !! k = cache_index c !! k /\ cache_files c' !! k = cache_files c !! k).
Proof.
  intros Hi Hf. unfold cache_get at 1. rewrite Hi, Hf. simpl.
  rewrite !lookup_delete_eq. split; [reflexivity|split; [reflexivity|split; [reflexivity|split]]].
  - unfold cache_get. simpl. rewrite lookup_delete_eq. reflexivity.
  - intros k Hk. rewrite !lookup_delete_ne by congruence. split; reflexivity.
Qed.

Lemma clear_fold (ks : list string) c :
  (forall k, cache_index (fold_left (fun c key => mkImageCache (delete key (cache_index c))
                                       (delete key (cache_files c))) ks c) !! k =
             if bool_decide (k ∈ ks) then None else cache_index c !! k) /\
  (forall k, cache_files (fold_left (fun c key => mkImageCache (delete key (cache_index c))
                                       (delete key (cache_files c))) ks c) !! k =
             if bool_decide (k ∈ ks) then None else cache_files c !! k).
Proof.
  revert c. induction ks as [|key ks IH]; intros c; simpl.
  - split; intros k; rewrite ?bool_decide_false by set_solver; reflexivity.
  - destruct (IH (mkImageCache (delete key (cache_index c)) (delete key (cache_files c))))
      as [Hi Hf].
    split; intros k; [rewrite Hi|rewrite Hf]; simpl;
      destruct (decide (k = key)) as [->|Hne].
    + rewrite lookup_delete_eq, (bool_decide_true (_ ∈ _ :: _)) by set_solver.
      destruct (bool_decide _); reflexivity.
    + rewrite lookup_delete_ne by congruence.
      destruct (decide (k ∈ ks)).
      * rewrite !bool_decide_true by set_solver. reflexivity.
      * rewrite !bool_decide_false by set_solver. reflexivity.
    + rewrite lookup_delete_eq, (bool_decide_true (_ ∈ _ :: _)) by set_solver.
      destruct (bool_decide _); reflexivity.
    + rewrite lookup_delete_ne by congruence.
      destruct (decide (k ∈ ks)).
      * rewrite !bool_decide_true by set_solver. reflexivity.
      * rewrite !bool_decide_false by set_solver. reflexivity.
Qed.

(** X21: [clear_old_entries] leaves in the index exactly the entries that
    are not older than [max_age_days] (a missing timestamp counts as 0),
    and removes exactly the files of the dropped entries. *)
Theorem clear_old_entries_filter c now max_age_days :
  cache_index (clear_old_entries c now max_age_days) =
    filter (fun ke => is_old now max_age_days ke.2 = false) (cache_index c) /\
  cache_files (clear_old_entries c now max_age_days) =
    filter (fun kf => match cache_index c !! kf.1 with
                      | Some e => negb (is_old now max_age_days e)
                      | None => true
                      end = true) (cache_files c).
Proof.
  set (old_keys := map fst (List.filter (fun ke => is_old now max_age_days ke.2)
                                        (map_to_list (cache_index c)))).
  assert (Hold : forall k, k ∈ old_keys <->
                   exists e, cache_index c !! k = Some e /\ is_old now max_age_days e = true).
  { intros k. unfold old_keys. rewrite list_elem_of_In, in_map_iff. split.
    - intros ([k' e] & Hk & Hin). simpl in Hk. subst k'.
      apply filter_In in Hin as [Hin Ho]. apply list_elem_of_In, elem_of_map_to_list in Hin.
      exists e. split; assumption.
    - intros (e & He & Ho). exists (k, e). split; [reflexivity|].
      apply filter_In. split; [|exact Ho].
      apply list_elem_of_In, elem_of_map_to_list, He. }
  destruct (clear_fold old_keys c) as [Hi Hf]. unfold clear_old_entries. fold old_keys.
  split; apply map_eq; intros k; [rewrite Hi|rewrite Hf];
    destruct (cache_index c !! k) as [e|] eqn:Ek.
  - destruct (is_old now max_age_days e) eqn:Eo.
    + rewrite bool_decide_true by (apply Hold; eauto).
      symmetry. apply map_lookup_filter_None_2. right. intros x Hx. simpl. rewrite Ek in Hx. injection Hx as <-. congruence.
    + rewrite bool_decide_false.
      2: { intros Hin. apply Hold in Hin as (e' & He' & Ho'). congruence. }
      symmetry. apply map_lookup_filter_Some_2; [exact Ek|exact Eo].
  - rewrite bool_decide_false.
    2: { intros Hin. apply Hold in Hin as (e' & He' & _). congruence. }
    symmetry. apply map_lookup_filter_None_2. left. exact Ek.
  - destruct (is_old now max_age_days e) eqn:Eo.
    + rewrite bool_decide_true by (apply Hold; eauto).
      symmetry. apply map_lookup_filter_None_2. right. intros x Hx. simpl. rewrite Ek, Eo. discriminate.
    + rewrite bool_decide_false.
      2: { intros Hin. apply Hold in Hin as (e' & He' & Ho'). congruence. }
      symmetry. destruct (cache_files c !! k) as [f|] eqn:Ef.
      * apply map_lookup_filter_Some_2; [exact Ef|]. simpl. rewrite Ek, Eo. reflexivity.
      * apply map_lookup_filter_None_2. left. exact Ef.
  - rewrite bool_decide_false.
    2: { intros Hin. apply Hold in Hin as (e' & He' & _). congruence. }
    symmetry. destruct (cache_files c !! k) as [f|] eqn:Ef.
    + apply map_lookup_filter_Some_2; [exact Ef|]. simpl. rewrite Ek. reflexivity.
    + apply map_lookup_filter_None_2. left. exact Ef.
Qed.

Lemma with_cache_hit_idem d : with_cache_hit (with_cache_hit d) = with_cache_hit d.
Proof. reflexivity. Qed.

(** X22: once [process_image] has produced a description for an image
    without error, a second call on the same image and context (without
    [force_regenerate]), with the image file's bytes unchanged, returns
    that description from the cache, marked as a cache hit, whatever the
    model would now do, and leaves the cache unchanged. *)
Theorem process_image_cached fs c image_path context image_open model_loaded generate
    max_description_length now fs' image_open' model_loaded' generate' now' :
  image_open (fs image_path) = Ok tt ->
  (model_loaded = false \/ exists r, generate = Ok r) ->
  fs' image_path = fs image_path ->
  let '(d1, c1) := process_image md5_hexdigest file_name fs c image_path context false
                     image_open model_loaded generate max_description_length now in
  process_image md5_hexdigest file_name fs' c1 image_path context false
    image_open' model_loaded' generate' max_description_length now' = (with_cache_hit d1, c1).
Proof.
  intros Ho Hg Hfs. unfold process_image at 1.
  destruct (cache_get md5_hexdigest fs c image_path context) as [[d|] c0] eqn:Eg.
  - unfold process_image. rewrite (cache_get_same_bytes fs fs') by exact Hfs.
    unfold cache_get in Eg |- *.
    destruct (cache_index c !! _) eqn:Ei; [|discriminate].
    destruct (cache_files c !! _) as [[d'|]|] eqn:Ef; try discriminate.
    injection Eg as <- <-. rewrite Ei, Ef. reflexivity.
  - rewrite Ho. simpl.
    destruct model_loaded;
      [destruct Hg as [Hg|[[text conf] Hr]]; [discriminate|rewrite Hr]|];
      simpl; unfold process_image; rewrite (cache_get_same_bytes fs fs') by exact Hfs;
      rewrite cache_get_after_set; reflexivity.
Qed.

End Cache.

(** Stand-ins for the witnesses: a digest that returns the bytes
    themselves, one image file, and the same image after another file was
    added. *)
Definition sample_md5 (data : list Byte.byte) : string := String.string_of_list_byte data.
Definition sample_fs : FileSystem :=
  fun p => if String.eqb p "fig1.png" then Some (String.list_byte_of_string "fig1 image bytes")
           else None.
Definition sample_fs' : FileSystem :=
  fun p => if String.eqb p "fig2.png" then Some (String.list_byte_of_string "fig2 image bytes")
           else sample_fs p.
Definition sample_description : ImageDescription := mkDescription "fig1.png" "A chart." (9 # 10) false.
Definition empty_cache : ImageCache := mkImageCache ∅ ∅.
Definition corrupt_cache : ImageCache :=
  mkImageCache (<[generate_cache_key sample_md5 sample_fs "fig1.png" "" :=
                    mkCacheEntry "fig1.png" (Some 0) 8]> ∅)
               (<[generate_cache_key sample_md5 sample_fs "fig1.png" "" := Unreadable]> ∅).

Lemma cache_set_get_witness :
  sample_fs' "fig1.png" = sample_fs "fig1.png" /\
  generate_cache_key sample_md5 sample_fs' "fig2.png" "" <>
    generate_cache_key sample_md5 sample_fs "fig1.png" "" /\
  cache_get sample_md5 sample_fs' (cache_set sample_md5 (fun p => p) sample_fs empty_cache
                                     "fig1.png" "" sample_description 5) "fig1.png" "" =
    (Some (with_cache_hit sample_description),
     cache_set sample_md5 (fun p => p) sample_fs empty_cache "fig1.png" "" sample_description 5) /\
  fst (cache_get sample_md5 sample_fs' (cache_set sample_md5 (fun p => p) sample_fs empty_cache
                                          "fig1.png" "" sample_description 5) "fig2.png" "") =
  fst (cache_get sample_md5 sample_fs' empty_cache "fig2.png" "").
Proof.
  assert (H1 : sample_fs' "fig1.png" = sample_fs "fig1.png") by reflexivity.
  assert (H2 : generate_cache_key sample_md5 sample_fs' "fig2.png" "" <>
               generate_cache_key sample_md5 sample_fs "fig1.png" "") by (vm_compute; discriminate).
  pose proof (cache_set_get sample_md5 (fun p => p) sample_fs sample_fs' empty_cache "fig1.png" ""
                sample_description 5 H1) as H.
  split; [exact H1|split; [exact H2|split; [exact (proj1 H)|exact (proj2 H "fig2.png" "" H2)]]].
Defined.

Lemma cache_get_heals_witness :
  cache_index corrupt_cache !! generate_cache_key sample_md5 sample_fs "fig1.png" "" =
    Some (mkCacheEntry "fig1.png" (Some 0) 8) /\
  cache_files corrupt_cache !! generate_cache_key sample_md5 sample_fs "fig1.png" "" =
    Some Unreadable /\
  (let '(r, c') := cache_get sample_md5 sample_fs corrupt_cache "fig1.png" "" in
   r = None /\
   cache_index c' !! generate_cache_key sample_md5 sample_fs "fig1.png" "" = None /\
   cache_files c' !! generate_cache_key sample_md5 sample_fs "fig1.png" "" = None /\
   cache_get sample_md5 sample_fs c' "fig1.png" "" = (None, c') /\
   (forall k, k <> generate_cache_key sample_md5 sample_fs "fig1.png" "" ->
      cache_index c' !! k = cache_index corrupt_cache !! k /\
      cache_files c' !! k = cache_files corrupt_cache !! k)).
Proof.
  assert (H1 : cache_index corrupt_cache !! generate_cache_key sample_md5 sample_fs "fig1.png" "" =
               Some (mkCacheEntry "fig1.png" (Some 0) 8)) by (unfold corrupt_cache; simpl; apply lookup_insert_eq).
  assert (H2 : cache_files corrupt_cache !! generate_cache_key sample_md5 sample_fs "fig1.png" "" =
               Some Unreadable) by (unfold corrupt_cache; simpl; apply lookup_insert_eq).
  split; [exact H1|split; [exact H2|]].
  exact (cache_get_heals sample_md5 sample_fs corrupt_cache "fig1.png" "" _ H1 H2).
Defined.

Lemma process_image_cached_witness :
  (fun data : option (list Byte.byte) => if data then (Ok tt : Exc unit) else Raise (mkExc "OSError" "unreadable"))
    (sample_fs "fig1.png") = Ok tt /\
  (true = false \/ exists r, (Ok (lit "a bar chart", 9 # 10)%Q : Exc (list ascii * Q)) = Ok r) /\
  sample_fs' "fig1.png" = sample_fs "fig1.png" /\
  (let '(d1, c1) := process_image sample_md5 (fun p => p) sample_fs empty_cache "fig1.png" "" false
                      (fun data => if data then Ok tt else Raise (mkExc "OSError" "unreadable"))
                      true (Ok (lit "a bar chart", 9 # 10)%Q) 500 5 in
   process_image sample_md5 (fun p => p) sample_fs' c1 "fig1.png" "" false
     (fun data => if data then Ok tt else Raise (mkExc "OSError" "unreadable"))
     true (Raise (mkExc "RuntimeError" "model down")) 500 9 =
   (with_cache_hit d1, c1)).
Proof.
  assert (H1 : (fun data : option (list Byte.byte) =>
                  if data then (Ok tt : Exc unit) else Raise (mkExc "OSError" "unreadable"))
                 (sample_fs "fig1.png") = Ok tt) by reflexivity.
  assert (H2 : true = false \/ exists r, (Ok (lit "a bar chart", 9 # 10)%Q : Exc (list ascii * Q)) = Ok r)
    by (right; eexists; reflexivity).
  assert (H3 : sample_fs' "fig1.png" = sample_fs "fig1.png") by reflexivity.
  split; [exact H1|split; [exact H2|split; [exact H3|]]].
  exact (process_image_cached sample_md5 (fun p => p) sample_fs empty_cache "fig1.png" ""
           (fun data => if data then Ok tt else Raise (mkExc "OSError" "unreadable")) true
           (Ok (lit "a bar chart", 9 # 10)%Q) 500 5 sample_fs'
           (fun data => if data then Ok tt else Raise (mkExc "OSError" "unreadable")) true
           (Raise (mkExc "RuntimeError" "model down")) 9 H1 H2 H3).
Defined.

End ImagesFacts.

Module IntegrationFacts.
Import Batch TTSText Images Orchestrator Integration.

Lemma fold_left_id {A B} (f : A -> B -> A) l a :
  (forall a b, f a b = a) -> fold_left f l a = a.
Proof. intros Hf. revert a. induction l as [|b l IH]; intros a; simpl; [reflexivity|]. rewrite Hf. apply IH. Qed.

Lemma desc_map_low file_name ds :
  Forall (fun d => Qle_bool (confidence d) (1 # 2) = true) ds -> desc_map file_name ds = [].
Proof.
  intros H. unfold desc_map.
  assert (Hg : forall m, fold_left (fun m d => if negb (Qle_bool (confidence d) (1 # 2))
                                             then dict_set (lit (file_name (image_path d)))
                                                    (lit (description d)) m else m) ds m = m).
  { induction ds as [|d ds IH]; intros m; simpl; [reflexivity|].
    inversion H as [|? ? Hd Hr]; subst. rewrite Hd. simpl. apply IH, Hr. }
  apply Hg.
Qed.

(** X23: [_integrate_image_descriptions] keeps [success] and the other
    result fields, keeps every chapter's number, title and detection
    confidence (in order), sets each chapter's [word_count] to
    [len(content.split())], and, when no description has confidence
    above 0.5, leaves the text and every chapter's content unchanged. *)
Theorem integrate_preserves Extras file_name epub_result image_descriptions :
  let r := integrate_image_descriptions Extras file_name epub_result image_descriptions in
  er_success Extras r = er_success Extras epub_result /\
  er_extras Extras r = er_extras Extras epub_result /\
  map (fun ch => (chapter_num ch, title ch, ch_confidence ch)) (er_chapters Extras r) =
    map (fun ch => (chapter_num ch, title ch, ch_confidence ch)) (er_chapters Extras epub_result) /\
  Forall (fun ch => word_count ch = length (py_split (content ch))) (er_chapters Extras r) /\
  (Forall (fun d => Qle_bool (confidence d) (1 # 2) = true) image_descriptions ->
   er_text_content Extras r = er_text_content Extras epub_result /\
   map content (er_chapters Extras r) = map content (er_chapters Extras epub_result)).
Proof.
  simpl. split; [reflexivity|split; [reflexivity|split; [|split]]].
  - rewrite map_map. apply map_ext. intros ch. reflexivity.
  - apply Forall_map, Forall_forall. intros ch _. reflexivity.
  - intros Hlow. rewrite (desc_map_low file_name _ Hlow). split; [reflexivity|].
    rewrite map_map. apply map_ext. intros ch. reflexivity.
Qed.

Lemma integrate_preserves_witness :
  Forall (fun d => Qle_bool (confidence d) (1 # 2) = true)
    [mkDescription "f.png" "A cat" (4 # 10) false] /\
  (let r := integrate_image_descriptions unit (fun p => p)
              (mkEpubResult unit true (lit "See [IMAGE: f.png].")
                 [mkEpubChapter 1 (lit "One") (lit "Intro [IMAGE: f.png]") 2 0 1] tt)
              [mkDescription "f.png" "A cat" (4 # 10) false] in
   er_text_content unit r = lit "See [IMAGE: f.png]." /\
   map content (er_chapters unit r) = [lit "Intro [IMAGE: f.png]"]).
Proof.
  assert (H : Forall (fun d => Qle_bool (confidence d) (1 # 2) = true)
                [mkDescription "f.png" "A cat" (4 # 10) false]) by (repeat constructor).
  split; [exact H|].
  exact (proj2 (proj2 (proj2 (proj2 (integrate_preserves unit (fun p => p)
           (mkEpubResult unit true (lit "See [IMAGE: f.png].")
              [mkEpubChapter 1 (lit "One") (lit "Intro [IMAGE: f.png]") 2 0 1] tt)
           [mkDescription "f.png" "A cat" (4 # 10) false])))) H).
Defined.

Definition no_existing_file (path_exists : string -> bool) (image_info_list : list ImageInfo) : Prop :=
  Forall (fun i => file_path i = "" \/ path_exists (file_path i) = false) image_info_list.

Lemma images_none_valid clock path_exists batch image_info_list :
  no_existing_file path_exists image_info_list ->
  process_images_parallel clock path_exists batch image_info_list =
    mkStageOutcome false [] (clock 1%nat - clock 0%nat).
Proof.
  intros H. unfold process_images_parallel.
  replace (List.filter _ image_info_list) with (@nil ImageInfo); [reflexivity|].
  induction image_info_list as [|i l IH]; simpl; [reflexivity|].
  inversion H as [|? ? [Hi|Hi] Hr]; subst; rewrite ?Hi.
  - simpl. apply IH, Hr.
  - destruct (negb _); simpl; apply IH, Hr.
Qed.

(** X24: [_process_images_parallel] reports failure with no descriptions
    when no listed image file exists (without running the batch), and
    whenever it reports failure; when it reports success, the batch ran
    on the existing files, succeeded, and its descriptions are returned. *)
Theorem process_images_parallel_outcome clock path_exists batch image_info_list :
  let o := process_images_parallel clock path_exists batch image_info_list in
  (no_existing_file path_exists image_info_list -> so_success o = false) /\
  (so_success o = false -> so_payload o = []) /\
  (so_success o = true ->
   exists r, batch (List.filter (fun i => negb (String.eqb (file_path i) "") &&
                                          path_exists (file_path i)) image_info_list) = Ok r /\
             ip_success r = true /\ so_payload o = descriptions r).
Proof.
  simpl. split; [|split].
  - intros H. rewrite images_none_valid by exact H. reflexivity.
  - unfold process_images_parallel.
    destruct (List.filter _ _); [reflexivity|].
    destruct (batch _) as [r|]; [destruct (ip_success r)|]; simpl; congruence.
  - unfold process_images_parallel.
    destruct (List.filter _ _) as [|i l]; [discriminate|].
    destruct (batch _) as [r|] eqn:Eb; [destruct (ip_success r) eqn:Es|]; simpl; try discriminate.
    intros _. exists r. split; [reflexivity|split; [exact Es|reflexivity]].
Qed.

Lemma process_images_parallel_outcome_witness :
  no_existing_file (fun _ => false) [mkImageInfo "gone.png" None] /\
  so_success (process_images_parallel (fun k => Z.of_nat k) (fun _ => false)
                (fun _ => Raise (mkExc "RuntimeError" "unused")) [mkImageInfo "gone.png" None]) = false.
Proof.
  assert (H : no_existing_file (fun _ => false) [mkImageInfo "gone.png" None])
    by (repeat constructor; right; reflexivity).
  split; [exact H|].
  exact (proj1 (process_images_parallel_outcome (fun k => Z.of_nat k) (fun _ => false)
                  (fun _ => Raise (mkExc "RuntimeError" "unused")) [mkImageInfo "gone.png" None]) H).
Defined.

(** X25: when none of the EPUB's image files exists, the image stage of
    [process_epub_complete], run through [_process_images_parallel],
    yields no description: the descriptions are never integrated, and
    the pipeline result has no descriptions ([None] or [[]]). *)
Theorem no_image_files_no_integration clock clock' path_exists batch epub_result
    enable_tts enable_images has_tts has_images tts_out integrate final_out :
  no_existing_file path_exists (image_info epub_result) ->
  let '(res, actions) :=
    process_epub_complete clock (Ok epub_result) enable_tts enable_images has_tts has_images
      (Ok (process_images_parallel clock' path_exists batch (image_info epub_result)))
      tts_out integrate final_out in
  ~ In Integrate actions /\
  (image_descriptions res = None \/ image_descriptions res = Some []).
Proof.
  intros H. rewrite images_none_valid by exact H.
  unfold process_epub_complete.
  destruct (pr_success epub_result); simpl; [|split; [tauto|left; reflexivity]].
  destruct (enable_images && has_images && _), (enable_tts && has_tts);
    [destruct tts_out as [o|e]; [destruct (so_success o)|]| |destruct tts_out as [o|e]; [destruct (so_success o)|]|];
    destruct final_out; simpl;
    (split; [intros Hin; repeat (destruct Hin as [Hin|Hin]; [discriminate|]); exact Hin|]);
    auto.
Qed.

Lemma no_image_files_no_integration_witness :
  no_existing_file (fun _ => false)
    (image_info (mkProcessingResult true "Text" ["Ch 1"] [mkImageInfo "fig.png" None] None 0)) /\
  (let '(res, actions) :=
     process_epub_complete (fun k => Z.of_nat k)
       (Ok (mkProcessingResult true "Text" ["Ch 1"] [mkImageInfo "fig.png" None] None 0))
       true true true true
       (Ok (process_images_parallel (fun k => Z.of_nat k) (fun _ => false)
              (fun _ => Raise (mkExc "RuntimeError" "unused")) [mkImageInfo "fig.png" None]))
       (Ok (mkStageOutcome true [] 3)) (fun r _ => r) (Ok tt) in
   ~ In Integrate actions /\
   (image_descriptions res = None \/ image_descriptions res = Some [])).
Proof.
  assert (H : no_existing_file (fun _ => false)
                (image_info (mkProcessingResult true "Text" ["Ch 1"] [mkImageInfo "fig.png" None] None 0)))
    by (repeat constructor; right; reflexivity).
  split; [exact H|].
  exact (no_image_files_no_integration (fun k => Z.of_nat k) (fun k => Z.of_nat k) (fun _ => false)
           (fun _ => Raise (mkExc "RuntimeError" "unused"))
           (mkProcessingResult true "Text" ["Ch 1"] [mkImageInfo "fig.png" None] None 0)
           true true true true (Ok (mkStageOutcome true [] 3)) (fun r _ => r) (Ok tt) H).
Defined.

End IntegrationFacts.

Module PreprocessFacts.
Import TTSText TTSTextFacts DirectKokoro DirectKokoroFacts Images Preprocess.
Local Open Scope nat_scope.

(** No two adjacent spaces. *)
Definition no_double_space (l : list ascii) : Prop :=
  forall a b, l <> a ++ space :: space :: b.

Lemma py_strip_infix s : exists pre post, s = pre ++ py_strip s ++ post.
Proof.
  unfold py_strip, rstrip.
  destruct (lstrip_suffix s) as (pre & Hs & _).
  set (u := lstrip s) in *. set (v := rev u).
  destruct (lstrip_suffix v) as (pre2 & H2 & _).
  exists pre, (rev pre2).
  assert (Hu : u = rev (lstrip v) ++ rev pre2).
  { rewrite <- rev_app_distr, <- H2. unfold v. symmetry. apply rev_involutive. }
  rewrite Hs at 1. rewrite Hu at 1. reflexivity.
Qed.

Lemma space_is_space : is_space space = true.
Proof. reflexivity. Qed.

Lemma collapse_ws_normal s b :
  no_double_space (collapse_ws b s) /\ (b = true -> hd_error (collapse_ws b s) <> Some space).
Proof.
  revert b. induction s as [|c s IH]; intros b; simpl.
  - split; [intros a b' H; destruct a; discriminate|intros _; discriminate].
  - destruct (is_space c) eqn:Hc; [destruct b|].
    + apply IH.
    + destruct (IH true) as [Hn Hh]. split; [|discriminate].
      intros a b' H. destruct a as [|x a]; simpl in H; [injection H as H2|injection H as H1 H2].
      * apply (Hh eq_refl). rewrite H2. reflexivity.
      * exact (Hn a b' H2).
    + destruct (IH false) as [Hn _]. split.
      * intros a b' H. destruct a as [|x a]; simpl in H; injection H as H1 H2.
        -- subst c. rewrite space_is_space in Hc. discriminate.
        -- exact (Hn a b' H2).
      * intros _ H. simpl in H. injection H as H1. subst c.
        rewrite space_is_space in Hc. discriminate.
Qed.

Lemma strip_collapse_normal p :
  py_strip (py_strip (collapse_ws false p)) = py_strip (collapse_ws false p) /\
  Forall (fun c => is_space c = false \/ c = space) (py_strip (collapse_ws false p)) /\
  no_double_space (py_strip (collapse_ws false p)).
Proof.
  split; [apply py_strip_idem|split; [apply py_strip_forall, collapse_ws_spaces|]].
  destruct (py_strip_infix (collapse_ws false p)) as (pre & post & Hx).
  intros a b H. rewrite H in Hx.
  apply (proj1 (collapse_ws_normal p false) (pre ++ a) (b ++ post)).
  rewrite Hx at 1. rewrite <- !app_assoc. reflexivity.
Qed.

(** X26: the text returned by [_preprocess_text] has no leading or
    trailing whitespace, no whitespace character other than the plain
    space, and no two adjacent spaces. *)
Theorem preprocess_text_normalized text :
  py_strip (preprocess_text text) = preprocess_text text /\
  Forall (fun c => is_space c = false \/ c = space) (preprocess_text text) /\
  no_double_space (preprocess_text text).
Proof. unfold preprocess_text. cbv zeta. apply strip_collapse_normal. Qed.

(** A matcher that can only match at an opening bracket. *)
Definition bracket_only (m : matcher) : Prop :=
  forall c t, c <> "["%char -> m (c :: t) = None.

Lemma sub_go_id m f s :
  bracket_only m -> Forall (fun c => c <> "["%char) s -> sub_go f m s = s.
Proof.
  intros Hm. revert f. induction s as [|c s IH]; intros f Hs; destruct f; simpl; try reflexivity.
  inversion Hs as [|? ? Hc Hr]; subst. rewrite (Hm c s Hc). f_equal. apply IH, Hr.
Qed.

Lemma re_sub_id m s :
  bracket_only m -> Forall (fun c => c <> "["%char) s -> re_sub m s = s.
Proof. apply sub_go_id. Qed.

Lemma strip_lit_bracket pre p c t :
  lit pre = "["%char :: p -> c <> "["%char -> strip_prefix (lit pre) (c :: t) = None.
Proof.
  intros Hl Hc. assert (E : Ascii.eqb "["%char c = false) by (apply Ascii.eqb_neq; congruence).
  rewrite Hl. cbn [strip_prefix]. rewrite E. reflexivity.
Qed.

Lemma m_pause_bracket : bracket_only m_pause.
Proof.
  intros c t Hc. unfold m_pause. rewrite (strip_lit_bracket "[PAUSE:" (lit "PAUSE:") c t eq_refl Hc).
  reflexivity.
Qed.

Lemma m_tag_bracket prefix p repl :
  lit prefix = "["%char :: p -> bracket_only (m_tag prefix repl).
Proof.
  intros Hl c t Hc. unfold m_tag. rewrite (strip_lit_bracket _ _ c t Hl Hc). reflexivity.
Qed.

Lemma m_fixed_bracket marker p repl :
  lit marker = "["%char :: p -> bracket_only (m_fixed marker repl).
Proof.
  intros Hl c t Hc. unfold m_fixed. rewrite (strip_lit_bracket _ _ c t Hl Hc). reflexivity.
Qed.

Lemma m_generic_bracket : bracket_only m_generic.
Proof.
  intros c t Hc. assert (E : Ascii.eqb c "["%char = false) by (apply Ascii.eqb_neq; exact Hc).
  unfold m_generic. cbv beta iota. rewrite E. reflexivity.
Qed.

Ltac side_cond H :=
  first [ exact H | apply m_pause_bracket | apply m_generic_bracket
        | eapply m_tag_bracket; reflexivity | eapply m_fixed_bracket; reflexivity ].

(** X27: on a text with no opening bracket, [_preprocess_text] only
    normalises whitespace: every run of whitespace becomes one space and
    the result is stripped. *)
Theorem preprocess_text_plain text :
  Forall (fun c => c <> "["%char) text ->
  preprocess_text text = py_strip (collapse_ws false text).
Proof.
  intros H. unfold preprocess_text. cbv zeta.
  rewrite (re_sub_id m_pause) by side_cond H.
  rewrite (re_sub_id (m_tag "[EMPHASIS_STRONG:" _)) by side_cond H.
  rewrite (re_sub_id (m_tag "[EMPHASIS_MILD:" _)) by side_cond H.
  rewrite (re_sub_id (m_fixed "[DIALOGUE_START]" _)) by side_cond H.
  rewrite (re_sub_id (m_fixed "[DIALOGUE_END]" _)) by side_cond H.
  rewrite (re_sub_id (m_tag "[CHAPTER_START:" _)) by side_cond H.
  rewrite (re_sub_id (m_tag "[IMAGE:" _)) by side_cond H.
  rewrite (re_sub_id (m_tag "[IMAGE DESCRIPTION:" _)) by side_cond H.
  rewrite (re_sub_id (m_fixed "[HEADER_END]" _)) by side_cond H.
  rewrite (re_sub_id m_generic) by side_cond H.
  reflexivity.
Qed.

Lemma preprocess_text_plain_witness :
  Forall (fun c => c <> "["%char) (lit "Hi,  there ") /\
  preprocess_text (lit "Hi,  there ") = py_strip (collapse_ws false (lit "Hi,  there ")).
Proof.
  assert (H : Forall (fun c => c <> "["%char) (lit "Hi,  there ")).
  { simpl. repeat (constructor; [discriminate|]). constructor. }
  split; [exact H|exact (preprocess_text_plain _ H)].
Defined.

End PreprocessFacts.
